(** * Forward scheduler of [services/schedulerService.ts]

    A shallow embedding of [scheduleProject] and of its helpers, followed by
    the properties of the scheduling engine.

    Modelling conventions.
    - A calendar date (the [YYYY-MM-DD] strings of the source) is the number
      of its day since 1970-01-01, an integer: [new Date(s)] reads such a
      string as midnight UTC of that day, so that [maxDate] compares day
      numbers.  The date strings that a caller passes are well formed, as
      the specification requires of callers; what the comparisons do with a
      string that is not a date is not modelled.
    - [addDays] goes through the local time of the runtime: it adds the days
      to the local date and formats the result in UTC.  The time zone of the
      runtime is a parameter, the class [TimeZone]; [addDays] raises
      [RangeError] (the result [None]) when the date it builds is not a
      valid time value.
    - A duration is a JavaScript number; the model has the integers and
      [NaN] ([number]).  An infinite number of days gives an invalid date,
      as [NaN] does; fractions of a day are not modelled.
    - The current date, read by [new Date()] while the availability map is
      seeded and formatted in UTC, is the explicit argument [today].
    - Task objects live in a store ([Heap]): the caller's arrays hold
      references into it, [{ ...t }] allocates a fresh object, and the writes
      [task.startDate = ...] and [task.assignedTo = ...] update the store at
      the reference held by [taskMap].
    - A JavaScript [Map] with string keys is a [gmap string _].
    - An optional string is an [option string]; [undefined] and the empty
      string are the two falsy values ([truthy]). *)

From Stdlib Require Import ZArith Lia.
From stdpp Require Import gmap strings list fin_maps sorting.

Local Open Scope Z_scope.

(** ** Data model *)

Inductive Priority := Critica | Alta | Media | Baja.

#[global] Instance Priority_eq_dec : EqDecision Priority.
Proof. solve_decision. Defined.

(** A number of days: an integer, or [NaN]. *)
Inductive number := Finite (n : Z) | NaN.

Coercion Finite : Z >-> number.

#[global] Instance number_eq_dec : EqDecision number.
Proof. solve_decision. Defined.

Record Task := mkTask {
  tid : string;
  projectId : string;
  name : string;
  dependencies : option (list string);
  startDate : Z;
  duration : number;
  assignedTo : option string;
  requiredSpecialty : option string;
  priority : Priority
}.

Record User := mkUser {
  uid : string;
  specialties : list string;
  role : string
}.

Record Project := mkProject {
  pid : string;
  pStartDate : Z
}.

#[global] Instance Task_eq_dec : EqDecision Task.
Proof. solve_decision. Defined.

#[global] Instance User_eq_dec : EqDecision User.
Proof. solve_decision. Defined.

(** References to task objects and the object store. *)
Abbreviation loc := nat.
Abbreviation Heap := (list Task).

(** The objects an array of references denotes in a store. *)
Definition derefs (h : Heap) (refs : list loc) : list Task :=
  omap (λ l, h !! l) refs.

(** JavaScript truthiness of an optional string. *)
Definition truthy (o : option string) : bool :=
  match o with
  | Some s => negb (bool_decide (s = EmptyString))
  | None => false
  end.

(** [task.dependencies] under the guard [if (task.dependencies)]. *)
Definition depsOf (t : Task) : list string :=
  match dependencies t with
  | Some ds => ds
  | None => []
  end.

(** ** The runtime's dates *)

(** The time zone of the runtime, as ECMAScript uses it: [offsetAt t] is the
    offset of local time, in milliseconds, at the instant [t] (a time value,
    milliseconds since the epoch in UTC), so that the local time of [t] is
    [t + offsetAt t]; [offsetOfLocal l] is the offset by which the local
    time [l] is taken back to UTC, [l - offsetOfLocal l]. *)
Class TimeZone := mkTimeZone {
  offsetAt : Z → Z;
  offsetOfLocal : Z → Z
}.

(** A zone whose offset never changes, such as UTC. *)
Definition fixedOffset {zone : TimeZone} : Prop :=
  ∀ t l, offsetOfLocal l = offsetAt t.

Definition msPerDay : Z := 86400000.

(** Time values range over 100,000,000 days on either side of the epoch;
    [TimeClip] turns anything else into [NaN], here [None]. *)
Definition maxTime : Z := 100000000 * msPerDay.

Definition timeClip (t : Z) : option Z :=
  if (- maxTime <=? t) && (t <=? maxTime) then Some t else None.

(** [forEach] with a body that may raise. *)
Fixpoint forEachM {A S} (f : S → A → option S) (l : list A) (s : S) : option S :=
  match l with
  | [] => Some s
  | x :: l' =>
      match f s x with
      | Some s' => forEachM f l' s'
      | None => None
      end
  end.

(** ** Helpers of the source *)

Section model.
Context {zone : TimeZone}.

(** [addDays]: [new Date(dateStr)] is midnight UTC of the day, or an invalid
    date when the day is out of range.  [getDate] reads the day of the month
    in local time and [setDate] sets it, which moves the local time by
    [days] whole days and converts the result back to UTC, clipped.
    [toISOString] raises [RangeError] on an invalid date and otherwise
    gives the UTC day of the time value.  With [NaN] days the date is
    invalid. *)
Definition addDays (dateStr : Z) (days : number) : option Z :=
  match days with
  | NaN => None
  | Finite n =>
      match timeClip (dateStr * msPerDay) with
      | Some t =>
          let newDate := t + offsetAt t + n * msPerDay in
          match timeClip (newDate - offsetOfLocal newDate) with
          | Some u => Some (u `div` msPerDay)
          | None => None
          end
      | None => None
      end
  end.
End model.

Definition maxDate (d1 d2 : Z) : Z := if d2 <? d1 then d1 else d2.

Definition priorityWeight (p : Priority) : Z :=
  match p with
  | Critica => 4
  | Alta => 3
  | Media => 2
  | Baja => 1
  end.

(** [Array.prototype.sort] with a comparator: a stable sort.  [x] is placed
    after the elements that the comparator puts strictly before it, and
    before every other element, so that elements which compare equal keep
    their order of arrival. *)
Fixpoint insertBy {A} (cmp : A → A → Z) (x : A) (l : list A) : list A :=
  match l with
  | [] => [x]
  | y :: l' => if cmp y x <? 0 then y :: insertBy cmp x l' else x :: l
  end.

Definition sortBy {A} (cmp : A → A → Z) (l : list A) : list A :=
  foldr (insertBy cmp) [] l.

(** ** State of one call *)

Record State := mkState {
  heap : Heap;
  taskMap : gmap string loc;
  outgoingEdges : gmap string (list string);
  incomingDegree : gmap string Z;
  userAvailability : gmap string Z;
  queue : list string;
  optimized : list loc;
  conflictLog : list string
}.

Record ScheduleResult := mkResult {
  optimizedTasks : list loc;
  conflicts : list string;
  utilization : gmap string Z
}.

(** What a call can do: return, raise (the [RangeError] of [addDays], or a
    property read on [undefined]), or exhaust the fuel of the model. *)
Inductive outcome (A : Type) :=
  | Ok (a : A)
  | Throw
  | OutOfFuel.
Arguments Ok {A} a.
Arguments Throw {A}.
Arguments OutOfFuel {A}.

Definition bind {A B} (m : outcome A) (k : A → outcome B) : outcome B :=
  match m with
  | Ok a => k a
  | Throw => Throw
  | OutOfFuel => OutOfFuel
  end.

(** [taskMap.get(i)], dereferenced. *)
Definition getTask (tm : gmap string loc) (h : Heap) (i : string) : option Task :=
  match tm !! i with
  | Some l => h !! l
  | None => None
  end.

(** ** 1. Dependency graph *)

(** First [forEach]: clone every task and initialise the three maps. *)
Definition registerTask (s : State) (t : Task) : State :=
  mkState (heap s ++ [t])
          (<[tid t := length (heap s)]> (taskMap s))
          (<[tid t := []]> (outgoingEdges s))
          (<[tid t := 0]> (incomingDegree s))
          (userAvailability s) (queue s) (optimized s) (conflictLog s).

(** Second [forEach], inner body: one dependency id of task [t]. *)
Definition addEdge (tm : gmap string loc) (t : Task)
    (g : gmap string (list string) * gmap string Z) (depId : string)
    : gmap string (list string) * gmap string Z :=
  match tm !! depId with
  | Some _ =>
      (match g.1 !! depId with
       | Some out => <[depId := out ++ [tid t]]> g.1
       | None => g.1
       end,
       <[tid t := default 0 (g.2 !! tid t) + 1]> g.2)
  | None => g
  end.

Definition addEdges (tm : gmap string loc)
    (g : gmap string (list string) * gmap string Z) (t : Task)
    : gmap string (list string) * gmap string Z :=
  fold_left (addEdge tm t) (depsOf t) g.

(** ** 2. Resource availability *)

Definition seedUser (today : Z) (av : gmap string Z) (u : User) : gmap string Z :=
  <[uid u := today]> av.

Section engine.
Context {zone : TimeZone}.

Definition levelTask (project : Project) (av : gmap string Z) (t : Task)
    : option (gmap string Z) :=
  match assignedTo t with
  | Some a =>
      if bool_decide (projectId t ≠ pid project) && truthy (assignedTo t) then
        match av !! a with
        | Some currentAvail =>
            match addDays (startDate t) (duration t) with
            | Some taskEnd => Some (<[a := maxDate currentAvail taskEnd]> av)
            | None => None
            end
        | None => Some av
        end
      else Some av
  | None => Some av
  end.

(** ** 3. Ready queue *)

(** [priorityWeight[taskMap.get(i)!.priority]]; every id that reaches the
    queue is a key of [taskMap] ([wf_queue] below), the default is never
    used. *)
Definition weightOf (tm : gmap string loc) (h : Heap) (i : string) : Z :=
  match getTask tm h i with
  | Some t => priorityWeight (priority t)
  | None => 0
  end.

Definition queueCmp (tm : gmap string loc) (h : Heap) (a b : string) : Z :=
  weightOf tm h b - weightOf tm h a.

Definition sortQueue (tm : gmap string loc) (h : Heap) (q : list string) : list string :=
  sortBy (queueCmp tm h) q.

(** The three [forEach] over [projectTasks] and the one over
    [existingGlobalTasks] read the caller's objects; nothing has been written
    to the store at that point (cloning only allocates), so they see the
    objects of [h0]. *)

(** Section 1 of the source: the clones, [taskMap] and the two graph maps;
    the other components are still empty. *)
Definition buildGraph (h0 : Heap) (projectTasks : list loc) : State :=
  let ts := derefs h0 projectTasks in
  let s1 := fold_left registerTask ts (mkState h0 ∅ ∅ ∅ ∅ [] [] []) in
  let g := fold_left (addEdges (taskMap s1)) ts
              (outgoingEdges s1, incomingDegree s1) in
  mkState (heap s1) (taskMap s1) g.1 g.2 ∅ [] [] [].

(** Section 3 of the source: the ids without incoming edge, in the order of
    [projectTasks], sorted by priority. *)
Definition readyQueue (g : State) (ts : list Task) : list string :=
  sortQueue (taskMap g) (heap g)
    (filter (λ i, default 0 (incomingDegree g !! i) = 0) (tid <$> ts)).

(** The state at the entry of the process loop, for the availability map
    [av] that section 2 has built. *)
Definition loopEntry (h0 : Heap) (projectTasks : list loc) (av : gmap string Z)
    : State :=
  let g := buildGraph h0 projectTasks in
  mkState (heap g) (taskMap g) (outgoingEdges g) (incomingDegree g) av
          (readyQueue g (derefs h0 projectTasks)) [] [].

(** Sections 1 to 3; [Throw] when [addDays] raises while the availability
    map is built. *)
Definition initState (today : Z) (project : Project) (h0 : Heap)
    (projectTasks : list loc) (allUsers : list User)
    (existingGlobalTasks : list loc) : outcome State :=
  let av0 := fold_left (seedUser today) allUsers ∅ in
  match forEachM (levelTask project) (derefs h0 existingGlobalTasks) av0 with
  | Some av => Ok (loopEntry h0 projectTasks av)
  | None => Throw
  end.

(** ** 4. Process loop *)

(** A. Earliest start imposed by the dependencies. *)
Definition depStep (tm : gmap string loc) (h : Heap) (acc : Z) (depId : string)
    : option Z :=
  match getTask tm h depId with
  | Some depTask =>
      match addDays (startDate depTask) (duration depTask) with
      | Some depEnd => Some (maxDate acc depEnd)
      | None => None
      end
  | None => Some acc
  end.

Definition dependencyEarliestStart (project : Project) (tm : gmap string loc)
    (h : Heap) (task : Task) : option Z :=
  forEachM (depStep tm h) (depsOf task) (pStartDate project).

(** B. Resource assignment. *)
Definition satisfies (specialtyNeeded : string) (u : User) : bool :=
  bool_decide (specialtyNeeded ∈ specialties u)
  || bool_decide (role u = specialtyNeeded).

Definition availOf (av : gmap string Z) (i : string) : Z := default 0 (av !! i).

Definition candCmp (av : gmap string Z) (u1 u2 : User) : Z :=
  availOf av (uid u1) - availOf av (uid u2).

Definition candidatesFor (allUsers : list User) (av : gmap string Z)
    (specialtyNeeded : string) : list User :=
  sortBy (candCmp av) (List.filter (satisfies specialtyNeeded) allUsers).

Definition conflictMessage (specialtyNeeded taskName : string) : string :=
  let quote := String (Ascii.ascii_of_nat 34) EmptyString in
  ("Falta perfil: " +:+ specialtyNeeded +:+ " para tarea " +:+ quote
     +:+ taskName +:+ quote)%string.

(** The pair (bestUser, new conflict entries) of one task. *)
Definition chooseUser (allUsers : list User) (av : gmap string Z)
    (task : Task) (floor : Z) : option string * list string :=
  let assignedUser := assignedTo task in
  if truthy (requiredSpecialty task) then
    let specialtyNeeded := default EmptyString (requiredSpecialty task) in
    match candidatesFor allUsers av specialtyNeeded with
    | c0 :: cs =>
        let currentIsCapable :=
          existsb (λ c, bool_decide (Some (uid c) = assignedUser)) (c0 :: cs) in
        if currentIsCapable
           && (availOf av (default EmptyString assignedUser) <=? floor)
        then (assignedUser, [])
        else (Some (uid c0), [])
    | [] => (assignedUser, [conflictMessage specialtyNeeded (name task)])
    end
  else (assignedUser, []).

(** F. One successor of the task that was just processed. *)
Definition release (tm : gmap string loc) (h : Heap)
    (dq : gmap string Z * list string) (neighborId : string)
    : gmap string Z * list string :=
  let currentDegree := default 0 (dq.1 !! neighborId) - 1 in
  (<[neighborId := currentDegree]> dq.1,
   if bool_decide (currentDegree = 0)
   then sortQueue tm h (dq.2 ++ [neighborId])
   else dq.2).

(** C. Final start date and booking: the triple (actualStartDate, the
    availability map, the value of [task.assignedTo]) after the block
    [if (bestUser) { ... }], or [None] when [addDays] raises in it. *)
Definition bookUser (project : Project) (av : gmap string Z) (task : Task)
    (floor : Z) (bestUser : option string)
    : option (Z * gmap string Z * option string) :=
  match bestUser with
  | Some b =>
      if truthy bestUser then
        let userNextFree := default (pStartDate project) (av !! b) in
        let actualStartDate := maxDate floor userNextFree in
        match addDays actualStartDate (duration task) with
        | Some taskEndDate =>
            Some (actualStartDate, <[b := taskEndDate]> av, bestUser)
        | None => None
        end
      else Some (floor, av, assignedTo task)
  | None => Some (floor, av, assignedTo task)
  end.

(** D. The object after the writes to [assignedTo] and [startDate]. *)
Definition scheduled (task : Task) (actualStartDate : Z)
    (assigned : option string) : Task :=
  mkTask (tid task) (projectId task) (name task) (dependencies task)
         actualStartDate (duration task) assigned (requiredSpecialty task)
         (priority task).

(** The loop body, for the id [taskId] taken from the head of the queue. *)
Definition processTask (project : Project) (allUsers : list User)
    (s : State) (taskId : string) (rest : list string) : outcome State :=
  match taskMap s !! taskId with
  | None => Throw
  | Some l =>
    match heap s !! l with
    | None => Throw
    | Some task =>
      match dependencyEarliestStart project (taskMap s) (heap s) task with
      | None => Throw
      | Some floor =>
        let choice := chooseUser allUsers (userAvailability s) task floor in
        match bookUser project (userAvailability s) task floor choice.1 with
        | None => Throw
        | Some bk =>
          let h' := <[l := scheduled task bk.1.1 bk.2]> (heap s) in
          let dq := fold_left (release (taskMap s) h')
                      (default [] (outgoingEdges s !! taskId))
                      (incomingDegree s, rest) in
          Ok (mkState h' (taskMap s) (outgoingEdges s) dq.1 bk.1.2 dq.2
                      (optimized s ++ [l]) (conflictLog s ++ choice.2))
        end
      end
    end
  end.

Fixpoint processLoop (fuel : nat) (project : Project) (allUsers : list User)
    (s : State) : outcome State :=
  match queue s with
  | [] => Ok s
  | taskId :: rest =>
      match fuel with
      | O => OutOfFuel
      | S fuel' =>
          bind (processTask project allUsers s taskId rest)
               (processLoop fuel' project allUsers)
      end
  end.

(** The final state of a call; the loop makes at most [length projectTasks]
    iterations, so that the fuel is enough ([processLoop_returns] below). *)
Definition run (today : Z) (project : Project) (h0 : Heap)
    (projectTasks : list loc) (allUsers : list User)
    (existingGlobalTasks : list loc) : outcome State :=
  bind (initState today project h0 projectTasks allUsers existingGlobalTasks)
       (processLoop (length projectTasks) project allUsers).

(** [scheduleProject]: the returned object, and the store the call leaves. *)
Definition scheduleProject (today : Z) (project : Project) (h0 : Heap)
    (projectTasks : list loc) (allUsers : list User)
    (existingGlobalTasks : list loc) : outcome (ScheduleResult * Heap) :=
  bind (run today project h0 projectTasks allUsers existingGlobalTasks)
       (λ s, Ok (mkResult (optimized s) (conflictLog s) ∅, heap s)).
End engine.

(** ** Time zones *)

(** UTC: local time is UTC. *)
Definition utc : TimeZone := mkTimeZone (λ _, 0) (λ _, 0).

(** Europe/Madrid around the start of summer time of 2024: one hour ahead
    of UTC until 2024-03-31 (day 19813) at 01:00 UTC, two hours from then
    on.  The local times from 02:00 to 03:00 of that day do not exist and
    are read with the offset before the change. *)
Definition madrid : TimeZone :=
  mkTimeZone
    (λ t, if t <? 19813 * msPerDay + 3600000 then 3600000 else 7200000)
    (λ l, if l <? 19813 * msPerDay + 10800000 then 3600000 else 7200000).

(** Africa/Windhoek around the end of summer time of 2017: two hours ahead
    of UTC until 2017-04-02 (day 17258) at 00:00 UTC, one hour from then on.
    The local times from 01:00 to 02:00 of that day occur twice and are read
    with the offset before the change. *)
Definition windhoek : TimeZone :=
  mkTimeZone
    (λ t, if t <? 17258 * msPerDay then 7200000 else 3600000)
    (λ l, if l <? 17258 * msPerDay + 7200000 then 7200000 else 3600000).

(** ** Scenarios *)

Module Scenario.
(** The scenario of the specification: project P, T1 (2 days, critical),
    T2 (3 days, after T1 and after an id that is not in the project, needs
    an electrician), users U1 (electrician) and U2. *)
Definition P := mkProject "P" 0.
Definition T1 := mkTask "T1" "P" "Foundations" (Some []) 7 2 None None Critica.
Definition T2 := mkTask "T2" "P" "Wiring" (Some ["T1"; "T0"]%string) 7 3 None
                   (Some "Electrician"%string) Media.
Definition U1 := mkUser "U1" ["Electrician"%string] "Staff".
Definition U2 := mkUser "U2" [] "Staff".
Definition store : Heap := [T1; T2].
Definition refs : list loc := [0; 1]%nat.
Definition rank (i : string) : nat := if bool_decide (i = "T1"%string) then 0 else 1.

(** Two wiring jobs assigned to an id that is not in the roster, and a
    roster whose only electrician has the empty string as id. *)
Definition Ghost := mkUser EmptyString ["Electrician"%string] "Staff".
Definition W1 := mkTask "W1" "P" "Wiring 1" None 0 2 (Some "bob"%string)
                   (Some "Electrician"%string) Media.
Definition W2 := mkTask "W2" "P" "Wiring 2" None 0 2 (Some "bob"%string)
                   (Some "Electrician"%string) Media.
Definition wiring : Heap := [W1; W2].
Definition wiringRefs : list loc := [0; 1]%nat.

(** The first iteration on the wiring jobs, for a roster [users], in UTC;
    no date is computed before the loop, which starts from the state
    [wiringInit]. *)
Definition wiringInit (users : list User) : State :=
  loopEntry wiring wiringRefs (fold_left (seedUser 0) users ∅).
Definition wiringNext (users : list User) : State :=
  match processTask (zone := utc) P users (wiringInit users) "W1" ["W2"%string] with
  | Ok s => s
  | _ => wiringInit users
  end.

(** A chain A <- B <- C in which B has a negative duration. *)
Definition A := mkTask "A" "P" "a" None 0 5 None None Media.
Definition B := mkTask "B" "P" "b" (Some ["A"%string]) 0 (-10) None None Media.
Definition C := mkTask "C" "P" "c" (Some ["B"%string]) 0 1 None None Media.
Definition chainRefs : list loc := [0; 1; 2]%nat.
Definition chainRank (i : string) : nat :=
  if bool_decide (i = "A"%string) then 0
  else if bool_decide (i = "B"%string) then 1 else 2.

(** The same chain with a B that lasts three days. *)
Definition B3 := mkTask "B" "P" "b" (Some ["A"%string]) 0 3 None None Media.
Definition relay : Heap := [A; B3; C].

(** Two tasks with the same id D, both assigned to "u", and an urgent task
    that depends on D. *)
Definition D1 := mkTask "D" "P" "d1" None 0 2 (Some "u"%string) None Baja.
Definition D2 := mkTask "D" "P" "d2" None 0 2 (Some "u"%string) None Baja.
Definition E := mkTask "E" "P" "e" (Some ["D"%string]) 0 1 None None Critica.

(** A task, and two tasks with the same id that depend on it. *)
Definition F1 := mkTask "F" "P" "f1" (Some ["A"%string]) 0 1 None None Media.
Definition F2 := mkTask "F" "P" "f2" (Some ["A"%string]) 0 1 None None Media.
Definition fork : Heap := [A; F1; F2].

(** Two tasks with the same id A, and a cycle between X and Y, where X also
    depends on A. *)
Definition X := mkTask "X" "P" "x" (Some ["A"; "Y"]%string) 0 1 None None Media.
Definition Y := mkTask "Y" "P" "y" (Some ["X"%string]) 0 1 None None Media.

(** A task that nothing blocks, and a cycle between X and Y. *)
Definition loop : Heap := [A; X; Y].

(** A task whose duration is not a number, and a task that depends on
    it. *)
Definition N := mkTask "N" "P" "n" None 0 NaN None None Media.
Definition M := mkTask "M" "P" "m" (Some ["N"%string]) 0 1 None None Media.
Definition blank : Heap := [N; M].

(** A task that lasts longer than the range of dates, and a task that
    depends on it. *)
Definition L := mkTask "L" "P" "l" None 0 200000001 None None Media.
Definition K := mkTask "K" "P" "k" (Some ["L"%string]) 0 1 None None Media.
Definition long : Heap := [L; K].

Definition S := mkTask "S" "P" "s" None 19812 2 None None Media.


Definition Q := mkTask "Q" "P" "q" None 17257 1 None None Media.
Definition R := mkTask "R" "P" "r" (Some ["Q"%string]) 17257 0 None None Media.
End Scenario.

(** ** Vocabulary of the properties *)

(** A duration that is a number of at least [k] days, and one that is not a
    negative number. *)
Definition atLeast (k : Z) (x : number) : Prop :=
  match x with
  | Finite n => k ≤ n
  | NaN => False
  end.

Definition notNegative (x : number) : Prop :=
  match x with
  | Finite n => 0 ≤ n
  | NaN => True
  end.

(** A duration that is a number between [- D] and [D]. *)
Definition within (D : Z) (x : number) : Prop :=
  match x with
  | Finite n => - D ≤ n ≤ D
  | NaN => False
  end.

#[global] Instance atLeast_dec k x : Decision (atLeast k x).
Proof. destruct x; simpl; apply _. Defined.

#[global] Instance notNegative_dec x : Decision (notNegative x).
Proof. destruct x; simpl; apply _. Defined.

#[global] Instance within_dec D x : Decision (within D x).
Proof. destruct x; simpl; apply _. Defined.

(** Order of two elements by an integer key. *)
Definition keyLe {A} (key : A → Z) (a b : A) : Prop := key a ≤ key b.

Section vocabulary.
Context {zone : TimeZone}.

(** One iteration of the process loop, and the states a call goes through. *)
Definition step (project : Project) (allUsers : list User) (s s' : State) : Prop :=
  ∃ taskId rest,
    queue s = taskId :: rest ∧ processTask project allUsers s taskId rest = Ok s'.

Definition reachable (today : Z) (project : Project) (h0 : Heap)
    (projectTasks : list loc) (allUsers : list User)
    (existingGlobalTasks : list loc) (s : State) : Prop :=
  ∃ s0,
    initState today project h0 projectTasks allUsers existingGlobalTasks = Ok s0
    ∧ rtc (step project allUsers) s0 s.

(** [t] is [t0] up to the two fields the engine writes. *)
Definition sameStatic (t0 t : Task) : Prop :=
  t = scheduled t0 (startDate t) (assignedTo t).

(** Ids of the tasks pushed on [optimizedTasks] so far, in order. *)
Definition doneIds (s : State) : list string :=
  tid <$> derefs (heap s) (optimized s).

(** Number of ids whose in-degree is still positive. *)
Definition posCount (deg : gmap string Z) : nat :=
  size (filter (λ kv : string * Z, 0 < kv.2) deg).

(** Closed forms of the two maps built by the second [forEach]: the
    successors of [d] (one copy of a dependent task per occurrence of [d] in
    its dependencies, in the order of the tasks), and the dependencies of a
    task that are keys of [taskMap]. *)
Definition presentDeps (tm : gmap string loc) (t : Task) : list string :=
  filter (λ x, is_Some (tm !! x)) (depsOf t).

Definition outOf (tm : gmap string loc) (ts : list Task) (d : string) : list string :=
  flat_map (λ t, (λ _, tid t) <$> filter (λ x, x = d ∧ is_Some (tm !! x)) (depsOf t)) ts.

Definition degOf (tm : gmap string loc) (ts : list Task) (i : string) : Z :=
  Z.of_nat (length (flat_map (λ t, if decide (tid t = i) then presentDeps tm t else []) ts)).

(** Shape of the state of a call on the caller's store [h0] and the tasks
    [ts] it passed. *)
Record wf (h0 : Heap) (ts : list Task) (s : State) : Prop := mkWf {
  wf_frame : take (length h0) (heap s) = h0;
  wf_length : length (heap s) = (length h0 + length ts)%nat;
  wf_taskMap : ∀ i l, taskMap s !! i = Some l →
    (length h0 ≤ l)%nat ∧ ∃ t, heap s !! l = Some t ∧ tid t = i;
  wf_clone : ∀ l t, (length h0 ≤ l)%nat → heap s !! l = Some t →
    ∃ t0, t0 ∈ ts ∧ sameStatic t0 t;
  wf_queue : ∀ i, i ∈ queue s → is_Some (taskMap s !! i);
  wf_known : ∀ t, t ∈ ts → is_Some (taskMap s !! tid t);
  wf_outgoing : ∀ d,
    outgoingEdges s !! d = (λ _, outOf (taskMap s) ts d) <$> taskMap s !! d;
  wf_optimized : Forall (λ l, ∃ i, taskMap s !! i = Some l) (optimized s);
  wf_measure :
    (length (queue s) + posCount (incomingDegree s) + length (optimized s)
     ≤ length ts)%nat
}.

(** Number of dependencies of [t] that are keys of [taskMap] and whose task
    has not been processed yet. *)
Definition pending (tm : gmap string loc) (done : list string) (t : Task) : Z :=
  Z.of_nat (length (filter (λ d, d ∉ done) (presentDeps tm t))).

(** [a] occurs before [b] in [l]. *)
Definition before {A} (l : list A) (a b : A) : Prop :=
  ∃ i j, l !! i = Some a ∧ l !! j = Some b ∧ (i < j)%nat.

(** Number of edges from [x] to task [t] in the graph. *)
Definition edgeCount (tm : gmap string loc) (x : string) (t : Task) : nat :=
  length (filter (λ y, y = x ∧ is_Some (tm !! y)) (depsOf t)).

(** Task [t] enters the queue when the successors of [x] are released from
    the in-degrees [deg]. *)
Definition releasedBy (tm : gmap string loc) (deg : gmap string Z) (x : string)
    (t : Task) : Prop :=
  1 ≤ default 0 (deg !! tid t) ≤ Z.of_nat (edgeCount tm x t).

#[global] Instance releasedBy_dec tm deg x t : Decision (releasedBy tm deg x t).
Proof. unfold releasedBy. apply _. Defined.

(** Successive [queue.push(n); queue.sort(...)]. *)
Definition pushAll (tm : gmap string loc) (h : Heap) (q ns : list string) : list string :=
  fold_left (λ q n, sortQueue tm h (q ++ [n])) ns q.

(** The key by which the ready queue is kept sorted. *)
Definition queueKey (tm : gmap string loc) (h : Heap) (i : string) : Z :=
  - weightOf tm h i.

(** The end date of a task as the engine computes it, [addDays(startDate,
    duration)], when that call returns.  In a zone of constant offset it is
    [startDate + duration], the day after the last day the task occupies;
    not so in every zone. *)
Definition endDate (t : Task) : option Z := addDays (startDate t) (duration t).

(** The task has an end date, which is not after [d]. *)
Definition endsBy (t : Task) (d : Z) : Prop :=
  ∃ e, endDate t = Some e ∧ e ≤ d.

(** Adding a number of days that is not negative never gives an earlier
    date. *)
Definition forward : Prop :=
  ∀ d n e, 0 ≤ n → addDays d (Finite n) = Some e → d ≤ e.

(** The offsets of the zone are of one day at most. *)
Definition boundedOffset : Prop :=
  ∀ x, - msPerDay ≤ offsetAt x ≤ msPerDay
       ∧ - msPerDay ≤ offsetOfLocal x ≤ msPerDay.

(** The dates and the durations of a call keep away from the limits of the
    range of dates: the durations are numbers between [- D] and [D], the
    dates lie between [lo] and [hi], and there is room below [lo] for one
    computed date and above [hi] for those of every task. *)
Definition datesInRange (lo hi D : Z) (today : Z) (project : Project)
    (ts others : list Task) : Prop :=
  0 ≤ D
  ∧ -100000000 ≤ lo - (D + 2)
  ∧ hi + (2 * Z.of_nat (length ts) + 1) * (D + 2) ≤ 100000000
  ∧ lo ≤ today ≤ hi
  ∧ lo ≤ pStartDate project ≤ hi
  ∧ ∀ t, t ∈ ts ++ others → lo ≤ startDate t ≤ hi ∧ within D (duration t).

(** The clones start between [lo] and [b], their durations are between
    [- D] and [D], and the next-free dates are at most one computed date
    away from these bounds. *)
Definition ranged (lo b D : Z) (h0 : Heap) (s : State) : Prop :=
  (∀ l t, (length h0 ≤ l)%nat → heap s !! l = Some t →
     lo ≤ startDate t ≤ b ∧ within D (duration t))
  ∧ (∀ a e, userAvailability s !! a = Some e →
       lo - (D + 2) ≤ e ≤ b + (D + 2)).


(** The topological discipline of the loop, for tasks with pairwise
    distinct ids: what the queue, the in-degrees and the processed tasks
    satisfy in every state of a call. *)
Record topo (project : Project) (ts : list Task) (s : State) : Prop := mkTopo {
  topo_nodup : NoDup (queue s ++ doneIds s);
  topo_deg : ∀ t, t ∈ ts →
    incomingDegree s !! tid t = Some (pending (taskMap s) (doneIds s) t);
  topo_ready : ∀ t, t ∈ ts →
    pending (taskMap s) (doneIds s) t = 0 ↔ tid t ∈ queue s ++ doneIds s;
  topo_sorted : StronglySorted (keyLe (queueKey (taskMap s) (heap s))) (queue s);
  topo_order : ∀ j t, t ∈ ts → doneIds s !! j = Some (tid t) →
    ∀ d, d ∈ presentDeps (taskMap s) t →
    ∃ i, (i < j)%nat ∧ doneIds s !! i = Some d;
  topo_dates : ∀ t c, t ∈ ts → tid t ∈ doneIds s →
    getTask (taskMap s) (heap s) (tid t) = Some c →
    pStartDate project ≤ startDate c
    ∧ ∀ d cd, d ∈ presentDeps (taskMap s) t →
        getTask (taskMap s) (heap s) d = Some cd →
        endsBy cd (startDate c)
}.

(** The dependency graph restricted to the tasks passed in: [depEdge ts a b]
    when the task of id [b] lists [a] among its dependencies and [a] is the
    id of a task of [ts]. *)
Definition depEdge (ts : list Task) (a b : string) : Prop :=
  ∃ t, t ∈ ts ∧ tid t = b ∧ a ∈ depsOf t ∧ a ∈ tid <$> ts.

Definition acyclic (ts : list Task) : Prop := ∀ x, ¬ tc (depEdge ts) x x.

(** A path of a relation, as the list of its vertices. *)
Inductive path {A} (R : A → A → Prop) : list A → Prop :=
  | path_one x : path R [x]
  | path_cons y x c : R y x → path R (x :: c) → path R (y :: x :: c).

(** ** The claims that the engine does not meet as they are worded *)

(** The end date in the words of the specification, [startDate + duration]. *)
Definition startEnd (t : Task) : option Z :=
  match duration t with
  | Finite n => Some (startDate t + n)
  | NaN => None
  end.


(** Completeness on acyclic inputs: the call returns as many tasks as it
    was given, with the ids of the input, each once. *)
Definition claim_completeness (today : Z) (project : Project) (h0 : Heap)
    (projectTasks : list loc) (allUsers : list User)
    (existingGlobalTasks : list loc) : Prop :=
  let ts := derefs h0 projectTasks in
  acyclic ts →
  ∃ r h',
    scheduleProject today project h0 projectTasks allUsers existingGlobalTasks
    = Ok (r, h')
    ∧ length (optimizedTasks r) = length ts
    ∧ NoDup (tid <$> derefs h' (optimizedTasks r))
    ∧ ∀ i, i ∈ tid <$> derefs h' (optimizedTasks r) ↔ i ∈ tid <$> ts.


(** ** Staffing conflicts *)

(** The users that satisfy a required specialty, in the order of the roster. *)
Definition capable (allUsers : list User) (specialtyNeeded : string) : list User :=
  List.filter (satisfies specialtyNeeded) allUsers.

(** The entries of [conflicts] that a task accounts for. *)
Definition conflictOf (allUsers : list User) (t : Task) : list string :=
  if truthy (requiredSpecialty t) then
    match capable allUsers (default EmptyString (requiredSpecialty t)) with
    | [] => [conflictMessage (default EmptyString (requiredSpecialty t)) (name t)]
    | _ :: _ => []
    end
  else [].

Definition mentions (msg part : string) : Prop :=
  ∃ pre post, msg = (pre +:+ part +:+ post)%string.

(** A clone whose required specialty nobody has keeps the assignee of the
    task it was cloned from. *)
Definition keepsAssignee (allUsers : list User) (h0 : Heap) (ts : list Task)
    (s : State) : Prop :=
  ∀ l t, (length h0 ≤ l)%nat → heap s !! l = Some t →
    ∃ t0, t0 ∈ ts ∧ sameStatic t0 t
          ∧ (conflictOf allUsers t0 ≠ [] → assignedTo t = assignedTo t0).

(** ** The assignment rule *)

(** The condition under which the source keeps the current assignee: that
    user is one of the candidates and is free by the dependency floor. *)
Definition keepsCurrent (allUsers : list User) (av : gmap string Z) (task : Task)
    (floor : Z) (specialtyNeeded : string) : Prop :=
  (∃ c, c ∈ capable allUsers specialtyNeeded ∧ Some (uid c) = assignedTo task)
  ∧ availOf av (default EmptyString (assignedTo task)) ≤ floor.

(** C5 as it is worded: a task whose specialty has candidates keeps its
    assignee under [keepsCurrent] and is otherwise assigned to the first
    candidate of the sorted list. *)
Definition claim_assignment_rule (today : Z) (project : Project) (h0 : Heap)
    (projectTasks : list loc) (allUsers : list User)
    (existingGlobalTasks : list loc) : Prop :=
  ∀ s s', reachable today project h0 projectTasks allUsers existingGlobalTasks s →
    step project allUsers s s' →
    ∀ i rest l task x c0 cs task',
      queue s = i :: rest → taskMap s !! i = Some l → heap s !! l = Some task →
      requiredSpecialty task = Some x → x ≠ EmptyString →
      candidatesFor allUsers (userAvailability s) x = c0 :: cs →
      heap s' !! l = Some task' →
      ∀ floor,
        dependencyEarliestStart project (taskMap s) (heap s) task = Some floor →
        (keepsCurrent allUsers (userAvailability s) task floor x →
         assignedTo task' = assignedTo task)
        ∧ (¬ keepsCurrent allUsers (userAvailability s) task floor x →
           assignedTo task' = Some (uid c0)).

(** ** Serialization of a user's tasks *)



(** C2 as it is worded: with durations of at least one day, two distinct
    returned tasks of one assignee do not overlap. *)
Definition claim_no_overlap (today : Z) (project : Project) (h0 : Heap)
    (projectTasks : list loc) (allUsers : list User)
    (existingGlobalTasks : list loc) : Prop :=
  (∀ t, t ∈ derefs h0 projectTasks → atLeast 1 (duration t)) →
  ∀ r h',
    scheduleProject today project h0 projectTasks allUsers existingGlobalTasks
    = Ok (r, h') →
    ∀ l1 l2 t1 t2 u, l1 ∈ optimizedTasks r → l2 ∈ optimizedTasks r → l1 ≠ l2 →
      h' !! l1 = Some t1 → h' !! l2 = Some t2 →
      assignedTo t1 = Some u → assignedTo t2 = Some u → u ≠ EmptyString →
      (∃ e, startEnd t1 = Some e ∧ e ≤ startDate t2)
      ∨ (∃ e, startEnd t2 = Some e ∧ e ≤ startDate t1).

(** ** Determinism *)

(** C9 as it is worded: the result depends on the four arguments only, so
    two calls return the same whatever the date on which they are made. *)
Definition claim_deterministic (project : Project) (h0 : Heap)
    (projectTasks : list loc) (allUsers : list User)
    (existingGlobalTasks : list loc) : Prop :=
  ∀ today1 today2,
    scheduleProject today1 project h0 projectTasks allUsers existingGlobalTasks
    = scheduleProject today2 project h0 projectTasks allUsers existingGlobalTasks.


(** ** Resource leveling *)

(** The end dates of the tasks of other projects that are assigned to [a]
    ([None] when one of them has no end date), and the latest of a date and
    a list of dates. *)
Definition commitments (project : Project) (others : list Task) (a : string)
    : option (list Z) :=
  mapM endDate
    (filter (λ t, projectId t ≠ pid project ∧ assignedTo t = Some a) others).

Definition latest (d : Z) (ends : list Z) : Z := foldr Z.max d ends.

(** ** Start dates and next-free dates *)


(** ** Where an assignee comes from *)

(** The assignee of [t] is the assignee of the input task [t0], or a user
    of the roster who satisfies the specialty that [t0] requires. *)
Definition assigneeFrom (allUsers : list User) (t0 t : Task) : Prop :=
  assignedTo t = assignedTo t0
  ∨ ∃ x u, requiredSpecialty t0 = Some x ∧ x ≠ EmptyString ∧ u ∈ allUsers
           ∧ (x ∈ specialties u ∨ role u = x) ∧ uid u ≠ EmptyString
           ∧ assignedTo t = Some (uid u).

Definition provenance (allUsers : list User) (h0 : Heap) (ts : list Task)
    (s : State) : Prop :=
  ∀ l t, (length h0 ≤ l)%nat → heap s !! l = Some t →
    ∃ t0, t0 ∈ ts ∧ sameStatic t0 t ∧ assigneeFrom allUsers t0 t.

End vocabulary.

(** A second project: a store with the two wiring jobs and a job of another
    project that keeps U1 busy until day 14. *)
Module Leveling.
Definition G := mkTask "G" "Q" "Other site" None 10 4 (Some "U1"%string) None Alta.
Definition store : Heap := [Scenario.W1; Scenario.W2; G].
Definition refs : list loc := [0; 1]%nat.
Definition others : list loc := [2]%nat.
Definition users : list User := [Scenario.U1; Scenario.U2].
End Leveling.

Section schedules.
Context {zone : TimeZone}.

(** ** The dependency graph and the first ready queue, from the input *)

(** The task an id stands for: [taskMap.set] overwrites, so the last task of
    the array with that id. *)
Definition taskOf (ts : list Task) (i : string) : option Task :=
  last (filter (λ t, tid t = i) ts).

(** The successors of [d]: the id of a task once for every occurrence of [d]
    in its dependencies, in the order of the array. *)
Definition dependents (ts : list Task) (d : string) : list string :=
  flat_map (λ t, (λ _, tid t) <$> filter (λ x, x = d) (depsOf t)) ts.

(** The number of dependency entries, over the tasks of id [i], that name a
    task of the array. *)
Definition inDegree (ts : list Task) (i : string) : Z :=
  Z.of_nat (length (flat_map (λ t, if decide (tid t = i)
                                   then filter (λ x, x ∈ tid <$> ts) (depsOf t)
                                   else []) ts)).

Definition weightIn (ts : list Task) (i : string) : Z :=
  from_option (λ t, priorityWeight (priority t)) 0 (taskOf ts i).

Definition ready (ts : list Task) : list string :=
  filter (λ i, inDegree ts i = 0) (tid <$> ts).

(** ** Earliest start *)

(** The tasks pushed on [optimizedTasks] so far. *)
Definition outs (s : State) : list Task := derefs (heap s) (optimized s).

(** The dependency floor of a task, read off a schedule: the latest of the
    project's start date and of the end dates of the scheduled tasks that
    the task lists as dependencies. *)
Definition floorOf (project : Project) (out : list Task) (c : Task) : option Z :=
  latest (pStartDate project) <$> mapM endDate (filter (λ a, tid a ∈ depsOf c) out).

(** The task at position [j] of a schedule starts at its floor, or at the
    next-free date [av0] gave its assignee, or at the end of an earlier task
    of the schedule with the same assignee; and at its floor when it has no
    assignee. *)
Definition startsAt (project : Project) (av0 : gmap string Z)
    (out : list Task) (j : nat) (c : Task) : Prop :=
  ∃ floor, floorOf project out c = Some floor
  ∧ floor ≤ startDate c
  ∧ (truthy (assignedTo c) = false → startDate c = floor)
  ∧ (startDate c = floor
     ∨ (∃ a, assignedTo c = Some a ∧ a ≠ EmptyString
             ∧ av0 !! a = Some (startDate c))
     ∨ (∃ i t, (i < j)%nat ∧ out !! i = Some t
               ∧ assignedTo t = assignedTo c
               ∧ endDate t = Some (startDate c))).

Definition justified (project : Project) (av0 : gmap string Z) (s : State) : Prop :=
  (∀ a e, userAvailability s !! a = Some e →
     av0 !! a = Some e
     ∨ ∃ i t, outs s !! i = Some t ∧ assignedTo t = Some a
              ∧ endDate t = Some e)
  ∧ ∀ j c, outs s !! j = Some c → startsAt project av0 (outs s) j c.

(** ** Rescheduling a schedule *)

(** The comparator of the two sorts of the queue, and its key, from the
    priorities of the input. *)
Definition wcmp (ts : list Task) (a b : string) : Z := weightIn ts b - weightIn ts a.
Definition wkey (ts : list Task) (i : string) : Z := - weightIn ts i.

(** In the order in which the loop takes the tasks, [y] comes before [x]:
    [y] has been processed, and [x] after it or not yet; or [y] waits in the
    queue, ahead of [x] if [x] is there too, and [x] has not been
    processed. *)
Definition precedes (s : State) (y x : string) : Prop :=
  (y ∈ doneIds s ∧ (x ∈ doneIds s → before (doneIds s) y x))
  ∨ (y ∈ queue s ∧ (x ∉ doneIds s) ∧ (x ∈ queue s → before (queue s) y x)).

(** A state [s2] of the call on the schedule that a first call returned,
    against the state [s1] of the first call after the same number of
    iterations; [sf] is the final state of the first call. *)
Record sim (sf s1 s2 : State) : Prop := mkSim {
  sim_queue : queue s2 = queue s1;
  sim_outs : outs s2 = outs s1;
  sim_avail : userAvailability s2 = userAvailability s1;
  sim_log : conflictLog s2 = conflictLog s1;
  sim_input : ∀ i, i ∈ doneIds sf → i ∉ doneIds s1 →
    getTask (taskMap s2) (heap s2) i = getTask (taskMap sf) (heap sf) i
}.

(** ** The caller: [handleAutoSchedule] of [components/EnterpriseManagement.tsx] *)

(** The handler reads the tasks and the projects of the application state
    and the id of the selected project.  It calls the engine on the project
    with that id, the tasks of that project and, for the availability, the
    tasks of the other projects; what it does with the result (counting the
    changes, saving the tasks, messages) is not modelled. *)
Definition taskHolds (h : Heap) (P : Task → bool) (l : loc) : bool :=
  match h !! l with
  | Some t => P t
  | None => false
  end.

Definition currentProject (projects : list Project) (selectedProjectId : string)
    : option Project :=
  List.find (λ p, bool_decide (pid p = selectedProjectId)) projects.

Definition rawProjectTasks (h : Heap) (tasks : list loc)
    (selectedProjectId : string) : list loc :=
  List.filter (taskHolds h (λ t, bool_decide (projectId t = selectedProjectId)))
    tasks.

Definition otherTasks (h : Heap) (tasks : list loc) (project : Project)
    : list loc :=
  List.filter (taskHolds h (λ t, bool_decide (projectId t ≠ pid project))) tasks.

(** The call of the engine that the handler makes.  The handler returns at
    once, without a call ([None]), when no project has the selected id, and
    when the user does not confirm the dialog: [confirmed] is the answer
    that [confirm] returns. *)
Definition handleAutoSchedule (today : Z) (h : Heap) (projects : list Project)
    (tasks : list loc) (users : list User) (selectedProjectId : string)
    (confirmed : bool) : option (outcome (ScheduleResult * Heap)) :=
  match currentProject projects selectedProjectId with
  | Some project =>
      if confirmed then
        Some (scheduleProject today project h
                (rawProjectTasks h tasks selectedProjectId) users
                (otherTasks h tasks project))
      else None
  | None => None
  end.
End schedules.

Module Portfolio.
Definition Q := mkProject "Q" 3.
Definition projects : list Project := [Q; Scenario.P].
Definition tasks : list loc := [0; 1; 2]%nat.
End Portfolio.
(** * Properties *)

Section proofs.
Context {zone : TimeZone}.

(** ** The stable sort *)

Section sortBy_key.
Context {A : Type} (key : A → Z) (cmp : A → A → Z).
Hypothesis cmp_key : ∀ a b, cmp a b = key a - key b.

Local Abbreviation keyLe := (keyLe key).

Lemma insertBy_Permutation x l : insertBy cmp x l ≡ₚ x :: l.
  Proof.
    induction l as [|y l IH]; simpl; [done|].
    destruct (cmp y x <? 0); [|done].
    rewrite IH. apply Permutation_swap.
  Qed.

Lemma sortBy_Permutation l : sortBy cmp l ≡ₚ l.
  Proof.
    induction l as [|x l IH]; simpl; [done|].
    rewrite insertBy_Permutation. by f_equiv.
  Qed.

Lemma elem_of_sortBy x l : x ∈ sortBy cmp l ↔ x ∈ l.
  Proof. by rewrite sortBy_Permutation. Qed.

Lemma sortBy_length l : length (sortBy cmp l) = length l.
  Proof. by rewrite sortBy_Permutation. Qed.

Lemma NoDup_sortBy l : NoDup (sortBy cmp l) ↔ NoDup l.
  Proof. by rewrite sortBy_Permutation. Qed.

Lemma insertBy_sorted x l :
    StronglySorted keyLe l → StronglySorted keyLe (insertBy cmp x l).
  Proof.
    induction 1 as [|y l Hs IH Hy]; simpl.
    - repeat constructor.
    - rewrite cmp_key. destruct (Z.ltb_spec (key y - key x) 0) as [Hlt|Hge].
      + constructor; [done|].
        rewrite Forall_forall. intros z Hz.
        rewrite insertBy_Permutation in Hz. apply elem_of_cons in Hz as [->|Hz].
        * unfold keyLe. lia.
        * rewrite Forall_forall in Hy. by apply Hy.
      + constructor; [by constructor|].
        constructor; [unfold keyLe; lia|].
        eapply Forall_impl; [exact Hy|]. unfold keyLe. intros z ?. lia.
  Qed.

Lemma sortBy_sorted l : StronglySorted keyLe (sortBy cmp l).
  Proof.
    induction l as [|x l IH]; simpl; [constructor|]. by apply insertBy_sorted.
  Qed.

Lemma insertBy_class x l c :
    filter (λ a, key a = c) (insertBy cmp x l) = filter (λ a, key a = c) (x :: l).
  Proof.
    induction l as [|y l IH]; simpl; [done|].
    rewrite cmp_key. destruct (Z.ltb_spec (key y - key x) 0) as [Hlt|Hge]; [|done].
    rewrite filter_cons, IH, !filter_cons.
    destruct (decide (key y = c)), (decide (key x = c)); try done; lia.
  Qed.

  (** Stability: the elements of one key keep their order. *)
Lemma sortBy_class l c :
    filter (λ a, key a = c) (sortBy cmp l) = filter (λ a, key a = c) l.
  Proof.
    induction l as [|x l IH]; simpl; [done|].
    by rewrite insertBy_class, !filter_cons, IH.
  Qed.

Lemma insertBy_head x l :
    Forall (keyLe x) l → insertBy cmp x l = x :: l.
  Proof.
    destruct 1 as [|y l Hy _]; simpl; [done|].
    rewrite cmp_key. unfold keyLe in Hy.
    by destruct (Z.ltb_spec (key y - key x) 0); [lia|].
  Qed.

Lemma sortBy_sorted_id l : StronglySorted keyLe l → sortBy cmp l = l.
  Proof.
    induction 1 as [|x l Hs IH Hx]; simpl; [done|].
    rewrite IH. by apply insertBy_head.
  Qed.

  (** A sorted list is determined by its classes. *)
Lemma sorted_classes_eq l1 l2 :
    StronglySorted keyLe l1 → StronglySorted keyLe l2 →
    (∀ c, filter (λ a, key a = c) l1 = filter (λ a, key a = c) l2) →
    l1 = l2.
  Proof.
    intros Hs1. revert l2.
    induction Hs1 as [|x l1 Hs1 IH Hx]; intros l2 Hs2 Hc.
    - destruct l2 as [|y l2]; [done|].
      specialize (Hc (key y)). rewrite filter_cons_True in Hc by done. done.
    - destruct Hs2 as [|y l2 Hs2 Hy].
      + specialize (Hc (key x)). rewrite filter_cons_True in Hc by done. done.
      + assert (key x = key y) as Hk.
        { assert (x ∈ y :: l2) as Hx2.
          { assert (x ∈ filter (λ a, key a = key x) (y :: l2)) as Hin
              by (rewrite <-Hc, filter_cons_True by done; left).
            by apply list_elem_of_filter in Hin as [_ ?]. }
          assert (y ∈ x :: l1) as Hy1.
          { assert (y ∈ filter (λ a, key a = key y) (x :: l1)) as Hin
              by (rewrite Hc, filter_cons_True by done; left).
            by apply list_elem_of_filter in Hin as [_ ?]. }
          rewrite Forall_forall in Hx, Hy. unfold keyLe in Hx, Hy.
          apply elem_of_cons in Hx2 as [->|Hx2]; [done|].
          apply elem_of_cons in Hy1 as [->|Hy1]; [done|].
          specialize (Hx _ Hy1). specialize (Hy _ Hx2). lia. }
        pose proof (Hc (key x)) as Hcx.
        rewrite filter_cons_True in Hcx by done.
        rewrite filter_cons_True in Hcx by done.
        injection Hcx as -> Hcx. f_equal. apply IH; [done|].
        intros c. specialize (Hc c). rewrite !filter_cons in Hc.
        destruct (decide (key y = c)); [by injection Hc|done].
  Qed.

Lemma sortBy_classes_eq l1 l2 :
    (∀ c, filter (λ a, key a = c) l1 = filter (λ a, key a = c) l2) →
    sortBy cmp l1 = sortBy cmp l2.
  Proof.
    intros Hc. apply sorted_classes_eq; [apply sortBy_sorted..|].
    intros c. by rewrite !sortBy_class.
  Qed.

Lemma sortBy_app_sortBy l k : sortBy cmp (sortBy cmp l ++ k) = sortBy cmp (l ++ k).
  Proof.
    apply sortBy_classes_eq. intros c. by rewrite !filter_app, sortBy_class.
  Qed.

  (** Pushing at the end of a sorted list and sorting again inserts the
      new element and moves nothing else. *)
Lemma sortBy_snoc l x :
    StronglySorted keyLe l →
    ∃ l1 l2, l = l1 ++ l2 ∧ sortBy cmp (l ++ [x]) = l1 ++ x :: l2.
  Proof.
    induction 1 as [|y l Hs IH Hy]; simpl.
    - by exists [], [].
    - destruct IH as (l1 & l2 & -> & ->).
      destruct l1 as [|z l1]; simpl.
      + rewrite cmp_key. destruct (Z.ltb_spec (key x - key y) 0).
        * exists [], (y :: l2). split; [done|]. simpl.
          by rewrite insertBy_head.
        * by exists [y], l2.
      + exists (y :: z :: l1), l2. split; [done|].
        rewrite cmp_key. apply Forall_cons in Hy as [Hyz _]. unfold keyLe in Hyz.
        by destruct (Z.ltb_spec (key z - key y) 0); [lia|].
  Qed.

(** The head of the sorted list is the first of the smallest elements. *)
Lemma sortBy_head l x l' :
  sortBy cmp l = x :: l' →
  ∃ pre post, l = pre ++ x :: post
    ∧ Forall (λ y, key x < key y) pre ∧ Forall (λ y, key x ≤ key y) post.
Proof.
  revert x l'. induction l as [|y l IH]; intros x l' Hs; [done|].
  simpl in Hs. destruct (sortBy cmp l) as [|z zs] eqn:Hz.
  - assert (l = []) as -> by (apply length_zero_iff_nil; by rewrite <-sortBy_length, Hz).
    simpl in Hs. injection Hs as <- <-. exists [], []. by repeat constructor.
  - destruct (IH z zs eq_refl) as (pre & post & -> & Hpre & Hpost).
    simpl in Hs. rewrite cmp_key in Hs.
    destruct (Z.ltb_spec (key z - key y) 0) as [Hlt|Hge].
    + injection Hs as <- _. exists (y :: pre), post. split; [done|].
      split; [|done]. constructor; [lia|done].
    + injection Hs as <- _. exists [], (pre ++ z :: post). split; [done|].
      split; [constructor|]. apply Forall_app. split; [|constructor].
      * eapply Forall_impl; [exact Hpre|]. intros u ?. simpl in *. lia.
      * lia.
      * eapply Forall_impl; [exact Hpost|]. intros u ?. simpl in *. lia.
Qed.

Lemma sortBy_snoc_sublist l x :
    StronglySorted keyLe l → l `sublist_of` sortBy cmp (l ++ [x]).
  Proof.
    intros (l1 & l2 & -> & ->)%(sortBy_snoc _ x).
    apply sublist_app; [done|]. by apply sublist_cons.
  Qed.
End sortBy_key.

(** ** Lists *)

Lemma elem_of_flat_map {A B} (f : A → list B) (l : list A) (y : B) :
  y ∈ flat_map f l ↔ ∃ x, x ∈ l ∧ y ∈ f x.
Proof.
  rewrite list_elem_of_In, in_flat_map. split.
  - intros (x & ?%list_elem_of_In & ?%list_elem_of_In). eauto.
  - intros (x & ?%list_elem_of_In & ?%list_elem_of_In). eauto.
Qed.

Lemma size_list_to_set_le (l : list string) :
  (size (list_to_set l : gset string) ≤ length l)%nat.
Proof.
  induction l as [|x l IH]; simpl.
  - done.
  - destruct (decide (x ∈ (list_to_set l : gset string))) as [Hin|Hnin].
    + replace ({[x]} ∪ list_to_set l : gset string) with (list_to_set l : gset string); [lia|].
      apply set_eq. intros y. rewrite elem_of_union, elem_of_singleton.
      split; [by right|intros [->|?]; done].
    + rewrite size_union by set_solver. rewrite size_singleton. lia.
Qed.

Lemma length_filter_complement {A} (P : A → Prop) `{!∀ x, Decision (P x)} (l : list A) :
  (length (filter P l) + length (filter (λ x, ¬ P x) l) = length l)%nat.
Proof. by rewrite <-length_app, filter_app_complement. Qed.

(** ** Graph construction *)

Lemma fold_registerTask_snoc ts t s :
  fold_left registerTask (ts ++ [t]) s = registerTask (fold_left registerTask ts s) t.
Proof. by rewrite fold_left_app. Qed.

Section init_register.
Context (h0 : Heap).
Local Abbreviation s0 := (mkState h0 ∅ ∅ ∅ ∅ [] [] []).

Lemma register_heap ts : heap (fold_left registerTask ts s0) = h0 ++ ts.
Proof.
  induction ts as [|t ts IH] using rev_ind; simpl.
  - by rewrite app_nil_r.
  - rewrite fold_registerTask_snoc. simpl. by rewrite IH, app_assoc.
Qed.

Lemma register_taskMap ts i l :
  taskMap (fold_left registerTask ts s0) !! i = Some l →
  ∃ k t, l = (length h0 + k)%nat ∧ ts !! k = Some t ∧ tid t = i.
Proof.
  revert l. induction ts as [|t ts IH] using rev_ind; intros l; simpl.
  - by rewrite lookup_empty.
  - rewrite fold_registerTask_snoc. simpl. rewrite register_heap.
    destruct (decide (tid t = i)) as [<-|Hne].
    + rewrite lookup_insert_eq. intros [= <-].
      exists (length ts), t. rewrite length_app.
      split; [done|]. split; [|done].
      by rewrite lookup_app_r, Nat.sub_diag.
    + rewrite lookup_insert_ne by done. intros (k & t' & -> & Hk & <-)%IH.
      exists k, t'. split; [done|]. split; [|done].
      by apply lookup_app_l_Some.
Qed.

Lemma register_known ts t :
  t ∈ ts → is_Some (taskMap (fold_left registerTask ts s0) !! tid t).
Proof.
  induction ts as [|t' ts IH] using rev_ind; [by intros ?%elem_of_nil|].
  rewrite fold_registerTask_snoc. simpl. intros Hin.
  destruct (decide (tid t' = tid t)) as [->|Hne].
  - rewrite lookup_insert_eq. eauto.
  - rewrite lookup_insert_ne by done. apply IH.
    apply elem_of_app in Hin as [?|Hin]; [done|].
    apply list_elem_of_singleton in Hin. congruence.
Qed.

Lemma register_out ts :
  outgoingEdges (fold_left registerTask ts s0)
  = (λ _, []) <$> taskMap (fold_left registerTask ts s0).
Proof.
  induction ts as [|t ts IH] using rev_ind; simpl.
  - by rewrite fmap_empty.
  - rewrite fold_registerTask_snoc. simpl. by rewrite fmap_insert, IH.
Qed.

Lemma register_deg ts :
  incomingDegree (fold_left registerTask ts s0)
  = (λ _, 0) <$> taskMap (fold_left registerTask ts s0).
Proof.
  induction ts as [|t ts IH] using rev_ind; simpl.
  - by rewrite fmap_empty.
  - rewrite fold_registerTask_snoc. simpl. by rewrite fmap_insert, IH.
Qed.

Lemma register_rest ts :
  let s := fold_left registerTask ts s0 in
  userAvailability s = ∅ ∧ queue s = [] ∧ optimized s = [] ∧ conflictLog s = [].
Proof.
  induction ts as [|t ts IH] using rev_ind; simpl; [done|].
  rewrite fold_registerTask_snoc. simpl. exact IH.
Qed.
End init_register.

Section init_edges.
Context (tm : gmap string loc).

Lemma addEdge_fold t ds g :
  let g' := fold_left (addEdge tm t) ds g in
  (∀ d, g'.1 !! d
        = (λ o, o ++ ((λ _, tid t) <$> filter (λ x, x = d ∧ is_Some (tm !! x)) ds))
          <$> g.1 !! d)
  ∧ (∀ i, i ≠ tid t → g'.2 !! i = g.2 !! i)
  ∧ (∀ v, g.2 !! tid t = Some v →
       g'.2 !! tid t
       = Some (v + Z.of_nat (length (filter (λ x, is_Some (tm !! x)) ds)))).
Proof.
  induction ds as [|x ds IH] using rev_ind; simpl.
  - split; [|split]; [|done|].
    + intros d. destruct (g.1 !! d); simpl; [|done]. by rewrite app_nil_r.
    + intros v ->. f_equal. lia.
  - rewrite fold_left_app. simpl.
    destruct IH as (IH1 & IH2 & IH3).
    set (g' := fold_left (addEdge tm t) ds g) in *.
    unfold addEdge. destruct (tm !! x) as [lx|] eqn:Hx; simpl.
    + split; [|split].
      * intros d. rewrite filter_app, fmap_app.
        destruct (decide (x = d)) as [->|Hne].
        -- rewrite filter_cons_True by (split; [done|by rewrite Hx]).
           rewrite IH1. destruct (g.1 !! d) as [o|] eqn:Hg; simpl.
           ++ rewrite lookup_insert_eq. simpl. by rewrite <-app_assoc.
           ++ by rewrite IH1, Hg.
        -- rewrite filter_cons_False by (intros [? _]; done).
           simpl. rewrite app_nil_r.
           destruct (g'.1 !! x); [rewrite lookup_insert_ne by done|]; apply IH1.
      * intros i Hi. rewrite lookup_insert_ne by done. by apply IH2.
      * intros v Hv. rewrite lookup_insert_eq, (IH3 v Hv). simpl.
        rewrite filter_app, length_app, filter_cons_True by (by rewrite Hx).
        simpl. f_equal. lia.
    + split; [|split].
      * intros d. rewrite filter_app, filter_cons_False, app_nil_r
          by (intros [_ [? ?]]; congruence). apply IH1.
      * done.
      * intros v Hv. rewrite (IH3 v Hv), filter_app, filter_cons_False, app_nil_r
          by (intros [? ?]; congruence). done.
Qed.

Lemma addEdges_fold ts g :
  (∀ t, t ∈ ts → is_Some (g.2 !! tid t)) →
  let g' := fold_left (addEdges tm) ts g in
  (∀ d, g'.1 !! d = (λ o, o ++ outOf tm ts d) <$> g.1 !! d)
  ∧ (∀ i, g'.2 !! i = (λ v, v + degOf tm ts i) <$> g.2 !! i).
Proof.
  induction ts as [|t ts IH] using rev_ind; intros Hdom; simpl.
  - split; intros i.
    + destruct (g.1 !! i); simpl; [|done]. by rewrite app_nil_r.
    + destruct (g.2 !! i); simpl; [|done]. f_equal. unfold degOf. simpl. lia.
  - rewrite fold_left_app. simpl.
    destruct IH as (IH1 & IH2).
    { intros t' Ht'. apply Hdom, elem_of_app. by left. }
    set (g' := fold_left (addEdges tm) ts g) in *.
    destruct (addEdge_fold t (depsOf t) g') as (E1 & E2 & E3).
    unfold addEdges. split.
    + intros d. rewrite E1, IH1. unfold outOf. rewrite flat_map_app. simpl.
      rewrite app_nil_r. destruct (g.1 !! d); simpl; [|done].
      by rewrite <-app_assoc.
    + intros i. unfold degOf. rewrite flat_map_app, length_app. simpl.
      rewrite app_nil_r. destruct (decide (tid t = i)) as [<-|Hne].
      * destruct (Hdom t) as [v Hv]; [apply elem_of_app; right; left|].
        rewrite (E3 (v + degOf tm ts (tid t))) by (by rewrite IH2, Hv).
        rewrite Hv. simpl. f_equal. unfold degOf, presentDeps. lia.
      * rewrite E2, IH2 by done. destruct (g.2 !! i); simpl; [|done].
        f_equal. unfold degOf. lia.
Qed.
End init_edges.

(** The call on the way to the loop: it has levelled the availability
    map. *)
Lemma initState_Ok today project h0 pts users others s :
  initState today project h0 pts users others = Ok s ↔
  ∃ av, forEachM (levelTask project) (derefs h0 others)
          (fold_left (seedUser today) users ∅) = Some av
        ∧ s = loopEntry h0 pts av.
Proof.
  unfold initState. destruct (forEachM _ _ _) as [av|].
  - split; [intros [= <-]; eauto|]. by intros (? & [= <-] & ->).
  - split; [done|]. by intros (? & ? & _).
Qed.

Lemma initState_cases today project h0 pts users others :
  initState today project h0 pts users others = Throw
  ∨ ∃ s, initState today project h0 pts users others = Ok s.
Proof. unfold initState. destruct (forEachM _ _ _); eauto. Qed.

Lemma init_unfold h0 pts av :
  let ts := derefs h0 pts in
  let tm := taskMap (fold_left registerTask ts (mkState h0 ∅ ∅ ∅ ∅ [] [] [])) in
  let s := loopEntry h0 pts av in
  heap s = h0 ++ ts ∧ taskMap s = tm
  ∧ (∀ d, outgoingEdges s !! d = (λ _, outOf tm ts d) <$> tm !! d)
  ∧ (∀ i, incomingDegree s !! i = (λ _, degOf tm ts i) <$> tm !! i)
  ∧ queue s = sortQueue tm (h0 ++ ts)
                (filter (λ i, default 0 (incomingDegree s !! i) = 0) (tid <$> ts))
  ∧ optimized s = [] ∧ conflictLog s = [] ∧ userAvailability s = av.
Proof.
  intros ts tm s. unfold s, loopEntry, readyQueue, buildGraph. fold ts. simpl.
  rewrite register_heap, register_out, register_deg. fold tm.
  destruct (addEdges_fold tm ts ((λ _, []) <$> tm, (λ _, 0) <$> tm)) as (E1 & E2).
  { intros t Ht. simpl. rewrite lookup_fmap.
    destruct (register_known h0 ts t Ht) as [l Hl]. fold tm in Hl.
    rewrite Hl. simpl. eauto. }
  simpl in E1, E2. repeat split; try done.
  - intros d. rewrite E1, lookup_fmap. by destruct (tm !! d).
  - intros i. rewrite E2, lookup_fmap. by destruct (tm !! i).
Qed.

(** ** The release of successors *)

Lemma queueCmp_key tm h a b :
  queueCmp tm h a b = (λ i, - weightOf tm h i) a - (λ i, - weightOf tm h i) b.
Proof. unfold queueCmp. lia. Qed.

Lemma elem_of_sortQueue tm h q x : x ∈ sortQueue tm h q ↔ x ∈ q.
Proof. apply elem_of_sortBy. Qed.

Lemma sortQueue_length tm h q : length (sortQueue tm h q) = length q.
Proof. apply sortBy_length. Qed.

Lemma posCount_dec deg n :
  default 0 (deg !! n) - 1 = 0 → S (posCount (<[n := 0%Z]> deg)) = posCount deg.
Proof.
  intros Hd. unfold posCount.
  assert (deg !! n = Some 1) as Hn.
  { destruct (deg !! n) as [v|]; simpl in Hd; [f_equal|]; lia. }
  rewrite map_filter_insert_False by (simpl; lia).
  rewrite map_filter_delete, map_size_delete_Some.
  - assert (size (filter (λ kv : string * Z, 0 < kv.2) deg) ≠ 0%nat); [|lia].
    apply (map_size_ne_0_lookup_2 _ n). exists 1.
    apply map_lookup_filter_Some. split; [done|simpl; lia].
  - exists 1. apply map_lookup_filter_Some. split; [done|simpl; lia].
Qed.

Lemma posCount_le deg n :
  default 0 (deg !! n) - 1 ≠ 0 →
  (posCount (<[n := (default 0 (deg !! n) - 1)%Z]> deg) ≤ posCount deg)%nat.
Proof.
  intros Hd. unfold posCount. rewrite map_filter_insert. case_decide as Hp.
  - simpl in Hp. rewrite map_size_insert_Some; [done|].
    destruct (deg !! n) as [v|] eqn:Hn; simpl in *; [|lia].
    exists v. apply map_lookup_filter_Some. split; [done|simpl; lia].
  - apply map_subseteq_size, map_filter_subseteq_mono, delete_subseteq.
Qed.

Lemma release_fold_wf tm h outs dq :
  let dq' := fold_left (release tm h) outs dq in
  (length dq'.2 + posCount dq'.1 ≤ length dq.2 + posCount dq.1)%nat
  ∧ (∀ x, x ∈ dq'.2 → x ∈ dq.2 ∨ x ∈ outs).
Proof.
  revert dq. induction outs as [|n outs IH]; intros dq; simpl; [eauto|].
  destruct (IH (release tm h dq n)) as [IH1 IH2]. split.
  - etrans; [exact IH1|]. unfold release. simpl. case_bool_decide as Hd.
    + rewrite sortQueue_length, length_app, Hd. simpl.
      pose proof (posCount_dec dq.1 n Hd). lia.
    + pose proof (posCount_le dq.1 n Hd). lia.
  - intros x Hx. destruct (IH2 x Hx) as [Hq|?]; [|right; by right].
    unfold release in Hq. simpl in Hq. case_bool_decide; [|by left].
    apply elem_of_sortQueue, elem_of_app in Hq as [?|Hq]; [by left|].
    apply list_elem_of_singleton in Hq as ->. right. left.
Qed.

Lemma processTask_inv project users s i rest s' :
  processTask project users s i rest = Ok s' →
  ∃ l task floor bk,
    taskMap s !! i = Some l ∧ heap s !! l = Some task ∧
    dependencyEarliestStart project (taskMap s) (heap s) task = Some floor ∧
    let choice := chooseUser users (userAvailability s) task floor in
    bookUser project (userAvailability s) task floor choice.1 = Some bk ∧
    let h' := <[l := scheduled task bk.1.1 bk.2]> (heap s) in
    let dq := fold_left (release (taskMap s) h')
                (default [] (outgoingEdges s !! i)) (incomingDegree s, rest) in
    s' = mkState h' (taskMap s) (outgoingEdges s) dq.1 bk.1.2 dq.2
                 (optimized s ++ [l]) (conflictLog s ++ choice.2).
Proof.
  unfold processTask. destruct (taskMap s !! i) as [l|]; [|done].
  destruct (heap s !! l) as [task|] eqn:Hl; [|done].
  destruct (dependencyEarliestStart _ _ _ _) as [floor|] eqn:Hf; [|done].
  cbv zeta.
  destruct (bookUser _ _ _ _ _) as [bk|] eqn:Hbk; [|done].
  intros [= <-]. by exists l, task, floor, bk.
Qed.

(** ** Shape of the states of a call *)

Lemma sameStatic_refl t : sameStatic t t.
Proof. by destruct t. Qed.

Lemma sameStatic_scheduled t0 t d a :
  sameStatic t0 t → sameStatic t0 (scheduled t d a).
Proof. unfold sameStatic. intros ->. done. Qed.

Lemma wf_init h0 pts av :
  wf h0 (derefs h0 pts) (loopEntry h0 pts av).
Proof.
  destruct (init_unfold h0 pts av)
    as (Hh & Htm & Hout & Hdeg & Hq & Hopt & _).
  set (ts := derefs h0 pts) in *.
  set (s := loopEntry h0 pts av) in *.
  assert (∀ d, outgoingEdges s !! d = (λ _, outOf (taskMap s) ts d) <$> taskMap s !! d)
    as Hout' by (by rewrite Htm).
  assert (∀ i, incomingDegree s !! i = (λ _, degOf (taskMap s) ts i) <$> taskMap s !! i)
    as Hdeg' by (by rewrite Htm).
  clear Hout Hdeg. rename Hout' into Hout, Hdeg' into Hdeg.
  assert (∀ i l, taskMap s !! i = Some l →
            ∃ k t, l = (length h0 + k)%nat ∧ ts !! k = Some t ∧ tid t = i) as Htm'.
  { intros i l. rewrite Htm. apply register_taskMap. }
  assert (∀ t, t ∈ ts → is_Some (taskMap s !! tid t)) as Hknown.
  { intros t. rewrite Htm. apply register_known. }
  split.
  - by rewrite Hh, take_app_length.
  - by rewrite Hh, length_app.
  - intros i l (k & t & -> & Hk & <-)%Htm'. split; [lia|].
    exists t. split; [|done]. rewrite Hh. rewrite lookup_app_r by lia.
    by replace (length h0 + k - length h0)%nat with k by lia.
  - intros l t Hl. rewrite Hh. rewrite lookup_app_r by lia. intros Ht.
    exists t. split; [|apply sameStatic_refl]. by eapply list_elem_of_lookup_2.
  - intros i. rewrite Hq, elem_of_sortQueue, list_elem_of_filter, list_elem_of_fmap.
    intros (_ & t & -> & Ht). by apply Hknown.
  - done.
  - done.
  - rewrite Hopt. constructor.
  - rewrite Hq, Hopt, sortQueue_length. cbn [length].
    assert (posCount (incomingDegree s)
            ≤ length (filter (λ i, default 0%Z (incomingDegree s !! i) ≠ 0%Z) (tid <$> ts)))%nat
      as Hpos.
    { unfold posCount. rewrite <-size_dom.
      etrans; [|apply size_list_to_set_le].
      apply subseteq_size. intros i.
      rewrite elem_of_dom, elem_of_list_to_set, list_elem_of_filter.
      intros [v Hv]. apply map_lookup_filter_Some in Hv as [Hv Hp]. simpl in Hp.
      rewrite Hv. simpl. split; [lia|].
      rewrite Hdeg in Hv. destruct (taskMap s !! i) as [l|] eqn:Hl; [|done].
      destruct (Htm' _ _ Hl) as (k & t & _ & Hk & <-).
      apply list_elem_of_fmap. exists t. split; [done|].
      by eapply list_elem_of_lookup_2. }
    pose proof (length_filter_complement
      (λ i, default 0 (incomingDegree s !! i) = 0) (tid <$> ts)) as Hc.
    rewrite length_fmap in Hc. lia.
Qed.

Lemma elem_of_outOf tm ts d n :
  n ∈ outOf tm ts d → ∃ t, t ∈ ts ∧ tid t = n ∧ d ∈ presentDeps tm t.
Proof.
  unfold outOf. rewrite elem_of_flat_map. intros (t & Ht & Hn).
  apply list_elem_of_fmap in Hn as (x & -> & Hx).
  apply list_elem_of_filter in Hx as [[-> ?] ?].
  exists t. split; [done|]. split; [done|]. by apply list_elem_of_filter.
Qed.

Lemma wf_out h0 ts s d out n :
  wf h0 ts s → outgoingEdges s !! d = Some out → n ∈ out →
  is_Some (taskMap s !! n).
Proof.
  intros Hwf. rewrite (wf_outgoing _ _ _ Hwf).
  destruct (taskMap s !! d); [|done]. simpl. intros [= <-].
  intros (t & Ht & <- & _)%elem_of_outOf. by apply (wf_known _ _ _ Hwf).
Qed.

(** An iteration raises only where [addDays] does: the id it takes from the
    queue always stands for a task. *)
Lemma processTask_defined h0 ts project users s i rest :
  wf h0 ts s → queue s = i :: rest →
  ∃ l task,
    taskMap s !! i = Some l ∧ heap s !! l = Some task
    ∧ ((∃ s', processTask project users s i rest = Ok s')
       ∨ (processTask project users s i rest = Throw
          ∧ (dependencyEarliestStart project (taskMap s) (heap s) task = None
             ∨ ∃ floor,
                 dependencyEarliestStart project (taskMap s) (heap s) task
                 = Some floor
                 ∧ bookUser project (userAvailability s) task floor
                     (chooseUser users (userAvailability s) task floor).1
                   = None))).
Proof.
  intros Hwf Hq. unfold processTask.
  destruct (wf_queue _ _ _ Hwf i) as [l Hl]; [rewrite Hq; left|].
  rewrite Hl. destruct (wf_taskMap _ _ _ Hwf i l Hl) as (_ & t & Ht & _).
  rewrite Ht. exists l, t. split; [done|]. split; [done|].
  destruct (dependencyEarliestStart _ _ _ _) as [floor|] eqn:Hf; [|right; eauto].
  cbv zeta. destruct (bookUser _ _ _ _ _) as [bk|] eqn:Hbk; [left; eauto|].
  right. split; [done|]. right. eauto.
Qed.

Lemma wf_step h0 ts project users s s' :
  wf h0 ts s → step project users s s' → wf h0 ts s'.
Proof.
  intros Hwf (i & rest & Hq & Hp).
  apply processTask_inv in Hp as (l & task & floor & bk & Hl & Htask & Hfloor & Hbk & ->).
  destruct (wf_taskMap _ _ _ Hwf i l Hl) as (Hge & _).
  pose proof (lookup_lt_Some _ _ _ Htask) as Hlt.
  set (choice := chooseUser _ _ _ _) in *.
  set (task' := scheduled _ _ _).
  destruct (release_fold_wf (taskMap s) (<[l:=task']> (heap s))
              (default [] (outgoingEdges s !! i)) (incomingDegree s, rest))
    as [Hm Hin].
  set (dq := fold_left _ _ _) in *. simpl in Hm, Hin.
  split; simpl.
  - rewrite take_insert_ge by lia. apply Hwf.
  - rewrite length_insert. apply Hwf.
  - intros i' l' Hl'. destruct (wf_taskMap _ _ _ Hwf i' l' Hl') as (? & t & Ht & Hti).
    split; [done|]. destruct (decide (l' = l)) as [->|Hne].
    + exists task'. rewrite list_lookup_insert_eq by done. split; [done|].
      simpl. congruence.
    + exists t. by rewrite list_lookup_insert_ne.
  - intros l' t Hl'. destruct (decide (l' = l)) as [->|Hne].
    + rewrite list_lookup_insert_eq by done. intros [= <-].
      destruct (wf_clone _ _ _ Hwf l task Hl' Htask) as (t0 & ? & ?).
      exists t0. split; [done|]. by apply sameStatic_scheduled.
    + rewrite list_lookup_insert_ne by done. by apply Hwf.
  - intros x [Hx|Hx]%Hin.
    + apply (wf_queue _ _ _ Hwf). rewrite Hq. by right.
    + destruct (outgoingEdges s !! i) as [out|] eqn:Hout; simpl in Hx.
      * by apply (wf_out h0 ts s i out).
      * by apply elem_of_nil in Hx.
  - apply Hwf.
  - apply Hwf.
  - apply Forall_app. split; [apply Hwf|]. constructor; [|constructor]. eauto.
  - pose proof (wf_measure _ _ _ Hwf) as Hmeas. rewrite Hq in Hmeas.
    simpl in Hmeas. rewrite length_app. simpl. lia.
Qed.

Lemma wf_rtc h0 ts project users s s' :
  wf h0 ts s → rtc (step project users) s s' → wf h0 ts s'.
Proof. induction 2; eauto using wf_step. Qed.

Lemma wf_reachable today project h0 pts users others s :
  reachable today project h0 pts users others s → wf h0 (derefs h0 pts) s.
Proof.
  intros (s0 & (av & _ & ->)%initState_Ok & Hrtc).
  eapply wf_rtc; [apply wf_init|done].
Qed.

Lemma step_optimized_length project users s s' :
  step project users s s' → length (optimized s') = S (length (optimized s)).
Proof.
  intros (i & rest & Hq & Hp).
  apply processTask_inv in Hp as (l & task & floor & bk & Hl & Htask & Hfloor & Hbk & ->). simpl.
  rewrite length_app. simpl. lia.
Qed.

(** ** The loop returns *)

(** With fuel for the tasks that are left, the loop ends: it raises, or it
    returns a state whose queue is empty. *)
Lemma processLoop_returns h0 ts project users fuel s :
  wf h0 ts s → (length ts ≤ fuel + length (optimized s))%nat →
  processLoop fuel project users s = Throw
  ∨ ∃ s', processLoop fuel project users s = Ok s'
          ∧ rtc (step project users) s s' ∧ queue s' = [].
Proof.
  revert s. induction fuel as [|fuel IH]; intros s Hwf Hfuel.
  - destruct (queue s) as [|i rest] eqn:Hq.
    + right. exists s. simpl. by rewrite Hq.
    + pose proof (wf_measure _ _ _ Hwf) as Hm. rewrite Hq in Hm. simpl in *. lia.
  - destruct (queue s) as [|i rest] eqn:Hq.
    + right. exists s. simpl. by rewrite Hq.
    + simpl. rewrite Hq.
      destruct (processTask_defined h0 ts project users s i rest Hwf Hq)
        as (l & task & _ & _ & [[s1 Hs1]|[Hs1 _]]); rewrite Hs1; simpl;
        [|by left].
      assert (step project users s s1) as Hstep by (by exists i, rest).
      destruct (IH s1) as [Hrun|(s' & Hrun & Hrtc & Hq')].
      { by eapply wf_step. }
      { rewrite (step_optimized_length _ _ _ _ Hstep). lia. }
      { by left. }
      right. exists s'. split; [done|]. split; [|done]. by eapply rtc_l.
Qed.

(** What the loop returns is a state that the steps lead to, with an empty
    queue. *)
Lemma processLoop_Ok project users fuel s s' :
  processLoop fuel project users s = Ok s' →
  rtc (step project users) s s' ∧ queue s' = [].
Proof.
  revert s. induction fuel as [|fuel IH]; intros s; simpl.
  - destruct (queue s) eqn:Hq; [|done]. by intros [= <-].
  - destruct (queue s) as [|i rest] eqn:Hq; [by intros [= <-]|].
    destruct (processTask project users s i rest) as [s1| |] eqn:Hs1; [|done..].
    simpl. intros [Hrtc Hq']%IH. split; [|done].
    eapply rtc_l; [|done]. by exists i, rest.
Qed.

Lemma derefs_length h refs : (length (derefs h refs) ≤ length refs)%nat.
Proof.
  unfold derefs. induction refs as [|r refs IH]; csimpl; [done|].
  destruct (h !! r); simpl; lia.
Qed.

Lemma run_returns today project h0 pts users others :
  run today project h0 pts users others = Throw
  ∨ ∃ s, run today project h0 pts users others = Ok s
         ∧ reachable today project h0 pts users others s ∧ queue s = [].
Proof.
  unfold run, reachable.
  destruct (initState_cases today project h0 pts users others)
    as [->|[s0 Hs0]]; [by left|].
  rewrite Hs0. simpl.
  pose proof Hs0 as (av & _ & ->)%initState_Ok.
  destruct (processLoop_returns h0 (derefs h0 pts) project users (length pts)
              (loopEntry h0 pts av)) as [?|(s & ? & ? & ?)];
    [apply wf_init|pose proof (derefs_length h0 pts); simpl; lia|by left|].
  right. exists s. eauto.
Qed.

Lemma run_Ok today project h0 pts users others s :
  run today project h0 pts users others = Ok s →
  reachable today project h0 pts users others s ∧ queue s = [].
Proof.
  unfold run, reachable.
  destruct (initState today project h0 pts users others) as [s0| |] eqn:Hs0;
    [|done..].
  simpl. intros [? ?]%processLoop_Ok. eauto.
Qed.

(** ** Weights are static *)

Lemma getTask_insert tm (h : Heap) l task task' i :
  h !! l = Some task →
  getTask tm (<[l := task']> h) i
  = if decide (tm !! i = Some l) then Some task' else getTask tm h i.
Proof.
  intros Hl. unfold getTask. destruct (tm !! i) as [l'|] eqn:Hi.
  - case_decide as Hd.
    + injection Hd as ->. apply list_lookup_insert_eq. by eapply lookup_lt_Some.
    + rewrite list_lookup_insert_ne; [done|]. congruence.
  - by case_decide.
Qed.

Lemma weightOf_insert tm (h : Heap) l task d a i :
  h !! l = Some task →
  weightOf tm (<[l := scheduled task d a]> h) i = weightOf tm h i.
Proof.
  intros Hl. unfold weightOf. rewrite (getTask_insert _ _ _ task) by done.
  case_decide as Hd; [|done]. unfold getTask. by rewrite Hd, Hl.
Qed.

Lemma insertBy_ext {A} (cmp cmp' : A → A → Z) x l :
  (∀ a b, cmp a b = cmp' a b) → insertBy cmp x l = insertBy cmp' x l.
Proof. intros E. induction l as [|y l IH]; simpl; [done|]. by rewrite E, IH. Qed.

Lemma sortBy_ext {A} (cmp cmp' : A → A → Z) l :
  (∀ a b, cmp a b = cmp' a b) → sortBy cmp l = sortBy cmp' l.
Proof.
  intros E. induction l as [|y l IH]; simpl; [done|].
  by rewrite IH, (insertBy_ext cmp cmp').
Qed.

Lemma sortQueue_insert tm (h : Heap) l task d a q :
  h !! l = Some task →
  sortQueue tm (<[l := scheduled task d a]> h) q = sortQueue tm h q.
Proof.
  intros Hl. apply sortBy_ext. intros x y. unfold queueCmp.
  by rewrite !(weightOf_insert _ _ _ task).
Qed.

Lemma release_insert tm (h : Heap) l task d a dq n :
  h !! l = Some task →
  release tm (<[l := scheduled task d a]> h) dq n = release tm h dq n.
Proof. intros Hl. unfold release. by rewrite (sortQueue_insert _ _ _ task). Qed.

Lemma fold_release_insert tm (h : Heap) l task d a outs dq :
  h !! l = Some task →
  fold_left (release tm (<[l := scheduled task d a]> h)) outs dq
  = fold_left (release tm h) outs dq.
Proof.
  intros Hl. revert dq. induction outs as [|n outs IH]; intros dq; simpl; [done|].
  by rewrite IH, (release_insert _ _ _ task).
Qed.

Lemma queueCmp_queueKey tm h a b :
  queueCmp tm h a b = queueKey tm h a - queueKey tm h b.
Proof. unfold queueCmp, queueKey. lia. Qed.

Lemma sortQueue_sorted tm h q :
  StronglySorted (keyLe (queueKey tm h)) (sortQueue tm h q).
Proof. apply sortBy_sorted, queueCmp_queueKey. Qed.

Lemma sortQueue_Permutation tm h q : sortQueue tm h q ≡ₚ q.
Proof. apply sortBy_Permutation. Qed.

Lemma pushAll_sorted tm h q ns :
  StronglySorted (keyLe (queueKey tm h)) q →
  pushAll tm h q ns = sortQueue tm h (q ++ ns).
Proof.
  revert q. induction ns as [|n ns IH]; intros q Hq; simpl.
  - rewrite app_nil_r. symmetry.
    by apply (sortBy_sorted_id _ _ (queueCmp_queueKey tm h)).
  - unfold pushAll in *. simpl. rewrite IH by apply sortQueue_sorted.
    unfold sortQueue.
    rewrite (sortBy_app_sortBy _ _ (queueCmp_queueKey tm h)).
    by rewrite <-app_assoc.
Qed.

(** ** Release of the successors, task by task *)

Lemma release_replicate tm h n k deg q :
  fold_left (release tm h) (replicate k n) (deg, q)
  = (if decide (k = 0%nat) then deg
     else <[n := default 0 (deg !! n) - Z.of_nat k]> deg,
     if decide (1 ≤ default 0 (deg !! n) ≤ Z.of_nat k)
     then sortQueue tm h (q ++ [n]) else q).
Proof.
  revert deg q. induction k as [|k IH]; intros deg q; simpl.
  - rewrite decide_False by lia. done.
  - unfold release at 2. simpl. rewrite IH, lookup_insert_eq. simpl.
    f_equal.
    + destruct (decide (k = 0%nat)) as [->|Hk]; simpl.
      * f_equal. 
      * rewrite insert_insert_eq. f_equal. lia.
    + case_bool_decide as Hd.
      * rewrite decide_False by lia. rewrite decide_True by lia. done.
      * destruct (decide (1 ≤ default 0 (deg !! n) - 1 ≤ Z.of_nat k)).
        -- rewrite decide_True by lia. done.
        -- rewrite decide_False by lia. done.
Qed.

Lemma const_fmap_replicate {A B} (b : B) (l : list A) :
  (λ _, b) <$> l = replicate (length l) b.
Proof. induction l as [|x l IH]; csimpl; [done|]. by rewrite IH. Qed.

Lemma outOf_cons tm t ts x :
  outOf tm (t :: ts) x = replicate (edgeCount tm x t) (tid t) ++ outOf tm ts x.
Proof. unfold outOf. simpl. by rewrite const_fmap_replicate. Qed.

Lemma filter_ext_in {A} (P Q : A → Prop) `{!∀ x, Decision (P x), !∀ x, Decision (Q x)}
    (l : list A) :
  (∀ x, x ∈ l → P x ↔ Q x) → filter P l = filter Q l.
Proof.
  induction l as [|x l IH]; intros E; [done|].
  rewrite !filter_cons, IH by (intros y Hy; apply E; by right).
  destruct (decide (P x)) as [Hp|Hp], (decide (Q x)) as [Hq|Hq]; try done.
  - destruct Hq. apply E; [left|done].
  - destruct Hp. apply E; [left|done].
Qed.

Lemma release_outOf tm h ts x deg q :
  NoDup (tid <$> ts) →
  let dq := fold_left (release tm h) (outOf tm ts x) (deg, q) in
  (∀ t, t ∈ ts →
     dq.1 !! tid t
     = if decide (edgeCount tm x t = 0%nat) then deg !! tid t
       else Some (default 0 (deg !! tid t) - Z.of_nat (edgeCount tm x t)))
  ∧ (∀ i, i ∉ tid <$> ts → dq.1 !! i = deg !! i)
  ∧ dq.2 = pushAll tm h q (tid <$> filter (releasedBy tm deg x) ts).
Proof.
  revert deg q. induction ts as [|t ts IH]; intros deg q Hnd; cbv zeta.
  - split; [|done]. by intros t ?%elem_of_nil.
  - rewrite fmap_cons in Hnd. apply NoDup_cons in Hnd as [Hnin Hnd].
    rewrite outOf_cons, fold_left_app, release_replicate.
    set (deg1 := if decide (edgeCount tm x t = 0%nat) then deg else _).
    set (q1 := if decide (1 ≤ default 0 (deg !! tid t) ≤ _) then _ else q).
    destruct (IH deg1 q1 Hnd) as (IH1 & IH2 & IH3). clear IH.
    assert (∀ i, i ≠ tid t → deg1 !! i = deg !! i) as Hsame.
    { intros i Hi. unfold deg1. case_decide; [done|].
      by rewrite lookup_insert_ne. }
    assert (∀ t', t' ∈ ts → tid t' ≠ tid t) as Hne.
    { intros t' Ht' E. apply Hnin. rewrite <-E. apply list_elem_of_fmap. eauto. }
    split; [|split].
    + intros t' [->|Ht']%elem_of_cons.
      * rewrite IH2 by done. unfold deg1. case_decide; [done|].
        by rewrite lookup_insert_eq.
      * rewrite IH1, !Hsame by auto. done.
    + intros i Hi. rewrite fmap_cons in Hi. apply not_elem_of_cons in Hi as [? ?].
      rewrite IH2, Hsame by done. done.
    + rewrite IH3. clear IH1 IH2 IH3. rewrite filter_cons.
      rewrite (filter_ext_in (releasedBy tm deg1 x) (releasedBy tm deg x)).
      2:{ intros t' Ht'. unfold releasedBy. rewrite Hsame by auto. done. }
      unfold q1. destruct (decide (releasedBy tm deg x t)) as [Hr|Hr].
      * rewrite decide_True by exact Hr. done.
      * rewrite decide_False by exact Hr. done.
Qed.

(** ** Tasks with pairwise distinct ids *)

Lemma sameStatic_tid t0 t : sameStatic t0 t → tid t = tid t0.
Proof. by intros ->. Qed.

Lemma sameStatic_depsOf t0 t : sameStatic t0 t → depsOf t = depsOf t0.
Proof. by intros ->. Qed.


Lemma NoDup_tid_eq (ts : list Task) t t' :
  NoDup (tid <$> ts) → t ∈ ts → t' ∈ ts → tid t = tid t' → t = t'.
Proof.
  intros Hnd (j & Hj)%list_elem_of_lookup (j' & Hj')%list_elem_of_lookup E.
  assert (j = j') as ->; [|congruence].
  eapply (NoDup_lookup _ _ _ (tid t) Hnd); rewrite list_lookup_fmap.
  - by rewrite Hj.
  - by rewrite Hj', E.
Qed.

Lemma wf_clone_of h0 ts s t :
  wf h0 ts s → NoDup (tid <$> ts) → t ∈ ts →
  ∃ l c, taskMap s !! tid t = Some l ∧ heap s !! l = Some c ∧ sameStatic t c.
Proof.
  intros Hwf Hnd Ht. destruct (wf_known _ _ _ Hwf t Ht) as [l Hl].
  destruct (wf_taskMap _ _ _ Hwf _ _ Hl) as (Hge & c & Hc & Hid).
  destruct (wf_clone _ _ _ Hwf _ _ Hge Hc) as (t0 & Ht0 & Hst).
  exists l, c. split; [done|]. split; [done|].
  rewrite (sameStatic_tid _ _ Hst) in Hid.
  by rewrite <-(NoDup_tid_eq ts t0 t Hnd Ht0 Ht Hid).
Qed.

Lemma wf_key_task h0 ts s i l :
  wf h0 ts s → taskMap s !! i = Some l → ∃ t, t ∈ ts ∧ tid t = i.
Proof.
  intros Hwf Hl. destruct (wf_taskMap _ _ _ Hwf _ _ Hl) as (Hge & c & Hc & Hid).
  destruct (wf_clone _ _ _ Hwf _ _ Hge Hc) as (t0 & Ht0 & Hst).
  exists t0. split; [done|]. by rewrite <-(sameStatic_tid _ _ Hst).
Qed.

Lemma wf_taskMap_inj h0 ts s i j l :
  wf h0 ts s → taskMap s !! i = Some l → taskMap s !! j = Some l → i = j.
Proof.
  intros Hwf Hi Hj.
  destruct (wf_taskMap _ _ _ Hwf _ _ Hi) as (_ & c & Hc & <-).
  destruct (wf_taskMap _ _ _ Hwf _ _ Hj) as (_ & c' & Hc' & <-). congruence.
Qed.

Lemma degOf_NoDup tm ts t :
  NoDup (tid <$> ts) → t ∈ ts →
  degOf tm ts (tid t) = Z.of_nat (length (presentDeps tm t)).
Proof.
  intros Hnd Ht. unfold degOf. f_equal. f_equal.
  induction ts as [|t' ts IH]; [by apply elem_of_nil in Ht|].
  rewrite fmap_cons in Hnd. apply NoDup_cons in Hnd as [Hnin Hnd]. simpl.
  apply elem_of_cons in Ht as [->|Ht].
  - rewrite decide_True by done.
    assert (flat_map (λ t0, if decide (tid t0 = tid t') then presentDeps tm t0 else []) ts
            = []) as ->; [|by rewrite app_nil_r].
    clear IH Hnd. induction ts as [|t2 ts IH]; simpl; [done|].
    rewrite fmap_cons in Hnin. apply not_elem_of_cons in Hnin as [? ?].
    rewrite decide_False by done. by apply IH.
  - rewrite decide_False.
    + by apply IH.
    + intros E. apply Hnin. rewrite E. apply list_elem_of_fmap. eauto.
Qed.

(** ** Dates *)

Lemma maxDate_max d1 d2 : maxDate d1 d2 = Z.max d1 d2.
Proof. unfold maxDate. destruct (Z.ltb_spec d2 d1); lia. Qed.

Lemma timeClip_Some t u :
  timeClip t = Some u ↔ u = t ∧ - maxTime ≤ t ≤ maxTime.
Proof.
  unfold timeClip.
  destruct (Z.leb_spec (- maxTime) t), (Z.leb_spec t maxTime); simpl;
    split; try done; try (intros [= <-]; lia); try (intros [-> ?]; done || lia).
Qed.

Lemma timeClip_in t : - maxTime ≤ t ≤ maxTime → timeClip t = Some t.
Proof. intros ?. by apply timeClip_Some. Qed.

Lemma addDays_Some d x e :
  addDays d x = Some e ↔
  ∃ n, x = Finite n
       ∧ - maxTime ≤ d * msPerDay ≤ maxTime
       ∧ let t := d * msPerDay in
         let newDate := t + offsetAt t + n * msPerDay in
         let u := newDate - offsetOfLocal newDate in
         - maxTime ≤ u ≤ maxTime ∧ e = u `div` msPerDay.
Proof.
  unfold addDays. destruct x as [n|]; [|split; [done|by intros (? & ? & _)]].
  destruct (timeClip (d * msPerDay)) as [t|] eqn:Ht.
  - apply timeClip_Some in Ht as [-> Ht].
    destruct (timeClip _) as [u|] eqn:Hu.
    + apply timeClip_Some in Hu as [-> Hu]. split.
      * intros [= <-]. by exists n.
      * intros (? & [= <-] & _ & _ & ->). done.
    + split; [done|]. intros (? & [= <-] & _ & Hr & _).
      by rewrite timeClip_in in Hu.
  - split; [done|]. intros (? & _ & Hr & _). by rewrite timeClip_in in Ht.
Qed.




Lemma fixed_bounded : fixedOffset → offsetAt 0 = 0 → boundedOffset.
Proof.
  intros Hfix H0 x. rewrite (Hfix 0 x). rewrite <-(Hfix x 0), (Hfix 0 0), H0.
  unfold msPerDay. lia.
Qed.

(** Where the offsets are of one day at most, [addDays] returns for dates
    that are in range by two days, a date that is off by two days at
    most. *)
Lemma addDays_bounded d n :
  boundedOffset →
  -100000000 ≤ d ≤ 100000000 → -99999998 ≤ d + n ≤ 99999998 →
  ∃ e, addDays d (Finite n) = Some e ∧ d + n - 2 ≤ e ≤ d + n + 2.
Proof.
  intros Hb Hd Hn.
  set (t := d * msPerDay).
  set (newDate := t + offsetAt t + n * msPerDay).
  set (u := newDate - offsetOfLocal newDate).
  destruct (Hb t) as [Ht _]. destruct (Hb newDate) as [_ Hl].
  assert ((d + n - 2) * msPerDay ≤ u ≤ (d + n + 2) * msPerDay) as Hu
    by (unfold u, newDate, t, msPerDay in *; lia).
  exists (u `div` msPerDay). split.
  - apply addDays_Some. exists n. split; [done|].
    unfold maxTime, msPerDay in *. cbv zeta. fold t. fold newDate. fold u.
    repeat split; lia.
  - split.
    + apply Z.div_le_lower_bound; unfold msPerDay in *; lia.
    + apply Z.div_le_upper_bound; unfold msPerDay in *; lia.
Qed.




Lemma atLeast_notNegative k x : 0 ≤ k → atLeast k x → notNegative x.
Proof. destruct x; simpl; lia. Qed.

Lemma endsBy_le t d d' : endsBy t d → d ≤ d' → endsBy t d'.
Proof. intros (e & ? & ?) ?. exists e. split; [done|lia]. Qed.

Lemma fold_depStep_ge tm h ds acc f :
  forEachM (depStep tm h) ds acc = Some f → acc ≤ f.
Proof.
  revert acc. induction ds as [|d ds IH]; intros acc; simpl.
  - intros [= <-]. lia.
  - destruct (depStep tm h acc d) as [acc'|] eqn:Hd; [|done].
    intros Hf%IH. etrans; [|exact Hf]. unfold depStep in Hd.
    destruct (getTask tm h d); [|injection Hd as <-; lia].
    destruct (addDays _ _); [|done]. injection Hd as <-.
    rewrite maxDate_max. lia.
Qed.

Lemma fold_depStep_dep tm h ds acc f d cd :
  forEachM (depStep tm h) ds acc = Some f →
  d ∈ ds → getTask tm h d = Some cd → endsBy cd f.
Proof.
  revert acc. induction ds as [|d' ds IH]; intros acc Hf Hd Hcd; simpl in Hf.
  - by apply elem_of_nil in Hd.
  - destruct (depStep tm h acc d') as [acc'|] eqn:Hs; [|done].
    apply elem_of_cons in Hd as [<-|Hd]; [|by eapply IH].
    apply fold_depStep_ge in Hf. unfold depStep in Hs. rewrite Hcd in Hs.
    destruct (addDays _ _) as [e|] eqn:He; [|done]. injection Hs as <-.
    exists e. split; [done|]. rewrite maxDate_max in Hf. lia.
Qed.

Lemma floor_ge_start project tm h task floor :
  dependencyEarliestStart project tm h task = Some floor →
  pStartDate project ≤ floor.
Proof. apply fold_depStep_ge. Qed.

Lemma floor_ge_dep project tm h task floor d cd :
  dependencyEarliestStart project tm h task = Some floor →
  d ∈ depsOf task → getTask tm h d = Some cd → endsBy cd floor.
Proof. apply fold_depStep_dep. Qed.

Lemma bookUser_ge_floor project av task floor b bk :
  bookUser project av task floor b = Some bk → floor ≤ bk.1.1.
Proof.
  unfold bookUser. destruct b as [u|]; simpl; [|intros [= <-]; simpl; lia].
  destruct (negb _); simpl; [|intros [= <-]; simpl; lia].
  destruct (addDays _ _); [|done]. intros [= <-]. simpl.
  rewrite maxDate_max. lia.
Qed.

(** ** Processed ids *)

Lemma derefs_snoc (h : Heap) refs l :
  derefs h (refs ++ [l]) = derefs h refs ++ from_option (λ t, [t]) [] (h !! l).
Proof.
  unfold derefs. rewrite omap_app. csimpl. by destruct (h !! l).
Qed.

Lemma derefs_insert_tid (h : Heap) l task task' refs :
  h !! l = Some task → tid task' = tid task →
  tid <$> derefs (<[l := task']> h) refs = tid <$> derefs h refs.
Proof.
  intros Hl Hid. unfold derefs. induction refs as [|r refs IH]; csimpl; [done|].
  destruct (decide (r = l)) as [->|Hne].
  - rewrite list_lookup_insert_eq by (by eapply lookup_lt_Some). rewrite Hl.
    csimpl. by rewrite IH, Hid.
  - rewrite list_lookup_insert_ne by done. destruct (h !! r); csimpl; by rewrite IH.
Qed.

Lemma elem_of_derefs (h : Heap) refs t :
  t ∈ derefs h refs ↔ ∃ l, l ∈ refs ∧ h !! l = Some t.
Proof. apply list_elem_of_omap. Qed.

Lemma step_inv project users s s' :
  step project users s s' →
  ∃ i rest l task floor bk,
    queue s = i :: rest ∧ taskMap s !! i = Some l ∧ heap s !! l = Some task ∧
    dependencyEarliestStart project (taskMap s) (heap s) task = Some floor ∧
    let choice := chooseUser users (userAvailability s) task floor in
    bookUser project (userAvailability s) task floor choice.1 = Some bk ∧
    let h' := <[l := scheduled task bk.1.1 bk.2]> (heap s) in
    let dq := fold_left (release (taskMap s) h')
                (default [] (outgoingEdges s !! i)) (incomingDegree s, rest) in
    s' = mkState h' (taskMap s) (outgoingEdges s) dq.1 bk.1.2 dq.2
                 (optimized s ++ [l]) (conflictLog s ++ choice.2).
Proof.
  intros (i & rest & Hq & Hp).
  apply processTask_inv in Hp as (l & task & floor & bk & Hl & Htask & Hfloor & Hbk & ->).
  by exists i, rest, l, task, floor, bk.
Qed.

Lemma step_doneIds h0 ts project users s s' i rest :
  wf h0 ts s → step project users s s' → queue s = i :: rest →
  doneIds s' = doneIds s ++ [i].
Proof.
  intros Hwf (i' & rest' & l & task & floor & bk & Hq & Hl & Htask & Hfloor & Hbk & ->)%step_inv Hq'.
  rewrite Hq in Hq'. injection Hq' as -> ->.
  unfold doneIds. simpl. rewrite derefs_snoc, fmap_app.
  rewrite (derefs_insert_tid _ _ task) by done.
  rewrite list_lookup_insert_eq by (by eapply lookup_lt_Some). simpl.
  destruct (wf_taskMap _ _ _ Hwf _ _ Hl) as (_ & c & Hc & Hid).
  congruence.
Qed.

(** ** Pending dependencies *)

Lemma pending_nil tm t : pending tm [] t = Z.of_nat (length (presentDeps tm t)).
Proof.
  unfold pending. f_equal. f_equal.
  induction (presentDeps tm t) as [|d ds IH]; [done|].
  rewrite filter_cons_True by apply not_elem_of_nil. by rewrite IH.
Qed.

Lemma pending_snoc tm done x t :
  x ∉ done →
  pending tm (done ++ [x]) t = pending tm done t - Z.of_nat (edgeCount tm x t).
Proof.
  intros Hx. unfold pending, edgeCount, presentDeps.
  induction (depsOf t) as [|y ds IH]; [done|].
  assert (y ∉ done ++ [x] ↔ (y ∉ done) ∧ y ≠ x) as HA
    by (rewrite elem_of_app, list_elem_of_singleton; tauto).
  rewrite !(filter_cons _ y).
  destruct (decide (is_Some (tm !! y))) as [Hy|Hy];
    rewrite ?(filter_cons _ y);
    repeat case_decide; simpl length; try lia; exfalso; intuition congruence.
Qed.

Lemma pending_nonneg tm done t : 0 ≤ pending tm done t.
Proof. unfold pending. lia. Qed.

Lemma pending_zero tm done t :
  pending tm done t = 0 ↔ ∀ d, d ∈ presentDeps tm t → d ∈ done.
Proof.
  unfold pending. split.
  - intros Hz d Hd. destruct (decide (d ∈ done)) as [|Hn]; [done|].
    assert (d ∈ filter (λ d, d ∉ done) (presentDeps tm t)) as Hin
      by (by apply list_elem_of_filter).
    destruct (filter _ _); [by apply elem_of_nil in Hin|simpl in Hz; lia].
  - intros Hall.
    assert (filter (λ d, d ∉ done) (presentDeps tm t) = []) as ->; [|done].
    destruct (filter _ _) as [|d ds] eqn:Hf; [done|].
    assert (d ∈ filter (λ d, d ∉ done) (presentDeps tm t)) as Hin
      by (rewrite Hf; left).
    apply list_elem_of_filter in Hin as [Hn Hin]. destruct Hn. by apply Hall.
Qed.

Lemma edgeCount_pos tm x t :
  edgeCount tm x t ≠ 0%nat ↔ x ∈ presentDeps tm t.
Proof.
  unfold edgeCount, presentDeps. rewrite list_elem_of_filter. split.
  - intros Hne. destruct (filter _ _) as [|y ys] eqn:Hf; [done|].
    assert (y ∈ filter (λ y, y = x ∧ is_Some (tm !! y)) (depsOf t)) as Hin
      by (rewrite Hf; left).
    apply list_elem_of_filter in Hin as [[-> ?] ?]. done.
  - intros [Hs Hin].
    assert (x ∈ filter (λ y, y = x ∧ is_Some (tm !! y)) (depsOf t)) as Hin'
      by (by apply list_elem_of_filter).
    destruct (filter _ _); [by apply elem_of_nil in Hin'|done].
Qed.

Lemma pending_ge_edgeCount tm done x t :
  x ∉ done → Z.of_nat (edgeCount tm x t) ≤ pending tm done t.
Proof.
  intros Hx. pose proof (pending_snoc tm done x t Hx).
  pose proof (pending_nonneg tm (done ++ [x]) t). lia.
Qed.

(** ** The topological discipline holds in every state *)

Lemma topo_init project h0 pts av :
  NoDup (tid <$> derefs h0 pts) →
  topo project (derefs h0 pts) (loopEntry h0 pts av).
Proof.
  intros Hnd.
  pose proof (wf_init h0 pts av) as Hwf.
  destruct (init_unfold h0 pts av)
    as (Hh & Htm & _ & Hdeg & Hq & Hopt & _).
  set (ts := derefs h0 pts) in *.
  set (s := loopEntry h0 pts av) in *.
  assert (doneIds s = []) as Hdone by (unfold doneIds; by rewrite Hopt).
  assert (∀ t, t ∈ ts →
            incomingDegree s !! tid t = Some (pending (taskMap s) (doneIds s) t))
    as Hdeg'.
  { intros t Ht. rewrite Hdeg, <-Htm.
    destruct (wf_known _ _ _ Hwf t Ht) as [l ->]. simpl.
    by rewrite Hdone, pending_nil, degOf_NoDup. }
  split.
  - rewrite Hdone, app_nil_r, Hq. apply NoDup_sortBy. by apply NoDup_filter.
  - done.
  - intros t Ht. rewrite Hdone, app_nil_r, Hq, elem_of_sortQueue.
    rewrite list_elem_of_filter, <-Hdone. split.
    + intros Hz. split.
      * by rewrite Hdeg', Hz.
      * apply list_elem_of_fmap. eauto.
    + intros [Hz _]. by rewrite Hdeg' in Hz.
  - rewrite Hq, Hh, Htm. apply sortQueue_sorted.
  - intros j t _. by rewrite Hdone.
  - intros t c _. rewrite Hdone. by intros ?%elem_of_nil.
Qed.

Lemma step_fields project users s s' :
  step project users s s' →
  ∃ i rest l task start assigned,
    queue s = i :: rest ∧ taskMap s !! i = Some l ∧ heap s !! l = Some task
    ∧ (∃ floor,
         dependencyEarliestStart project (taskMap s) (heap s) task = Some floor
         ∧ floor ≤ start)
    ∧ heap s' = <[l := scheduled task start assigned]> (heap s)
    ∧ taskMap s' = taskMap s
    ∧ outgoingEdges s' = outgoingEdges s
    ∧ (incomingDegree s', queue s')
      = fold_left (release (taskMap s) (heap s'))
          (default [] (outgoingEdges s !! i)) (incomingDegree s, rest)
    ∧ optimized s' = optimized s ++ [l].
Proof.
  intros (i & rest & l & task & floor & bk & Hq & Hl & Htask & Hfloor & Hbk & ->)%step_inv.
  eexists i, rest, l, task, _, _. simpl.
  split; [done|]. split; [done|]. split; [done|].
  split; [exists floor; split; [done|by eapply bookUser_ge_floor]|].
  split; [done|]. split; [done|]. split; [done|].
  split; [|done]. by destruct (fold_left _ _ _).
Qed.

Lemma StronglySorted_keyLe_ext {A} (f g : A → Z) l :
  (∀ x, f x = g x) → StronglySorted (keyLe f) l → StronglySorted (keyLe g) l.
Proof.
  intros E. induction 1 as [|x l Hs IH Hx]; constructor; [done|].
  eapply Forall_impl; [exact Hx|]. intros y. unfold keyLe. by rewrite !E.
Qed.

Lemma elem_of_released (ts : list Task) (P : Task → Prop) `{!∀ t, Decision (P t)} t :
  NoDup (tid <$> ts) → t ∈ ts →
  tid t ∈ tid <$> filter P ts ↔ P t.
Proof.
  intros Hnd Ht. rewrite list_elem_of_fmap. split.
  - intros (t' & E & [Hp Ht']%list_elem_of_filter).
    by rewrite (NoDup_tid_eq ts t t' Hnd Ht Ht' E).
  - intros Hp. exists t. split; [done|]. by apply list_elem_of_filter.
Qed.

Lemma NoDup_released (ts : list Task) (P : Task → Prop) `{!∀ t, Decision (P t)} :
  NoDup (tid <$> ts) → NoDup (tid <$> filter P ts).
Proof.
  intros Hnd. eapply sublist_NoDup; [exact Hnd|].
  apply fmap_sublist, sublist_filter.
Qed.

Lemma topo_step h0 ts project users s s' :
  NoDup (tid <$> ts) → wf h0 ts s → topo project ts s →
  step project users s s' → topo project ts s'.
Proof.
  intros Hnd Hwf Htopo Hstep.
  destruct (step_fields _ _ _ _ Hstep)
    as (i & rest & l & task & start & assigned & Hq & Hl & Htask & Hstart
        & Hheap & Htm & Hout & Hdq & Hopt).
  pose proof (step_doneIds _ _ _ _ _ _ i rest Hwf Hstep Hq) as Hdone.
  destruct (wf_key_task _ _ _ _ _ Hwf Hl) as (ti & Hti & Hid).
  assert (sameStatic ti task) as Hsame.
  { destruct (wf_clone_of _ _ _ ti Hwf Hnd Hti) as (l' & c & Hl' & Hc & Hst).
    rewrite Hid, Hl in Hl'. injection Hl' as <-. congruence. }
  pose proof (topo_nodup _ _ _ Htopo) as Hndq. rewrite Hq in Hndq.
  simpl in Hndq. apply NoDup_cons in Hndq as [Hi_nin Hnd_rest].
  assert (i ∉ doneIds s) as Hi_done
    by (intros ?; apply Hi_nin, elem_of_app; by right).
  assert (pending (taskMap s) (doneIds s) ti = 0) as Hpi.
  { apply (topo_ready _ _ _ Htopo); [done|]. rewrite Hid, Hq. left. }
  (* the release *)
  assert (default [] (outgoingEdges s !! i) = outOf (taskMap s) ts i) as Houts.
  { by rewrite (wf_outgoing _ _ _ Hwf), Hl. }
  rewrite Houts in Hdq.
  destruct (release_outOf (taskMap s) (heap s') ts i (incomingDegree s) rest Hnd)
    as (D1 & D2 & D3).
  rewrite <-Hdq in D1, D2, D3. simpl in D1, D2, D3. clear Hdq.
  assert (∀ x, queueKey (taskMap s) (heap s) x = queueKey (taskMap s) (heap s') x)
    as Hkey.
  { intros x. unfold queueKey. by rewrite Hheap, (weightOf_insert _ _ _ task). }
  assert (StronglySorted (keyLe (queueKey (taskMap s) (heap s'))) rest) as Hrest.
  { eapply StronglySorted_keyLe_ext; [exact Hkey|].
    pose proof (topo_sorted _ _ _ Htopo) as Hs. rewrite Hq in Hs.
    by apply StronglySorted_inv in Hs as [? _]. }
  rewrite pushAll_sorted in D3 by done.
  set (R := tid <$> filter (releasedBy (taskMap s) (incomingDegree s) i) ts) in *.
  assert (∀ t, t ∈ ts →
    pending (taskMap s) (doneIds s') t
    = pending (taskMap s) (doneIds s) t - Z.of_nat (edgeCount (taskMap s) i t))
    as Hpend.
  { intros t _. rewrite Hdone. by apply pending_snoc. }
  assert (∀ t, t ∈ ts →
    tid t ∈ R ↔ (edgeCount (taskMap s) i t ≠ 0%nat
                 ∧ pending (taskMap s) (doneIds s') t = 0)) as HR.
  { intros t Ht. unfold R. rewrite (elem_of_released ts _ t Hnd Ht).
    unfold releasedBy. rewrite (topo_deg _ _ _ Htopo t Ht). simpl.
    rewrite (Hpend t Ht).
    pose proof (pending_ge_edgeCount (taskMap s) (doneIds s) i t Hi_done). lia. }
  assert (∀ x, x ∈ R → x ∉ i :: rest ++ doneIds s) as HRfresh.
  { intros x Hx Hin. unfold R in Hx.
    apply list_elem_of_fmap in Hx as (t & -> & [Hrel Ht]%list_elem_of_filter).
    assert (pending (taskMap s) (doneIds s) t = 0) as Hz
      by (apply (topo_ready _ _ _ Htopo); [done|by rewrite Hq]).
    unfold releasedBy in Hrel. rewrite (topo_deg _ _ _ Htopo t Ht) in Hrel.
    simpl in Hrel. lia. }
  split.
  - (* queue and processed ids are pairwise distinct *)
    rewrite D3, Hdone, sortQueue_Permutation.
    assert ((rest ++ R) ++ doneIds s ++ [i] ≡ₚ R ++ i :: rest ++ doneIds s) as ->.
    { rewrite (Permutation_app_comm rest R), <-app_assoc.
      apply Permutation_app_head. rewrite app_assoc.
      apply (Permutation_app_comm _ [i]). }
    apply NoDup_app. split; [by apply NoDup_released|]. split; [done|].
    by apply NoDup_cons.
  - (* in-degrees count the pending dependencies *)
    intros t Ht. rewrite Htm, (Hpend t Ht), (D1 t Ht).
    rewrite (topo_deg _ _ _ Htopo t Ht). case_decide as Hc; [|done].
    rewrite Hc. f_equal. lia.
  - (* ready tasks are exactly the queued and processed ones *)
    intros t Ht. rewrite Htm, D3, Hdone.
    assert (tid t ∈ sortQueue (taskMap s) (heap s') (rest ++ R) ++ doneIds s ++ [i]
            ↔ tid t ∈ R ∨ tid t ∈ i :: rest ++ doneIds s) as ->.
    { rewrite !elem_of_app, elem_of_sortQueue, !elem_of_cons, !elem_of_app.
      rewrite elem_of_nil. tauto. }
    rewrite (HR t Ht).
    pose proof (topo_ready _ _ _ Htopo t Ht) as Hready. rewrite Hq in Hready.
    simpl in Hready. rewrite <-Hready, <-Hdone.
    pose proof (Hpend t Ht).
    pose proof (pending_ge_edgeCount (taskMap s) (doneIds s) i t Hi_done).
    pose proof (pending_nonneg (taskMap s) (doneIds s') t).
    destruct (decide (edgeCount (taskMap s) i t = 0%nat)); [|lia].
    split; [right|intros [[? ?]|?]]; lia.
  - (* the queue is sorted *)
    rewrite D3, Htm. apply sortQueue_sorted.
  - (* dependencies are processed first *)
    intros j t Ht Hj d Hd. rewrite Htm in Hd. rewrite Hdone in Hj |- *.
    destruct (decide (j < length (doneIds s))%nat) as [Hlt|Hge].
    + rewrite lookup_app_l in Hj by done.
      destruct (topo_order _ _ _ Htopo j t Ht Hj d Hd) as (k & Hk & Hkd).
      exists k. split; [done|]. rewrite lookup_app_l by lia. done.
    + pose proof (lookup_lt_Some _ _ _ Hj) as Hlen.
      rewrite length_app in Hlen. simpl in Hlen.
      assert (j = length (doneIds s)) as -> by lia.
      rewrite lookup_app_r, Nat.sub_diag in Hj by lia. injection Hj as E.
      assert (t = ti) as -> by (apply (NoDup_tid_eq ts); congruence).
      assert (d ∈ doneIds s) as Hin
        by (by apply (proj1 (pending_zero (taskMap s) (doneIds s) ti) Hpi)).
      apply list_elem_of_lookup in Hin as [k Hk].
      exists k. split; [by eapply lookup_lt_Some|].
      rewrite lookup_app_l by (by eapply lookup_lt_Some). done.
  - (* dates *)
    intros t c Ht Hin Hc. rewrite Htm in *.
    assert (∀ d, d ≠ i →
      getTask (taskMap s) (heap s') d = getTask (taskMap s) (heap s) d) as Hget.
    { intros d Hd. rewrite Hheap, (getTask_insert _ _ _ task) by done.
      rewrite decide_False; [done|]. intros Hdl. apply Hd.
      by apply (wf_taskMap_inj h0 ts s d i l). }
    destruct (decide (tid t = i)) as [E|Hne].
    + assert (t = ti) as -> by (apply (NoDup_tid_eq ts); congruence).
      rewrite E, Hheap, (getTask_insert _ _ _ task), decide_True in Hc by done.
      injection Hc as <-. simpl.
      destruct Hstart as (floor & Hfloor & Hstart).
      split.
      * etrans; [by eapply floor_ge_start|exact Hstart].
      * intros d cd Hd Hcd.
        assert (d ∈ doneIds s) as Hdd
          by (by apply (proj1 (pending_zero (taskMap s) (doneIds s) ti) Hpi)).
        rewrite Hget in Hcd by congruence.
        eapply endsBy_le; [|exact Hstart].
        apply (floor_ge_dep _ _ _ _ _ d _ Hfloor); [|done].
        rewrite (sameStatic_depsOf _ _ Hsame).
        by apply list_elem_of_filter in Hd as [_ ?].
    + rewrite Hdone, elem_of_app, list_elem_of_singleton in Hin.
      destruct Hin as [Hin|?]; [|done].
      rewrite Hget in Hc by done.
      destruct (topo_dates _ _ _ Htopo t c Ht Hin Hc) as [Hp Hdeps].
      split; [done|]. intros d cd Hd Hcd.
      apply list_elem_of_lookup in Hin as [j Hj].
      destruct (topo_order _ _ _ Htopo j t Ht Hj d Hd) as (k & _ & Hk).
      assert (d ≠ i) as Hdi
        by (intros ->; apply Hi_done; by eapply list_elem_of_lookup_2).
      rewrite Hget in Hcd by done. by apply (Hdeps d).
Qed.

Lemma topo_rtc h0 ts project users s s' :
  NoDup (tid <$> ts) → wf h0 ts s → topo project ts s →
  rtc (step project users) s s' → topo project ts s'.
Proof.
  intros Hnd Hwf Htopo Hrtc. induction Hrtc as [|s s1 s2 Hstep _ IH]; [done|].
  apply IH; [by eapply wf_step|by eapply topo_step].
Qed.

Lemma topo_reachable today project h0 pts users others s :
  NoDup (tid <$> derefs h0 pts) →
  reachable today project h0 pts users others s →
  topo project (derefs h0 pts) s.
Proof.
  intros Hnd (s0 & (av & _ & ->)%initState_Ok & Hrtc).
  eapply (topo_rtc h0); [done|apply wf_init|by apply topo_init|done].
Qed.

(** ** Finite graphs: endless descent closes a cycle *)

Section descent.
Context {A : Type} `{!EqDecision A} (R : A → A → Prop).

Lemma path_reaches z c w : path R (z :: c) → w ∈ c → tc R z w.
Proof.
  revert z. induction c as [|x c IH]; intros z Hp Hw.
  - by apply elem_of_nil in Hw.
  - inversion Hp as [|? ? ? Hzx Hp']; subst.
    apply elem_of_cons in Hw as [->|Hw]; [by apply tc_once|].
    eapply tc_l; [exact Hzx|]. by apply IH.
Qed.

Lemma path_app_r c1 x c : path R (c1 ++ x :: c) → path R (x :: c).
Proof.
  induction c1 as [|y c1 IH]; [done|]. simpl. intros Hp.
  apply IH. inversion Hp as [? E1|? ? ? _ Hp' E1].
  - by destruct c1.
  - done.
Qed.

Lemma not_NoDup_split (c : list A) :
  ¬ NoDup c → ∃ z c1 c2 c3, c = c1 ++ z :: c2 ++ z :: c3.
Proof.
  induction c as [|x c IH]; intros Hn.
  - destruct Hn. constructor.
  - destruct (decide (x ∈ c)) as [Hin|Hnin].
    + apply list_elem_of_split in Hin as (c2 & c3 & ->). by exists x, [], c2, c3.
    + destruct IH as (z & c1 & c2 & c3 & ->).
      { intros Hnd. apply Hn. by constructor. }
      by exists z, (x :: c1), c2, c3.
Qed.

Lemma descent_cycle (univ : list A) (U : A → Prop) :
  (∀ x, U x → x ∈ univ) →
  (∀ x, U x → ∃ y, U y ∧ R y x) →
  ∀ x, U x → ∃ z, tc R z z.
Proof.
  intros Hfin Hpred x Hx.
  assert (∀ n : nat, ∃ c, length c = S n ∧ path R c ∧ Forall U c) as Hchain.
  { induction n as [|n (c & Hlen & Hp & HU)].
    - exists [x]. repeat split; [constructor|by constructor].
    - destruct c as [|y0 c]; [done|].
      apply Forall_cons in HU as [Hy0 HU].
      destruct (Hpred y0 Hy0) as (y & Hy & Hyy0).
      exists (y :: y0 :: c). split; [simpl in *; lia|].
      split; [by constructor|]. by repeat constructor. }
  destruct (Hchain (length univ)) as (c & Hlen & Hp & HU).
  destruct (not_NoDup_split c) as (z & c1 & c2 & c3 & ->).
  { intros Hnd. assert (length c ≤ length univ)%nat; [|lia].
    apply submseteq_length, NoDup_submseteq; [done|].
    intros y Hy. apply Hfin. rewrite Forall_forall in HU. by apply HU. }
  exists z. apply (path_reaches z (c2 ++ z :: c3)).
  - by apply path_app_r in Hp.
  - apply elem_of_app. right. left.
Qed.
End descent.

(** ** What the returned lists contain *)

Lemma out_getTask h0 ts s c :
  wf h0 ts s → c ∈ derefs (heap s) (optimized s) →
  getTask (taskMap s) (heap s) (tid c) = Some c.
Proof.
  intros Hwf (l & Hl & Hc)%elem_of_derefs.
  pose proof (wf_optimized _ _ _ Hwf) as Hopt. rewrite Forall_forall in Hopt.
  destruct (Hopt l Hl) as [i Hi].
  destruct (wf_taskMap _ _ _ Hwf _ _ Hi) as (_ & c' & Hc' & <-).
  assert (c' = c) as -> by congruence. unfold getTask. by rewrite Hi.
Qed.

Lemma out_source h0 ts s c :
  wf h0 ts s → c ∈ derefs (heap s) (optimized s) →
  ∃ t, t ∈ ts ∧ sameStatic t c.
Proof.
  intros Hwf (l & Hl & Hc)%elem_of_derefs.
  pose proof (wf_optimized _ _ _ Hwf) as Hopt. rewrite Forall_forall in Hopt.
  destruct (Hopt l Hl) as [i Hi].
  destruct (wf_taskMap _ _ _ Hwf _ _ Hi) as (Hge & _).
  by apply (wf_clone _ _ _ Hwf l).
Qed.

Lemma done_out s i :
  i ∈ doneIds s ↔ ∃ c, c ∈ derefs (heap s) (optimized s) ∧ tid c = i.
Proof.
  unfold doneIds. rewrite list_elem_of_fmap. split; intros (c & ? & ?); eauto.
Qed.

Lemma optimized_valid h0 ts s :
  wf h0 ts s → length (derefs (heap s) (optimized s)) = length (optimized s).
Proof.
  intros Hwf. pose proof (wf_optimized _ _ _ Hwf) as Hopt.
  unfold derefs. induction Hopt as [|l ls [i Hi] _ IH]; csimpl; [done|].
  destruct (wf_taskMap _ _ _ Hwf _ _ Hi) as (_ & c & -> & _). simpl.
  by rewrite IH.
Qed.

Lemma presentDeps_spec h0 ts s t d :
  wf h0 ts s →
  d ∈ presentDeps (taskMap s) t ↔ d ∈ depsOf t ∧ d ∈ tid <$> ts.
Proof.
  intros Hwf. unfold presentDeps. rewrite list_elem_of_filter, list_elem_of_fmap.
  split.
  - intros [[l Hl] Hd]. split; [done|].
    destruct (wf_key_task _ _ _ _ _ Hwf Hl) as (t' & ? & ?). eauto.
  - intros [Hd (t' & -> & Ht')]. split; [|done]. by apply (wf_known _ _ _ Hwf).
Qed.

Lemma doneIds_known h0 ts s i :
  wf h0 ts s → i ∈ doneIds s → i ∈ tid <$> ts.
Proof.
  intros Hwf (c & Hc & <-)%done_out.
  destruct (out_source _ _ _ _ Hwf Hc) as (t & Ht & Hst).
  rewrite (sameStatic_tid _ _ Hst). apply list_elem_of_fmap. eauto.
Qed.

(** Dependencies are processed before their dependents. *)
Lemma depEdge_before h0 ts project s a b :
  wf h0 ts s → topo project ts s →
  depEdge ts a b → b ∈ doneIds s → before (doneIds s) a b.
Proof.
  intros Hwf Htopo (t & Ht & <- & Ha & Hin) (j & Hj)%list_elem_of_lookup.
  destruct (topo_order _ _ _ Htopo j t Ht Hj a) as (i & Hi & Hia).
  { by apply (presentDeps_spec h0 ts s). }
  by exists i, j.
Qed.

Lemma before_trans {A} (l : list A) a b c :
  NoDup l → before l a b → before l b c → before l a c.
Proof.
  intros Hnd (i & j & Hi & Hj & Hij) (j' & k & Hj' & Hk & Hjk).
  assert (j = j') as <- by (by eapply NoDup_lookup).
  exists i, k. split; [done|]. split; [done|]. lia.
Qed.

Lemma before_irrefl {A} (l : list A) a : NoDup l → ¬ before l a a.
Proof.
  intros Hnd (i & j & Hi & Hj & Hij).
  assert (i = j) by (by eapply NoDup_lookup). lia.
Qed.

Lemma before_elem_of_l {A} (l : list A) a b : before l a b → a ∈ l.
Proof. intros (i & j & Hi & _). by eapply list_elem_of_lookup_2. Qed.

Lemma tc_depEdge_before h0 ts project s a b :
  wf h0 ts s → topo project ts s →
  tc (depEdge ts) a b → b ∈ doneIds s → before (doneIds s) a b.
Proof.
  intros Hwf Htopo Htc. induction Htc as [a b Hab|a m b Ham _ IH]; intros Hb.
  - by eapply depEdge_before.
  - specialize (IH Hb).
    assert (NoDup (doneIds s)) as Hnd.
    { pose proof (topo_nodup _ _ _ Htopo) as Hn.
      by apply NoDup_app in Hn as (_ & _ & ?). }
    eapply before_trans; [done| |exact IH].
    eapply depEdge_before; [done..|]. by eapply before_elem_of_l.
Qed.

(** On an acyclic graph nothing is left behind. *)
Lemma acyclic_all_done h0 ts project s :
  NoDup (tid <$> ts) → wf h0 ts s → topo project ts s → queue s = [] →
  acyclic ts → ∀ t, t ∈ ts → tid t ∈ doneIds s.
Proof.
  intros Hnd Hwf Htopo Hq Hacyc t0 Ht0.
  destruct (decide (tid t0 ∈ doneIds s)) as [|Hnot]; [done|]. exfalso.
  destruct (descent_cycle (depEdge ts) (tid <$> ts)
              (λ x, x ∈ tid <$> ts ∧ x ∉ doneIds s)) with (x := tid t0)
    as [z Hz].
  - by intros x [? _].
  - intros x [(t & -> & Ht)%list_elem_of_fmap Hx].
    assert (pending (taskMap s) (doneIds s) t ≠ 0) as Hp.
    { intros Hp. apply Hx. apply (topo_ready _ _ _ Htopo t Ht) in Hp.
      by rewrite Hq in Hp. }
    rewrite pending_zero in Hp.
    assert (Exists (λ d, d ∉ doneIds s) (presentDeps (taskMap s) t)) as Hex.
    { apply not_Forall_Exists; [apply _|]. rewrite Forall_forall.
      intros Hall. apply Hp. intros d Hd. specialize (Hall d Hd).
      by destruct (decide (d ∈ doneIds s)). }
    apply Exists_exists in Hex as (d & Hd & Hdn).
    apply (presentDeps_spec h0 ts s) in Hd as [Hd Hdin]; [|done].
    exists d. split; [done|]. by exists t.
  - split; [|done]. apply list_elem_of_fmap. eauto.
  - by apply (Hacyc z).
Qed.

(** ** The call returns *)

(** A call returns or raises: the fuel of the model never runs out. *)
Lemma scheduleProject_returns today project h0 pts users others :
  scheduleProject today project h0 pts users others = Throw
  ∨ ∃ s, reachable today project h0 pts users others s ∧ queue s = []
         ∧ scheduleProject today project h0 pts users others
           = Ok (mkResult (optimized s) (conflictLog s) ∅, heap s).
Proof.
  unfold scheduleProject.
  destruct (run_returns today project h0 pts users others)
    as [->|(s & Hrun & Hr & Hq)]; [by left|].
  right. exists s. split; [done|]. split; [done|]. by rewrite Hrun.
Qed.

Lemma scheduleProject_fuel today project h0 pts users others :
  scheduleProject today project h0 pts users others ≠ OutOfFuel.
Proof.
  by destruct (scheduleProject_returns today project h0 pts users others)
    as [->|(s & _ & _ & ->)].
Qed.

(** What a call returns comes from a state of the loop whose queue is
    empty. *)
Lemma scheduleProject_final today project h0 pts users others r h' :
  scheduleProject today project h0 pts users others = Ok (r, h') →
  ∃ s, reachable today project h0 pts users others s ∧ queue s = []
       ∧ r = mkResult (optimized s) (conflictLog s) ∅ ∧ h' = heap s.
Proof.
  unfold scheduleProject.
  destruct (run today project h0 pts users others) as [s| |] eqn:Hrun;
    [|done..].
  apply run_Ok in Hrun as [Hr Hq]. simpl. intros [= <- <-]. by exists s.
Qed.

(** A ranking of the ids that every edge increases shows that the graph has
    no cycle. *)
Lemma ranked_acyclic (ts : list Task) (rank : string → nat) :
  Forall (λ t, Forall (λ d, d ∈ tid <$> ts → (rank d < rank (tid t))%nat)
                      (depsOf t)) ts →
  acyclic ts.
Proof.
  intros Hrank.
  assert (∀ a b, tc (depEdge ts) a b → (rank a < rank b)%nat) as Htc.
  { induction 1 as [a b Hab|a m b Ham _ IH].
    - destruct Hab as (t & Ht & <- & Ha & Hin).
      rewrite Forall_forall in Hrank. specialize (Hrank t Ht).
      rewrite Forall_forall in Hrank. by apply Hrank.
    - destruct Ham as (t & Ht & <- & Ha & Hin).
      rewrite Forall_forall in Hrank. specialize (Hrank t Ht).
      rewrite Forall_forall in Hrank. specialize (Hrank a Ha Hin). lia. }
  intros x Hx. specialize (Htc x x Hx). lia.
Qed.

(** ** C7: the caller's objects are left alone *)

(** C7. When the call returns, the part of the store that holds the
    caller's objects is the same as before the call, and it is the same in
    every state of the call, so that every write went to a clone; every
    entry of [optimizedTasks] refers to an object that did not exist before
    the call, whose fields are those of an input task up to [startDate] and
    [assignedTo].  (The project and the users are values the engine only
    reads: the source has no assignment to one of their fields.) *)
Theorem caller_objects_untouched today project h0 projectTasks allUsers
    existingGlobalTasks r h' :
  scheduleProject today project h0 projectTasks allUsers existingGlobalTasks
  = Ok (r, h') →
  take (length h0) h' = h0
  ∧ (∀ s, reachable today project h0 projectTasks allUsers existingGlobalTasks s →
          take (length h0) (heap s) = h0)
  ∧ Forall (λ l, (length h0 ≤ l)%nat
                 ∧ ∃ t0 c, t0 ∈ derefs h0 projectTasks ∧ h' !! l = Some c
                           ∧ sameStatic t0 c)
           (optimizedTasks r).
Proof.
  intros (s & Hr & Hq & -> & ->)%scheduleProject_final.
  pose proof (wf_reachable _ _ _ _ _ _ _ Hr) as Hwf. simpl.
  split; [apply Hwf|]. split.
  - intros s1 Hs1. by apply (wf_reachable _ _ _ _ _ _ _ Hs1).
  - pose proof (wf_optimized _ _ _ Hwf) as Hopt.
    eapply Forall_impl; [exact Hopt|]. intros l [i Hi]. simpl.
    destruct (wf_taskMap _ _ _ Hwf _ _ Hi) as (Hge & c & Hc & _).
    split; [done|].
    destruct (wf_clone _ _ _ Hwf _ _ Hge Hc) as (t0 & Ht0 & Hst). eauto.
Qed.

(** ** C1: dependency ordering and project floor *)






(** ** C6: failure semantics *)

Lemma step_queue_nonempty project users s s' :
  step project users s s' → queue s ≠ [].
Proof. intros (i & rest & -> & _). done. Qed.

Lemma rtc_step_stuck project users s s' :
  queue s = [] → rtc (step project users) s s' → s' = s.
Proof.
  intros Hq Hrtc. destruct Hrtc as [|s s1 s2 Hstep _]; [done|].
  by apply step_queue_nonempty in Hstep.
Qed.

(** ** Induction over the states of a call *)

Lemma reachable_ind (P : State → Prop) today project h0 pts users others :
  (∀ av, initState today project h0 pts users others
         = Ok (loopEntry h0 pts av) → P (loopEntry h0 pts av)) →
  (∀ s s', reachable today project h0 pts users others s →
           step project users s s' → P s → P s') →
  ∀ s, reachable today project h0 pts users others s → P s.
Proof.
  intros Hinit Hstep s (s0 & Hs0 & Hrtc). revert s Hrtc. apply rtc_ind_r.
  - pose proof Hs0 as (av & _ & ->)%initState_Ok. by apply Hinit.
  - intros s s1 Hrtc Hs IH. apply (Hstep s); [by exists s0|done|done].
Qed.

Lemma reachable_init today project h0 pts users others s :
  initState today project h0 pts users others = Ok s →
  reachable today project h0 pts users others s.
Proof. intros Hs. by exists s. Qed.

Lemma reachable_step today project h0 pts users others s s' :
  reachable today project h0 pts users others s → step project users s s' →
  reachable today project h0 pts users others s'.
Proof. intros (s0 & ? & ?) ?. exists s0. split; [done|]. by eapply rtc_r. Qed.

(** ** Staffing conflicts *)

Lemma candidatesFor_nil users av x :
  candidatesFor users av x = [] ↔ capable users x = [].
Proof.
  unfold candidatesFor, capable. split; intros E.
  - apply length_zero_iff_nil. rewrite <-(sortBy_length (candCmp av)), E. done.
  - by rewrite E.
Qed.

Lemma chooseUser_conflicts users av task floor :
  (chooseUser users av task floor).2 = conflictOf users task.
Proof.
  unfold chooseUser, conflictOf. destruct (truthy (requiredSpecialty task)); [|done].
  destruct (candidatesFor users av _) as [|c0 cs] eqn:Hc.
  - apply candidatesFor_nil in Hc. by rewrite Hc.
  - destruct (capable users _) as [|u us] eqn:Hu.
    + apply (proj2 (candidatesFor_nil users av _)) in Hu. congruence.
    + by destruct (existsb _ _ && _).
Qed.

Lemma chooseUser_unstaffed users av task floor :
  conflictOf users task ≠ [] →
  (chooseUser users av task floor).1 = assignedTo task.
Proof.
  unfold chooseUser, conflictOf. destruct (truthy (requiredSpecialty task)); [|done].
  destruct (capable users _) as [|u us] eqn:Hu; [|done]. intros _.
  apply (proj2 (candidatesFor_nil users av _)) in Hu. by rewrite Hu.
Qed.

Lemma bookUser_keep project av task floor bk :
  bookUser project av task floor (assignedTo task) = Some bk →
  bk.2 = assignedTo task.
Proof.
  unfold bookUser. destruct (assignedTo task) as [a|]; [|by intros [= <-]].
  destruct (truthy (Some a)); [|by intros [= <-]].
  destruct (addDays _ _); [|done]. by intros [= <-].
Qed.

Lemma conflictOf_static users t0 t :
  sameStatic t0 t → conflictOf users t = conflictOf users t0.
Proof. by intros ->. Qed.

Lemma conflictOf_scheduled users t d a :
  conflictOf users (scheduled t d a) = conflictOf users t.
Proof. done. Qed.

Lemma keepsAssignee_init users h0 pts av :
  keepsAssignee users h0 (derefs h0 pts) (loopEntry h0 pts av).
Proof.
  destruct (init_unfold h0 pts av) as (Hh & _).
  intros l t Hl. rewrite Hh. rewrite lookup_app_r by lia. intros Ht.
  exists t. split; [by eapply list_elem_of_lookup_2|].
  split; [apply sameStatic_refl|done].
Qed.

Lemma keepsAssignee_step users h0 ts project s s' :
  keepsAssignee users h0 ts s → step project users s s' →
  keepsAssignee users h0 ts s'.
Proof.
  intros Hk (i & rest & l & task & floor & bk & Hq & Hl & Htask & Hfloor & Hbk & ->)%step_inv l' t Hl'.
  simpl. destruct (decide (l' = l)) as [->|Hne].
  - rewrite list_lookup_insert_eq by (by eapply lookup_lt_Some). intros [= <-].
    destruct (Hk l task Hl' Htask) as (t0 & Ht0 & Hst & Hkeep).
    exists t0. split; [done|]. split; [by apply sameStatic_scheduled|].
    intros Hc. simpl. rewrite chooseUser_unstaffed in Hbk
      by (by rewrite (conflictOf_static users t0 task)).
    rewrite (bookUser_keep _ _ _ _ _ Hbk). by apply Hkeep.
  - rewrite list_lookup_insert_ne by done. by apply Hk.
Qed.

Lemma keepsAssignee_reachable today project h0 pts users others s :
  reachable today project h0 pts users others s →
  keepsAssignee users h0 (derefs h0 pts) s.
Proof.
  revert s. apply reachable_ind; [intros av _; apply keepsAssignee_init|].
  intros s s' _ Hstep IH. by eapply keepsAssignee_step.
Qed.

Lemma flat_map_conflictOf_insert users (h : Heap) l task d a refs :
  h !! l = Some task →
  flat_map (conflictOf users) (derefs (<[l := scheduled task d a]> h) refs)
  = flat_map (conflictOf users) (derefs h refs).
Proof.
  intros Hl. unfold derefs. induction refs as [|r refs IH]; csimpl; [done|].
  destruct (decide (r = l)) as [->|Hne].
  - rewrite list_lookup_insert_eq by (by eapply lookup_lt_Some). rewrite Hl.
    simpl. by rewrite IH.
  - rewrite list_lookup_insert_ne by done. destruct (h !! r); simpl; by rewrite IH.
Qed.

Lemma conflictLog_reachable today project h0 pts users others s :
  reachable today project h0 pts users others s →
  conflictLog s = flat_map (conflictOf users) (derefs (heap s) (optimized s)).
Proof.
  revert s. apply reachable_ind.
  - intros av _. by destruct (init_unfold h0 pts av)
      as (_ & _ & _ & _ & _ & -> & -> & _).
  - intros s s' _ Hstep IH. apply step_inv in Hstep as (i & rest & l & task & floor & bk & Hq & Hl & Htask & Hfloor & Hbk & ->).
    simpl. rewrite derefs_snoc, flat_map_app.
    rewrite (flat_map_conflictOf_insert _ _ _ task) by done.
    rewrite list_lookup_insert_eq by (by eapply lookup_lt_Some). simpl.
    by rewrite app_nil_r, chooseUser_conflicts, IH.
Qed.

Lemma string_app_assoc (a b c : string) :
  ((a +:+ b) +:+ c = a +:+ (b +:+ c))%string.
Proof.
  induction a as [|ch a IH]; [done|].
  change (String ch ((a +:+ b) +:+ c) = String ch (a +:+ (b +:+ c)))%string.
  by rewrite IH.
Qed.

Lemma mentions_specialty x n : mentions (conflictMessage x n) x.
Proof. unfold mentions, conflictMessage. by eexists _, _. Qed.

Lemma mentions_name x n : mentions (conflictMessage x n) n.
Proof.
  unfold mentions, conflictMessage.
  exists ("Falta perfil: " +:+ x +:+ " para tarea "
          +:+ String (Ascii.ascii_of_nat 34) EmptyString)%string,
         (String (Ascii.ascii_of_nat 34) EmptyString).
  by rewrite 3!string_app_assoc.
Qed.

Lemma capable_nil users x :
  capable users x = [] ↔ ∀ u, u ∈ users → ¬ (x ∈ specialties u ∨ role u = x).
Proof.
  unfold capable. induction users as [|u users IH]; simpl.
  - split; [by intros _ u ?%elem_of_nil|done].
  - unfold satisfies at 1.
    destruct (decide (x ∈ specialties u)) as [Hs|Hs];
      [rewrite (bool_decide_eq_true_2 _ Hs)|rewrite (bool_decide_eq_false_2 _ Hs)];
      simpl.
    + split; [done|]. intros H. destruct (H u); [left|by left].
    + destruct (decide (role u = x)) as [Hr|Hr];
        [rewrite (bool_decide_eq_true_2 _ Hr)|rewrite (bool_decide_eq_false_2 _ Hr)].
      * split; [done|]. intros H. destruct (H u); [left|by right].
      * rewrite IH. split.
        -- intros H u' [->|Hu']%elem_of_cons; [tauto|by apply H].
        -- intros H u' Hu'. apply H. by right.
Qed.

(** X1. When the call returns, [conflicts] holds exactly the entries
    [conflictOf] of the tasks of [optimizedTasks], in their order: every
    iteration of the loop pushes its task and appends the entries of that
    task.  For a task that declares a specialty X, these entries are the one
    message, which mentions the task's name and X, when no user has X among
    the specialties or as role, and then the task is in [optimizedTasks] with
    the assignee of the input task; they are empty when a user satisfies
    X. *)
Theorem conflict_correctness today project h0 projectTasks allUsers
    existingGlobalTasks r h' :
  scheduleProject today project h0 projectTasks allUsers existingGlobalTasks
  = Ok (r, h') →
  conflicts r = flat_map (conflictOf allUsers) (derefs h' (optimizedTasks r))
  ∧ (∀ s s',
       reachable today project h0 projectTasks allUsers existingGlobalTasks s →
       step project allUsers s s' →
       ∃ l c, optimized s' = optimized s ++ [l] ∧ heap s' !! l = Some c
              ∧ conflictLog s' = conflictLog s ++ conflictOf allUsers c)
  ∧ ∀ c x, c ∈ derefs h' (optimizedTasks r) →
      requiredSpecialty c = Some x → x ≠ EmptyString →
      ((∀ u, u ∈ allUsers → ¬ (x ∈ specialties u ∨ role u = x)) →
       conflictOf allUsers c = [conflictMessage x (name c)]
       ∧ mentions (conflictMessage x (name c)) (name c)
       ∧ mentions (conflictMessage x (name c)) x
       ∧ ∃ t0, t0 ∈ derefs h0 projectTasks
               ∧ c = scheduled t0 (startDate c) (assignedTo t0))
      ∧ ((∃ u, u ∈ allUsers ∧ (x ∈ specialties u ∨ role u = x)) →
         conflictOf allUsers c = []).
Proof.
  intros (s & Hr & Hq & -> & ->)%scheduleProject_final. simpl.
  pose proof (wf_reachable _ _ _ _ _ _ _ Hr) as Hwf.
  split; [by apply (conflictLog_reachable today project h0 projectTasks _ existingGlobalTasks)|].
  split.
  - intros s1 s2 _ (i & rest & l & task & floor & bk & _ & Hl & Htask & Hfloor & Hbk & ->)%step_inv. simpl.
    eexists l, _. split; [done|].
    rewrite list_lookup_insert_eq by (by eapply lookup_lt_Some).
    split; [done|]. by rewrite chooseUser_conflicts, conflictOf_scheduled.
  - intros c x Hc Hx Hne.
    assert (truthy (requiredSpecialty c) = true) as Htr.
    { rewrite Hx. simpl. by rewrite bool_decide_eq_false_2. }
    split.
    + intros Hnone. apply (proj2 (capable_nil allUsers x)) in Hnone.
      assert (conflictOf allUsers c = [conflictMessage x (name c)]) as Hcf.
      { unfold conflictOf. rewrite Htr, Hx. simpl. by rewrite Hnone. }
      split; [done|]. split; [apply mentions_name|]. split; [apply mentions_specialty|].
      apply elem_of_derefs in Hc as (l & Hl & Hc).
      pose proof (wf_optimized _ _ _ Hwf) as Hopt. rewrite Forall_forall in Hopt.
      destruct (Hopt l Hl) as [i Hi].
      destruct (wf_taskMap _ _ _ Hwf _ _ Hi) as (Hge & _).
      destruct (keepsAssignee_reachable _ _ _ _ _ _ _ Hr l c Hge Hc)
        as (t0 & Ht0 & Hst & Hkeep).
      exists t0. split; [done|]. rewrite <-Hkeep; [exact Hst|].
      rewrite <-(conflictOf_static allUsers t0 c Hst), Hcf. done.
    + intros (u & Hu & Hsat). unfold conflictOf. rewrite Htr, Hx. simpl.
      destruct (capable allUsers x) as [|u' us] eqn:Hcap; [|done].
      pose proof (proj1 (capable_nil allUsers x) Hcap u Hu) as Hno. by destruct Hno.
Qed.

(** ** The assignment rule *)

Lemma candCmp_key av u1 u2 :
  candCmp av u1 u2 = (λ u, availOf av (uid u)) u1 - (λ u, availOf av (uid u)) u2.
Proof. done. Qed.

Lemma elem_of_candidatesFor users av x u :
  u ∈ candidatesFor users av x ↔ u ∈ capable users x.
Proof. apply elem_of_sortBy. Qed.

Lemma elem_of_capable users x u :
  u ∈ capable users x ↔ u ∈ users ∧ (x ∈ specialties u ∨ role u = x).
Proof.
  unfold capable. rewrite list_elem_of_In, filter_In, <-list_elem_of_In.
  unfold satisfies. rewrite orb_true_iff, !bool_decide_eq_true. done.
Qed.

Lemma keepsCurrent_bool users av task floor x c0 cs :
  candidatesFor users av x = c0 :: cs →
  existsb (λ c, bool_decide (Some (uid c) = assignedTo task)) (c0 :: cs)
  && (availOf av (default EmptyString (assignedTo task)) <=? floor) = true
  ↔ keepsCurrent users av task floor x.
Proof.
  intros Hc. unfold keepsCurrent.
  rewrite andb_true_iff, existsb_exists, Z.leb_le.
  apply and_iff_compat_r. split.
  - intros (c & Hin & Hb). exists c. apply bool_decide_eq_true in Hb.
    split; [|done]. apply (elem_of_candidatesFor users av). rewrite Hc.
    by apply list_elem_of_In.
  - intros (c & Hin & Hb). exists c. split.
    + apply list_elem_of_In. rewrite <-Hc. by apply elem_of_candidatesFor.
    + by apply bool_decide_eq_true.
Qed.

Lemma truthy_Some x : x ≠ EmptyString → truthy (Some x) = true.
Proof. intros Hx. simpl. by rewrite bool_decide_eq_false_2. Qed.

Lemma chooseUser_candidates users av task floor x c0 cs :
  requiredSpecialty task = Some x → x ≠ EmptyString →
  candidatesFor users av x = c0 :: cs →
  (keepsCurrent users av task floor x →
   (chooseUser users av task floor).1 = assignedTo task)
  ∧ (¬ keepsCurrent users av task floor x →
     (chooseUser users av task floor).1 = Some (uid c0)).
Proof.
  intros Hx Hne Hc. unfold chooseUser. rewrite Hx, (truthy_Some x Hne).
  change (default EmptyString (Some x)) with x.
  rewrite Hc. pose proof (keepsCurrent_bool users av task floor x c0 cs Hc) as Hk.
  destruct (existsb _ (c0 :: cs) && _); cbn [fst].
  - split; [done|]. intros Hn. destruct Hn. by apply Hk.
  - split; [|done]. intros Hy. apply Hk in Hy. done.
Qed.

Lemma bookUser_assigned project av task floor best bk :
  bookUser project av task floor best = Some bk →
  bk.2 = if truthy best then best else assignedTo task.
Proof.
  unfold bookUser. destruct best as [b|]; [|by intros [= <-]].
  destruct (truthy (Some b)); [|by intros [= <-]].
  destruct (addDays _ _); [|done]. by intros [= <-].
Qed.

Lemma step_clone project users s s' i rest l task :
  step project users s s' → queue s = i :: rest →
  taskMap s !! i = Some l → heap s !! l = Some task →
  ∃ floor bk,
    dependencyEarliestStart project (taskMap s) (heap s) task = Some floor
    ∧ bookUser project (userAvailability s) task floor
        (chooseUser users (userAvailability s) task floor).1 = Some bk
    ∧ heap s' !! l = Some (scheduled task bk.1.1 bk.2)
    ∧ userAvailability s' = bk.1.2
    ∧ optimized s' = optimized s ++ [l].
Proof.
  intros (i' & rest' & l' & task' & floor & bk & Hq & Hl & Htask & Hfloor & Hbk & ->)%step_inv Hq' Hl' Htask'.
  rewrite Hq in Hq'. injection Hq' as -> ->.
  rewrite Hl in Hl'. injection Hl' as ->.
  rewrite Htask in Htask'. injection Htask' as ->. simpl.
  exists floor, bk. split; [done|]. split; [done|].
  split; [|done]. apply list_lookup_insert_eq. by eapply lookup_lt_Some.
Qed.

(** X2. For every processed task whose required specialty has
    candidates, with the dependency floor that the step computed: under the
    keep condition the task keeps its assignee;
    otherwise the first candidate of the sorted list is chosen, and the task
    is assigned to it when its id is not empty (an empty id assigns nobody:
    the task keeps its assignee).  That first candidate has the earliest
    next-free date, and is the first such candidate of the roster. *)
Theorem assignment_rule today project h0 projectTasks allUsers
    existingGlobalTasks s s' i rest l task x c0 cs task' :
  reachable today project h0 projectTasks allUsers existingGlobalTasks s →
  step project allUsers s s' →
  queue s = i :: rest → taskMap s !! i = Some l → heap s !! l = Some task →
  requiredSpecialty task = Some x → x ≠ EmptyString →
  candidatesFor allUsers (userAvailability s) x = c0 :: cs →
  heap s' !! l = Some task' →
  ∃ floor,
    dependencyEarliestStart project (taskMap s) (heap s) task = Some floor
    ∧ (keepsCurrent allUsers (userAvailability s) task floor x →
       assignedTo task' = assignedTo task)
    ∧ (¬ keepsCurrent allUsers (userAvailability s) task floor x →
       (uid c0 ≠ EmptyString → assignedTo task' = Some (uid c0))
       ∧ (uid c0 = EmptyString → assignedTo task' = assignedTo task))
    ∧ ∃ pre post,
        capable allUsers x = pre ++ c0 :: post
        ∧ Forall (λ u, availOf (userAvailability s) (uid c0)
                       < availOf (userAvailability s) (uid u)) pre
        ∧ Forall (λ u, availOf (userAvailability s) (uid c0)
                       ≤ availOf (userAvailability s) (uid u)) post.
Proof.
  intros Hr Hstep Hq Hl Htask Hx Hne Hc Htask'.
  destruct (step_clone _ _ _ _ _ _ _ _ Hstep Hq Hl Htask)
    as (floor & bk & Hfloor & Hbk & Hh & _ & _).
  exists floor. split; [done|].
  rewrite Htask' in Hh. injection Hh as ->. simpl.
  rewrite (bookUser_assigned _ _ _ _ _ _ Hbk).
  destruct (chooseUser_candidates allUsers (userAvailability s) task floor
              x c0 cs Hx Hne Hc) as [Hkeep Hother].
  split; [|split].
  - intros Hk. rewrite (Hkeep Hk). by destruct (truthy (assignedTo task)).
  - intros Hk. rewrite (Hother Hk). split.
    + intros Hid. by rewrite (truthy_Some _ Hid).
    + intros ->. done.
  - apply (sortBy_head _ _ (candCmp_key (userAvailability s)) _ _ cs). exact Hc.
Qed.

(** ** A user's tasks do not overlap *)

Lemma bookUser_cases project av task floor best bk :
  bookUser project av task floor best = Some bk →
  (∃ b e, best = Some b ∧ b ≠ EmptyString
          ∧ addDays (maxDate floor (default (pStartDate project) (av !! b)))
                    (duration task) = Some e
          ∧ bk = (maxDate floor (default (pStartDate project) (av !! b)),
                  <[b := e]> av, Some b))
  ∨ (truthy best = false ∧ bk = (floor, av, assignedTo task)).
Proof.
  unfold bookUser. destruct best as [b|]; [|intros [= <-]; by right].
  destruct (truthy (Some b)) eqn:Ht; [|intros [= <-]; by right].
  destruct (addDays _ _) as [e|] eqn:He; [|done]. intros [= <-].
  left. exists b, e. split; [done|]. split; [|done].
  simpl in Ht. intros ->. by rewrite bool_decide_eq_true_2 in Ht.
Qed.

(** [if (bestUser)] raises exactly when [addDays] has no end date for the
    task at its start date. *)
Lemma bookUser_None project av task floor best :
  bookUser project av task floor best = None ↔
  ∃ b, best = Some b ∧ b ≠ EmptyString
       ∧ addDays (maxDate floor (default (pStartDate project) (av !! b)))
                 (duration task) = None.
Proof.
  unfold bookUser. destruct best as [b|]; [|split; [done|by intros (? & ? & _)]].
  destruct (truthy (Some b)) eqn:Ht.
  - destruct (addDays _ _) as [e|] eqn:He.
    + split; [done|]. intros (? & [= <-] & _ & ?). congruence.
    + split; [|done]. intros _. exists b. split; [done|]. split; [|done].
      simpl in Ht. intros ->. by rewrite bool_decide_eq_true_2 in Ht.
  - split; [done|]. intros (? & [= <-] & Hne & _).
    simpl in Ht. by rewrite bool_decide_eq_false_2 in Ht.
Qed.


Lemma truthy_Some_inv u : truthy (Some u) = false → u = EmptyString.
Proof.
  simpl. destruct (decide (u = EmptyString)) as [->|Hne]; [done|].
  by rewrite bool_decide_eq_false_2.
Qed.


(** What a step does, in the two cases of [if (bestUser)]. *)
Lemma step_booking h0 ts project users s s' :
  wf h0 ts s → step project users s s' →
  ∃ i rest l task start assigned,
    queue s = i :: rest ∧ taskMap s !! i = Some l ∧ heap s !! l = Some task
    ∧ (l < length (heap s))%nat
    ∧ (∃ t0, t0 ∈ ts ∧ sameStatic t0 task)
    ∧ heap s' = <[l := scheduled task start assigned]> (heap s)
    ∧ optimized s' = optimized s ++ [l]
    ∧ ∃ floor,
        dependencyEarliestStart project (taskMap s) (heap s) task = Some floor
        ∧ let best := (chooseUser users (userAvailability s) task floor).1 in
          (∃ b e, best = Some b ∧ b ≠ EmptyString ∧ assigned = Some b
                  ∧ start = maxDate floor
                              (default (pStartDate project)
                                 (userAvailability s !! b))
                  ∧ addDays start (duration task) = Some e
                  ∧ userAvailability s' = <[b := e]> (userAvailability s))
          ∨ (truthy best = false ∧ assigned = assignedTo task ∧ start = floor
             ∧ userAvailability s' = userAvailability s).
Proof.
  intros Hwf (i & rest & l & task & floor & bk & Hq & Hl & Htask & Hfloor & Hbk & ->)%step_inv.
  eexists i, rest, l, task, _, _. simpl.
  split; [done|]. split; [done|]. split; [done|].
  split; [by eapply lookup_lt_Some|]. split.
  { destruct (wf_taskMap _ _ _ Hwf _ _ Hl) as (Hge & _).
    by apply (wf_clone _ _ _ Hwf l). }
  split; [done|]. split; [done|]. exists floor. split; [done|].
  destruct (bookUser_cases _ _ _ _ _ _ Hbk) as [(b & e & Hb & Hne & He & ->)|[Hf ->]];
    simpl.
  - left. exists b, e. by rewrite Hb.
  - right. done.
Qed.

Lemma endDate_scheduled task start assigned :
  endDate (scheduled task start assigned) = addDays start (duration task).
Proof. done. Qed.



Lemma fresh_loc h0 ts project s i rest l :
  wf h0 ts s → topo project ts s → queue s = i :: rest →
  taskMap s !! i = Some l → l ∉ optimized s.
Proof.
  intros Hwf Htopo Hq Hl Hin.
  destruct (wf_taskMap _ _ _ Hwf _ _ Hl) as (_ & task & Htask & Hid).
  pose proof (topo_nodup _ _ _ Htopo) as Hnd. rewrite Hq in Hnd.
  simpl in Hnd. apply NoDup_cons in Hnd as [Hnin _]. apply Hnin.
  apply elem_of_app. right. apply done_out. exists task. split; [|done].
  apply elem_of_derefs. eauto.
Qed.




(** ** Assignees that are not in the roster *)

Lemma seed_lookup today users a :
  fold_left (seedUser today) users ∅ !! a
  = if decide (a ∈ uid <$> users) then Some today else None.
Proof.
  induction users as [|u users IH] using rev_ind.
  - cbn [fold_left]. rewrite lookup_empty. case_decide as H; [|done].
    rewrite fmap_nil in H. by apply elem_of_nil in H.
  - rewrite fold_left_app, fmap_app. cbn [fold_left]. unfold seedUser at 1.
    destruct (decide (uid u = a)) as [<-|Hne].
    + rewrite lookup_insert_eq, decide_True; [done|].
      apply elem_of_app. right. rewrite list_fmap_singleton. left.
    + rewrite lookup_insert_ne, IH by done.
      destruct (decide (a ∈ uid <$> users)) as [Hin|Hnin].
      * rewrite decide_True; [done|]. apply elem_of_app. by left.
      * rewrite decide_False; [done|]. rewrite elem_of_app.
        intros [?|Hin]; [done|]. rewrite list_fmap_singleton in Hin.
        apply list_elem_of_singleton in Hin. done.
Qed.

Lemma levelTask_lookup project av t av' a :
  levelTask project av t = Some av' →
  match av !! a with
  | Some e => ∃ e', av' !! a = Some e' ∧ e ≤ e'
  | None => av' !! a = None
  end.
Proof.
  unfold levelTask. destruct (assignedTo t) as [b|] eqn:Hb.
  2:{ intros [= <-]. destruct (av !! a) as [e|]; [exists e; split; [done|lia]|done]. }
  destruct (bool_decide _ && _).
  2:{ intros [= <-]. destruct (av !! a) as [e|]; [exists e; split; [done|lia]|done]. }
  destruct (av !! b) as [cur|] eqn:Hcur.
  2:{ intros [= <-]. destruct (av !! a) as [e|]; [exists e; split; [done|lia]|done]. }
  destruct (addDays _ _) as [taskEnd|]; [|done]. intros [= <-].
  destruct (decide (b = a)) as [->|Hne].
  - rewrite Hcur, lookup_insert_eq. eexists. split; [done|].
    rewrite maxDate_max. lia.
  - rewrite lookup_insert_ne by done.
    destruct (av !! a) as [e|]; [exists e; split; [done|lia]|done].
Qed.

Lemma level_lookup project ts av av' a :
  forEachM (levelTask project) ts av = Some av' →
  match av !! a with
  | Some e => ∃ e', av' !! a = Some e' ∧ e ≤ e'
  | None => av' !! a = None
  end.
Proof.
  revert av. induction ts as [|t ts IH]; intros av; simpl.
  - intros [= <-]. destruct (av !! a) as [e|]; [exists e; split; [done|lia]|done].
  - destruct (levelTask project av t) as [av1|] eqn:H1; [|done]. intros Hf.
    pose proof (levelTask_lookup project av t av1 a H1) as Ht.
    specialize (IH av1 Hf).
    destruct (av !! a) as [e|].
    + destruct Ht as (e1 & He1 & Hle). rewrite He1 in IH.
      destruct IH as (e2 & He2 & Hle2). exists e2. split; [done|lia].
    + by rewrite Ht in IH.
Qed.

Lemma init_avail today project h0 pts users others s :
  initState today project h0 pts users others = Ok s →
  forEachM (levelTask project) (derefs h0 others)
    (fold_left (seedUser today) users ∅) = Some (userAvailability s).
Proof. by intros (av & -> & ->)%initState_Ok. Qed.

Lemma chooseUser_unknown users av task floor a :
  (chooseUser users av task floor).1 = Some a → a ∉ uid <$> users →
  assignedTo task = Some a.
Proof.
  unfold chooseUser. destruct (truthy (requiredSpecialty task)); [|done].
  destruct (candidatesFor users av _) as [|c0 cs] eqn:Hc; [done|].
  destruct (existsb _ _ && _); [done|]. simpl. intros [= <-] Hnin.
  destruct Hnin. apply list_elem_of_fmap. exists c0. split; [done|].
  assert (c0 ∈ candidatesFor users av (default EmptyString (requiredSpecialty task)))
    as H by (rewrite Hc; left).
  by apply elem_of_candidatesFor, elem_of_capable in H as [? _].
Qed.

(** X4. Ids that are not in the roster have no next-free date when the
    loop starts, whereas every user of the roster has one, not earlier than
    the current date.  When the user chosen for a processed task is such an
    id [a] (it is then the assignee the task already had), the task is
    pushed with [a] as assignee; it starts at the later of its dependency
    floor and the next-free date of [a], which defaults to
    [project.startDate], so that it starts exactly at the floor when [a] has
    no next-free date yet; and the next-free date of [a] becomes the end
    date that [addDays] computes for the task.  A step that chooses another
    user, or none, leaves the next-free date of [a] as it is, so that the
    next task of [a] starts on or after that end date. *)
Theorem unknown_assignee today project h0 projectTasks allUsers
    existingGlobalTasks :
  (∀ s0,
     initState today project h0 projectTasks allUsers existingGlobalTasks
     = Ok s0 →
     (∀ a, a ∉ uid <$> allUsers → userAvailability s0 !! a = None)
     ∧ (∀ u, u ∈ allUsers →
          ∃ e, userAvailability s0 !! uid u = Some e ∧ today ≤ e))
  ∧ ∀ s s' i rest l task a,
      reachable today project h0 projectTasks allUsers existingGlobalTasks s →
      step project allUsers s s' →
      queue s = i :: rest → taskMap s !! i = Some l → heap s !! l = Some task →
      a ≠ EmptyString →
      ∃ floor,
        dependencyEarliestStart project (taskMap s) (heap s) task = Some floor
        ∧ let best := (chooseUser allUsers (userAvailability s) task floor).1 in
          (best = Some a → a ∉ uid <$> allUsers →
           assignedTo task = Some a
           ∧ ∃ task' e, heap s' !! l = Some task'
               ∧ optimized s' = optimized s ++ [l]
               ∧ assignedTo task' = Some a
               ∧ startDate task'
                 = maxDate floor
                     (default (pStartDate project) (userAvailability s !! a))
               ∧ (userAvailability s !! a = None → startDate task' = floor)
               ∧ (∀ e0, userAvailability s !! a = Some e0 → e0 ≤ startDate task')
               ∧ endDate task' = Some e
               ∧ userAvailability s' !! a = Some e)
          ∧ (best ≠ Some a →
             userAvailability s' !! a = userAvailability s !! a).
Proof.
  split.
  - intros s0 Hs0%init_avail. split.
    + intros a Ha.
      pose proof (level_lookup _ _ _ _ a Hs0) as Hl.
      rewrite seed_lookup, decide_False in Hl by done. done.
    + intros u Hu.
      pose proof (level_lookup _ _ _ _ (uid u) Hs0) as Hl.
      rewrite seed_lookup, decide_True in Hl; [done|].
      apply list_elem_of_fmap. eauto.
  - intros s s' i rest l task a Hr Hstep Hq Hl Htask Hne.
    destruct (step_clone _ _ _ _ _ _ _ _ Hstep Hq Hl Htask)
      as (floor & bk & Hfloor & Hbk & Hh & Hav & Hopt).
    exists floor. split; [done|]. cbv zeta.
    set (best := (chooseUser allUsers (userAvailability s) task floor).1) in *.
    destruct (bookUser_cases _ _ _ _ _ _ Hbk)
      as [(b & e & Hb & Hbne & He & ->)|[Hf ->]]; simpl in Hh, Hav.
    + split.
      * intros Hbest Hnin. assert (b = a) as -> by congruence.
        split; [by eapply chooseUser_unknown|].
        eexists _, e. split; [exact Hh|]. split; [done|]. split; [done|].
        split; [done|]. simpl. split; [|split; [|split]].
        -- intros ->. simpl. rewrite maxDate_max.
           pose proof (floor_ge_start _ _ _ _ _ Hfloor). lia.
        -- intros e0 ->. simpl. rewrite maxDate_max. lia.
        -- done.
        -- by rewrite Hav, lookup_insert_eq.
      * intros Hbest. rewrite Hav, lookup_insert_ne; [done|]. congruence.
    + split.
      * intros Hbest. rewrite Hbest in Hf. apply truthy_Some_inv in Hf. done.
      * intros _. by rewrite Hav.
Qed.

(** ** The ready queue *)

Lemma release_fold_sorted tm h outs dq :
  StronglySorted (keyLe (queueKey tm h)) dq.2 →
  StronglySorted (keyLe (queueKey tm h)) (fold_left (release tm h) outs dq).2.
Proof.
  revert dq. induction outs as [|n outs IH]; intros dq Hs; simpl; [done|].
  apply IH. unfold release. simpl. case_bool_decide; [|done].
  apply sortQueue_sorted.
Qed.

Lemma queue_sorted_reachable today project h0 pts users others s :
  reachable today project h0 pts users others s →
  StronglySorted (keyLe (queueKey (taskMap s) (heap s))) (queue s).
Proof.
  revert s. apply reachable_ind.
  - intros av _. destruct (init_unfold h0 pts av)
      as (Hh & Htm & _ & _ & Hq & _).
    rewrite Hq, Hh, Htm. apply sortQueue_sorted.
  - intros s s' _ (i & rest & l & task & floor & bk & Hq & Hl & Htask & Hfloor & Hbk & ->)%step_inv IH.
    simpl. apply release_fold_sorted. simpl.
    rewrite Hq in IH. apply StronglySorted_inv in IH as [IH _].
    eapply StronglySorted_keyLe_ext; [|exact IH].
    intros x. unfold queueKey. by rewrite (weightOf_insert _ _ _ task).
Qed.

(** X5. In every state of a call the ready queue is sorted by decreasing
    priority weight, so that the task the loop takes next has the greatest
    weight of the queue.  The sort that keeps it so is stable: it permutes
    the queue and leaves the ids of equal weight in their order of
    arrival. *)
Theorem ready_queue_order today project h0 projectTasks allUsers
    existingGlobalTasks :
  (∀ s, reachable today project h0 projectTasks allUsers existingGlobalTasks s →
        StronglySorted (λ a b, weightOf (taskMap s) (heap s) b
                               ≤ weightOf (taskMap s) (heap s) a) (queue s)
        ∧ ∀ i rest j, queue s = i :: rest → j ∈ rest →
            weightOf (taskMap s) (heap s) j ≤ weightOf (taskMap s) (heap s) i)
  ∧ ∀ tm h q,
      sortQueue tm h q ≡ₚ q
      ∧ StronglySorted (λ a b, weightOf tm h b ≤ weightOf tm h a) (sortQueue tm h q)
      ∧ ∀ w, filter (λ i, weightOf tm h i = w) (sortQueue tm h q)
             = filter (λ i, weightOf tm h i = w) q.
Proof.
  assert (∀ tm h l, StronglySorted (keyLe (queueKey tm h)) l →
            StronglySorted (λ a b, weightOf tm h b ≤ weightOf tm h a) l) as Hconv.
  { intros tm h l. induction 1 as [|x l Hs IH Hx]; constructor; [done|].
    eapply Forall_impl; [exact Hx|]. intros y. unfold keyLe, queueKey. lia. }
  split.
  - intros s Hs.
    pose proof (Hconv _ _ _ (queue_sorted_reachable _ _ _ _ _ _ _ Hs)) as Hsorted.
    split; [done|]. intros i rest j Hq Hj. rewrite Hq in Hsorted.
    apply StronglySorted_inv in Hsorted as [_ Hall].
    rewrite Forall_forall in Hall. by apply Hall.
  - intros tm h q. split; [apply sortQueue_Permutation|].
    split; [apply Hconv, sortQueue_sorted|]. intros w.
    pose proof (sortBy_class _ _ (queueCmp_queueKey tm h) q (- w)) as Hc.
    unfold queueKey in Hc.
    rewrite (list_filter_iff (λ i, weightOf tm h i = w) (λ i, - weightOf tm h i = - w))
      by (intros; lia).
    rewrite (list_filter_iff (λ i, weightOf tm h i = w) (λ i, - weightOf tm h i = - w) q)
      by (intros; lia).
    exact Hc.
Qed.

(** ** Resource leveling *)

Lemma latest_max d x l : latest (Z.max d x) l = Z.max x (latest d l).
Proof. induction l as [|y l IH]; simpl; lia. Qed.

Lemma latest_ge d l : d ≤ latest d l ∧ ∀ x, x ∈ l → x ≤ latest d l.
Proof.
  induction l as [|y l [IH1 IH2]]; simpl.
  - split; [lia|]. by intros x ?%elem_of_nil.
  - split; [lia|]. intros x [->|Hx]%elem_of_cons; [lia|]. specialize (IH2 x Hx). lia.
Qed.

Lemma commitments_cons project t ts a :
  commitments project (t :: ts) a
  = if decide (projectId t ≠ pid project ∧ assignedTo t = Some a)
    then e ← endDate t; ends ← commitments project ts a; Some (e :: ends)
    else commitments project ts a.
Proof.
  unfold commitments. rewrite filter_cons. by case_decide.
Qed.


Lemma levelTask_dom project av t av' a :
  levelTask project av t = Some av' → is_Some (av' !! a) ↔ is_Some (av !! a).
Proof.
  intros Hl. pose proof (levelTask_lookup project av t av' a Hl) as Ha.
  destruct (av !! a) as [e|].
  - destruct Ha as (e' & -> & _). split; eauto.
  - rewrite Ha. done.
Qed.

Lemma level_closed project ts av av' a e :
  forEachM (levelTask project) ts av = Some av' → av !! a = Some e →
  if decide (a = EmptyString) then av' !! a = Some e
  else ∃ ends, commitments project ts a = Some ends
               ∧ av' !! a = Some (latest e ends).
Proof.
  destruct (decide (a = EmptyString)) as [Ha0|Ha0].
  - revert av e. induction ts as [|t ts IH]; intros av e; simpl.
    { by intros [= <-]. }
    destruct (levelTask project av t) as [av1|] eqn:H1; [|done]. intros Hf Ha.
    unfold levelTask in H1. apply (IH av1 e Hf).
    destruct (assignedTo t) as [b|] eqn:Hb; [|by injection H1 as <-].
    destruct (bool_decide (projectId t ≠ pid project)); [|by injection H1 as <-].
    simpl in H1.
    destruct (decide (b = EmptyString)) as [->|Hne].
    + rewrite bool_decide_eq_true_2 in H1 by done. simpl in H1.
      by injection H1 as <-.
    + rewrite bool_decide_eq_false_2 in H1 by done. simpl in H1.
      destruct (av !! b) as [cur|]; [|by injection H1 as <-].
      destruct (addDays _ _); [|done]. injection H1 as <-.
      rewrite lookup_insert_ne by congruence. done.
  - revert av e. induction ts as [|t ts IH]; intros av e; simpl.
    { intros [= <-] Ha. by exists []. }
    destruct (levelTask project av t) as [av1|] eqn:H1; [|done]. intros Hf Ha.
    rewrite commitments_cons. unfold levelTask in H1.
    destruct (assignedTo t) as [b|] eqn:Hb.
    2:{ injection H1 as <-. rewrite decide_False by (intros [_ ?]; done). eauto. }
    destruct (decide (projectId t ≠ pid project)) as [Hp|Hp].
    2:{ rewrite bool_decide_eq_false_2 in H1 by done. simpl in H1.
        injection H1 as <-.
        rewrite decide_False by (intros [? _]; done). eauto. }
    rewrite bool_decide_eq_true_2 in H1 by done. simpl in H1.
    destruct (decide (b = a)) as [->|Hba].
    + rewrite decide_True by done.
      rewrite bool_decide_eq_false_2 in H1 by done. simpl in H1.
      rewrite Ha in H1. unfold endDate.
      destruct (addDays _ _) as [taskEnd|]; [|done]. injection H1 as <-.
      destruct (IH _ (maxDate e taskEnd) Hf) as (ends & -> & ->).
      { by rewrite lookup_insert_eq. }
      simpl. eexists. split; [done|]. f_equal.
      rewrite maxDate_max. apply latest_max.
    + rewrite decide_False by (intros [_ ?]; congruence).
      apply (IH _ e Hf).
      destruct (negb (bool_decide (b = EmptyString))); [|by injection H1 as <-].
      destruct (av !! b) as [cur|]; [|by injection H1 as <-].
      destruct (addDays _ _); [|done]. injection H1 as <-.
      by rewrite lookup_insert_ne.
Qed.

Lemma init_avail_roster today project h0 pts users others s u :
  initState today project h0 pts users others = Ok s →
  u ∈ users → uid u ≠ EmptyString →
  ∃ ends, commitments project (derefs h0 others) (uid u) = Some ends
          ∧ userAvailability s !! uid u = Some (latest today ends).
Proof.
  intros Hs%init_avail Hu Hne.
  pose proof (level_closed _ _ _ _ (uid u) today Hs) as Hc.
  rewrite decide_False in Hc by done. apply Hc.
  rewrite seed_lookup, decide_True; [done|]. apply list_elem_of_fmap; eauto.
Qed.

Lemma init_avail_Some today project h0 pts users others s a e :
  initState today project h0 pts users others = Ok s →
  userAvailability s !! a = Some e → a ≠ EmptyString →
  ∃ u ends, u ∈ users ∧ a = uid u
            ∧ commitments project (derefs h0 others) a = Some ends
            ∧ e = latest today ends.
Proof.
  intros Hs Ha Hne. pose proof (init_avail _ _ _ _ _ _ _ Hs) as Hf.
  pose proof (level_lookup _ _ _ _ a Hf) as Hl. rewrite seed_lookup in Hl.
  destruct (decide (a ∈ uid <$> users)) as [Hin|Hin]; [|congruence].
  apply list_elem_of_fmap in Hin as (u & -> & Hu).
  destruct (init_avail_roster _ _ _ _ _ _ _ u Hs Hu Hne) as (ends & Hc & Hav).
  exists u, ends. split; [done|]. split; [done|]. split; [done|]. congruence.
Qed.

(** X6. Resource leveling.  When the call reaches the loop, the ids that
    have a next-free date are those of the roster.  For a user whose id is
    not the empty string, every task of [existingGlobalTasks] that belongs
    to another project and is assigned to that user has an end date, as
    [addDays] computes it from its start date and duration, and the
    next-free date is the latest of the current date and of these end
    dates; tasks of the scheduled project, unassigned tasks and tasks of
    people outside the roster do not count.  A user whose id is the empty
    string is free from the current date. *)
Theorem resource_leveling today project h0 projectTasks allUsers
    existingGlobalTasks s a :
  initState today project h0 projectTasks allUsers existingGlobalTasks = Ok s →
  if decide (a ∈ uid <$> allUsers) then
    if decide (a = EmptyString) then userAvailability s !! a = Some today
    else ∃ ends,
           commitments project (derefs h0 existingGlobalTasks) a = Some ends
           ∧ userAvailability s !! a = Some (latest today ends)
  else userAvailability s !! a = None.
Proof.
  intros Hs%init_avail.
  pose proof (level_lookup _ _ _ _ a Hs) as Hl.
  pose proof (level_closed _ _ _ _ a today Hs) as Hc.
  rewrite seed_lookup in Hl, Hc.
  destruct (decide (a ∈ uid <$> allUsers)); [|done]. by apply Hc.
Qed.

(** ** Start dates and next-free dates *)




(** ** Where an assignee comes from *)

Lemma chooseUser_cases users av task floor :
  (chooseUser users av task floor).1 = assignedTo task
  ∨ ∃ x u, requiredSpecialty task = Some x ∧ x ≠ EmptyString ∧ u ∈ users
           ∧ (x ∈ specialties u ∨ role u = x)
           ∧ (chooseUser users av task floor).1 = Some (uid u).
Proof.
  unfold chooseUser. destruct (requiredSpecialty task) as [x|] eqn:Hx; [|by left].
  destruct (truthy (Some x)) eqn:Ht; [|by left].
  change (default EmptyString (Some x)) with x.
  destruct (candidatesFor users av x) as [|c0 cs] eqn:Hc; [by left|].
  destruct (existsb _ _ && _); [by left|]. right. exists x, c0.
  assert (c0 ∈ candidatesFor users av x) as Hin by (rewrite Hc; left).
  apply elem_of_candidatesFor, elem_of_capable in Hin as [Hu Hsat].
  split; [done|]. split; [|done].
  intros ->. by vm_compute in Ht.
Qed.

Lemma provenance_step users h0 ts project s s' :
  wf h0 ts s → provenance users h0 ts s → step project users s s' →
  provenance users h0 ts s'.
Proof.
  intros Hwf Hp Hstep.
  destruct (step_booking _ _ _ _ _ _ Hwf Hstep)
    as (i & rest & l & task & start & assigned & Hq & Hl & Htask & Hlt
        & _ & Hheap & Hopt & floor & Hfloor & Hcase).
  intros l' t Hge. rewrite Hheap. destruct (decide (l' = l)) as [->|Hne].
  2:{ rewrite list_lookup_insert_ne by done. by apply Hp. }
  rewrite list_lookup_insert_eq by done. intros [= <-].
  destruct (Hp l task Hge Htask) as (t0 & Ht0 & Hst & Hfrom).
  exists t0. split; [done|]. split; [by apply sameStatic_scheduled|].
  destruct Hcase as [(b & eb & Hb & Hbne & -> & _)|(_ & -> & _)]; [|exact Hfrom].
  destruct (chooseUser_cases users (userAvailability s) task floor)
    as [E|(x & u & Hx & Hxne & Hu & Hsat & E)]; rewrite E in Hb.
  - unfold assigneeFrom in *. simpl. by rewrite <-Hb.
  - right. exists x, u. injection Hb as <-.
    assert (requiredSpecialty t0 = Some x) as Hx0 by (by rewrite Hst in Hx).
    done.
Qed.

Lemma provenance_reachable today project h0 pts users others s :
  reachable today project h0 pts users others s →
  provenance users h0 (derefs h0 pts) s.
Proof.
  revert s. apply reachable_ind.
  - intros av _. destruct (init_unfold h0 pts av) as (Hh & _).
    intros l t Hl. rewrite Hh. rewrite lookup_app_r by lia. intros Ht.
    exists t. split; [by eapply list_elem_of_lookup_2|].
    split; [apply sameStatic_refl|by left].
  - intros s s' Hr Hstep IH. eapply provenance_step; eauto using wf_reachable.
Qed.

(** X8. When the call returns, every task of [optimizedTasks] is one of
    the input tasks up to its start date and its assignee, where the
    assignee is the one the input task had, or a user of the roster, with an
    id that is not the empty string, who has the specialty the task requires
    among the specialties or as role.  So a task that requires no specialty,
    or the empty string, is returned with the assignee it came with. *)
Theorem assignee_provenance today project h0 projectTasks allUsers
    existingGlobalTasks r h' :
  scheduleProject today project h0 projectTasks allUsers existingGlobalTasks
  = Ok (r, h') →
  ∀ c, c ∈ derefs h' (optimizedTasks r) →
    ∃ t0, t0 ∈ derefs h0 projectTasks ∧ sameStatic t0 c
          ∧ assigneeFrom allUsers t0 c
          ∧ (truthy (requiredSpecialty t0) = false →
             assignedTo c = assignedTo t0).
Proof.
  intros (s & Hr & Hq & -> & ->)%scheduleProject_final. simpl.
  pose proof (wf_reachable _ _ _ _ _ _ _ Hr) as Hwf.
  intros c (l & Hl & Hc)%elem_of_derefs.
  pose proof (wf_optimized _ _ _ Hwf) as Hopt. rewrite Forall_forall in Hopt.
  destruct (Hopt l Hl) as [i Hi].
  destruct (wf_taskMap _ _ _ Hwf _ _ Hi) as (Hge & _).
  destruct (provenance_reachable _ _ _ _ _ _ _ Hr l c Hge Hc)
    as (t0 & Ht0 & Hst & Hfrom).
  exists t0. split; [done|]. split; [done|]. split; [done|].
  intros Hf. destruct Hfrom as [E|(x & u & Hx & Hxne & _)]; [done|].
  rewrite Hx in Hf. simpl in Hf. by rewrite bool_decide_eq_false_2 in Hf.
Qed.

(** ** The dependency graph and the first ready queue, from the input *)

Lemma register_dom h0 ts x :
  is_Some (taskMap (fold_left registerTask ts (mkState h0 ∅ ∅ ∅ ∅ [] [] [])) !! x)
  ↔ x ∈ tid <$> ts.
Proof.
  split.
  - intros [l Hl]. apply register_taskMap in Hl as (k & t & _ & Hk & <-).
    apply list_elem_of_fmap. exists t. split; [done|].
    by eapply list_elem_of_lookup_2.
  - intros (t & -> & Ht)%list_elem_of_fmap. by apply register_known.
Qed.

Lemma register_getTask h0 ts i :
  let s := fold_left registerTask ts (mkState h0 ∅ ∅ ∅ ∅ [] [] []) in
  getTask (taskMap s) (heap s) i = taskOf ts i.
Proof.
  induction ts as [|t ts IH] using rev_ind; simpl.
  - unfold getTask. by rewrite lookup_empty.
  - rewrite fold_registerTask_snoc. simpl in IH. unfold taskOf.
    rewrite filter_app, filter_cons, filter_nil. unfold getTask. simpl.
    rewrite register_heap. destruct (decide (tid t = i)) as [<-|Hne].
    + rewrite lookup_insert_eq, last_snoc.
      rewrite lookup_app_r by done. by rewrite Nat.sub_diag.
    + rewrite lookup_insert_ne, app_nil_r by done. fold (taskOf ts i).
      rewrite <-IH. unfold getTask. rewrite register_heap.
      destruct (taskMap _ !! i) as [l|] eqn:Hl; [|done].
      apply register_taskMap in Hl as (k & t' & -> & Hk & _).
      apply lookup_lt_Some in Hk.
      rewrite lookup_app_l; [done|]. rewrite length_app. lia.
Qed.

Lemma outOf_dependents (tm : gmap string loc) ts d :
  is_Some (tm !! d) → outOf tm ts d = dependents ts d.
Proof.
  intros Hd. unfold outOf, dependents. apply flat_map_ext. intros t.
  f_equal. apply list_filter_iff. intros x. split; [by intros [? _]|].
  intros ->. done.
Qed.

Lemma degOf_inDegree (tm : gmap string loc) ts i :
  (∀ x, is_Some (tm !! x) ↔ x ∈ tid <$> ts) → degOf tm ts i = inDegree ts i.
Proof.
  intros Hdom. unfold degOf, inDegree. do 2 f_equal. apply flat_map_ext.
  intros t. case_decide; [|done]. unfold presentDeps. by apply list_filter_iff.
Qed.

Lemma init_keys h0 pts av x :
  is_Some (taskMap (loopEntry h0 pts av) !! x) ↔ x ∈ tid <$> derefs h0 pts.
Proof.
  destruct (init_unfold h0 pts av) as (_ & -> & _).
  apply register_dom.
Qed.

Lemma init_getTask h0 pts av i :
  let s := loopEntry h0 pts av in
  getTask (taskMap s) (heap s) i = taskOf (derefs h0 pts) i.
Proof.
  destruct (init_unfold h0 pts av) as (Hh & Htm & _).
  cbv zeta. rewrite Hh, Htm.
  pose proof (register_getTask h0 (derefs h0 pts) i) as Hget.
  cbv zeta in Hget. by rewrite register_heap in Hget.
Qed.

Lemma init_degree h0 pts av i :
  incomingDegree (loopEntry h0 pts av) !! i
  = if decide (i ∈ tid <$> derefs h0 pts)
    then Some (inDegree (derefs h0 pts) i) else None.
Proof.
  pose proof (init_keys h0 pts av) as Hdom.
  destruct (init_unfold h0 pts av) as (_ & Htm & _ & Hdeg & _).
  rewrite Hdeg, <-Htm. case_decide as Hd.
  - apply Hdom in Hd as Hs. destruct Hs as [l Hl]. rewrite Hl. simpl.
    f_equal. by apply degOf_inDegree.
  - destruct (taskMap _ !! i) as [l|] eqn:Hl; [|done].
    destruct Hd. apply Hdom. by rewrite Hl.
Qed.

Lemma init_outgoing h0 pts av d :
  outgoingEdges (loopEntry h0 pts av) !! d
  = if decide (d ∈ tid <$> derefs h0 pts)
    then Some (dependents (derefs h0 pts) d) else None.
Proof.
  pose proof (init_keys h0 pts av d) as Hdom.
  destruct (init_unfold h0 pts av) as (_ & Htm & Hout & _).
  rewrite Hout, <-Htm. case_decide as Hd.
  - apply Hdom in Hd as Hs. destruct Hs as [l Hl]. rewrite Hl. simpl.
    f_equal. apply outOf_dependents. by rewrite <-Htm, Hl.
  - destruct (taskMap (loopEntry h0 pts av) !! d) as [l|] eqn:Hl; [|done].
    destruct Hd. apply Hdom. rewrite ?Hl. eauto.
Qed.

(** X9. The graph that the two passes over [projectTasks] build.  An id
    stands for the clone of the last task of the array that has it.  The
    ids of the array are the keys of the two maps: the successors of an id
    [d] are the ids of the tasks that list [d], once for every occurrence
    and in the order of the array, and the in-degree of an id counts the
    dependency entries of its tasks that name a task of the array, so that
    an entry that names no task of the array adds no edge.  This is the
    graph that the loop starts from, when the call reaches the loop. *)
Theorem dependency_graph h0 projectTasks :
  let ts := derefs h0 projectTasks in
  let g := buildGraph h0 projectTasks in
  (∀ i, getTask (taskMap g) (heap g) i = taskOf ts i)
  ∧ (∀ d, outgoingEdges g !! d
          = if decide (d ∈ tid <$> ts) then Some (dependents ts d) else None)
  ∧ (∀ i, incomingDegree g !! i
          = if decide (i ∈ tid <$> ts) then Some (inDegree ts i) else None)
  ∧ ∀ today project allUsers existingGlobalTasks s,
      initState today project h0 projectTasks allUsers existingGlobalTasks
      = Ok s →
      heap s = heap g ∧ taskMap s = taskMap g
      ∧ outgoingEdges s = outgoingEdges g
      ∧ incomingDegree s = incomingDegree g.
Proof.
  intros ts g. split; [apply (init_getTask h0 projectTasks ∅)|].
  split; [apply (init_outgoing h0 projectTasks ∅)|].
  split; [apply (init_degree h0 projectTasks ∅)|].
  by intros today project allUsers existingGlobalTasks s (av & _ & ->)%initState_Ok.
Qed.

Lemma inDegree_zero ts i :
  inDegree ts i = 0
  ↔ ∀ t d, t ∈ ts → tid t = i → d ∈ depsOf t → d ∉ tid <$> ts.
Proof.
  unfold inDegree. rewrite <-Nat2Z.inj_0, Nat2Z.inj_iff, length_zero_iff_nil.
  split.
  - intros E t d Ht Hi Hd Hin.
    assert (d ∈ flat_map (λ t, if decide (tid t = i)
                               then filter (λ x, x ∈ tid <$> ts) (depsOf t)
                               else []) ts) as H; [|rewrite E in H; by apply elem_of_nil in H].
    apply elem_of_flat_map. exists t. split; [done|].
    rewrite decide_True by done. by apply list_elem_of_filter.
  - intros H. destruct (flat_map _ ts) as [|d rest] eqn:E; [done|].
    assert (d ∈ flat_map (λ t, if decide (tid t = i)
                               then filter (λ x, x ∈ tid <$> ts) (depsOf t)
                               else []) ts) as Hd by (rewrite E; left).
    apply elem_of_flat_map in Hd as (t & Ht & Hd).
    case_decide as Hi; [|by apply elem_of_nil in Hd].
    apply list_elem_of_filter in Hd as [Hin Hd]. by destruct (H t d Ht Hi Hd).
Qed.

Lemma sorted_decreasing {A} (w : A → Z) l :
  StronglySorted (keyLe (λ i, - w i)) l → StronglySorted (λ a b, w b ≤ w a) l.
Proof.
  induction 1 as [|x l Hs IH Hx]; [constructor|]. constructor; [done|].
  eapply Forall_impl; [exact Hx|]. intros y. unfold keyLe. lia.
Qed.

(** X10. The first ready queue.  It holds the ids, in the order of the
    array, of the tasks whose id has in-degree zero, sorted by decreasing
    priority weight with a stable sort: an id is in it exactly when it is
    the id of a task of the array and no task of that id lists the id of a
    task of the array; the weights never increase along the queue; and the
    ids of one weight are in the order of the array.  This is the queue
    that the loop starts from, when the call reaches the loop. *)
Theorem first_ready_queue h0 projectTasks :
  let ts := derefs h0 projectTasks in
  let q := readyQueue (buildGraph h0 projectTasks) ts in
  q = sortBy (λ a b, weightIn ts b - weightIn ts a) (ready ts)
  ∧ (∀ i, i ∈ q ↔
       i ∈ tid <$> ts
       ∧ ∀ t d, t ∈ ts → tid t = i → d ∈ depsOf t → d ∉ tid <$> ts)
  ∧ StronglySorted (λ a b, weightIn ts b ≤ weightIn ts a) q
  ∧ (∀ w, filter (λ i, weightIn ts i = w) q
          = filter (λ i, weightIn ts i = w) (ready ts))
  ∧ ∀ today project allUsers existingGlobalTasks s,
      initState today project h0 projectTasks allUsers existingGlobalTasks
      = Ok s →
      queue s = q.
Proof.
  intros ts q.
  set (s := loopEntry h0 projectTasks ∅).
  destruct (init_unfold h0 projectTasks ∅) as (Hh & Htm & _ & _ & Hq & _).
  pose proof (init_getTask h0 projectTasks ∅) as Hget.
  pose proof (init_degree h0 projectTasks ∅) as Hdeg.
  cbv zeta in Hget. fold ts s in Hh, Htm, Hq, Hget, Hdeg.
  change q with (queue s).
  assert (queue s = sortBy (λ a b, weightIn ts b - weightIn ts a) (ready ts)) as E.
  { rewrite Hq, <-Hh, <-Htm. unfold sortQueue, ready.
    rewrite (filter_ext_in (λ i, default 0 (incomingDegree s !! i) = 0)
               (λ i, inDegree ts i = 0)).
    - apply sortBy_ext. intros a b. unfold queueCmp, weightOf, weightIn.
      by rewrite !Hget.
    - intros i Hi. rewrite Hdeg, decide_True by done. done. }
  assert (∀ a b, (λ a b, weightIn ts b - weightIn ts a) a b
                 = (λ i, - weightIn ts i) a - (λ i, - weightIn ts i) b) as Hkey.
  { intros a b. lia. }
  split; [exact E|]. split; [|split; [|split]].
  - intros i. rewrite E, elem_of_sortBy. unfold ready.
    rewrite list_elem_of_filter, inDegree_zero. tauto.
  - rewrite E. apply sorted_decreasing, (sortBy_sorted _ _ Hkey).
  - intros w. rewrite E.
    pose proof (sortBy_class _ _ Hkey (ready ts) (- w)) as Hc. simpl in Hc.
    rewrite (list_filter_iff (λ i, weightIn ts i = w) (λ i, - weightIn ts i = - w))
      by (intros; lia).
    rewrite (list_filter_iff (λ i, weightIn ts i = w) (λ i, - weightIn ts i = - w)
               (ready ts)) by (intros; lia).
    exact Hc.
  - by intros today project allUsers existingGlobalTasks s0 (av & _ & ->)%initState_Ok.
Qed.

(** ** Earliest start *)

Lemma derefs_insert_fresh (h : Heap) l x refs :
  l ∉ refs → derefs (<[l := x]> h) refs = derefs h refs.
Proof.
  intros Hl. unfold derefs. induction refs as [|r refs IH]; csimpl; [done|].
  apply not_elem_of_cons in Hl as [Hne Hl].
  rewrite list_lookup_insert_ne by done. by rewrite IH.
Qed.

Lemma fold_depStep_attained tm h ds acc f :
  forEachM (depStep tm h) ds acc = Some f →
  f = acc
  ∨ ∃ d cd, d ∈ ds ∧ getTask tm h d = Some cd ∧ endDate cd = Some f.
Proof.
  revert acc. induction ds as [|d ds IH]; intros acc; simpl.
  { intros [= <-]. by left. }
  destruct (depStep tm h acc d) as [acc'|] eqn:Hs; [|done]. intros Hf.
  destruct (IH acc' Hf) as [->|(d' & cd & Hd & Hcd & E)].
  - unfold depStep in Hs.
    destruct (getTask tm h d) as [cd|] eqn:Hcd; [|injection Hs as <-; by left].
    destruct (addDays _ _) as [e|] eqn:He; [|done]. injection Hs as <-.
    rewrite maxDate_max.
    destruct (Z.max_spec acc e) as [[_ Hm]|[_ Hm]]; rewrite Hm.
    + right. exists d, cd. split; [left|done].
    + by left.
  - right. exists d', cd. split; [by right|done].
Qed.

Lemma mapM_elem {A B} (f : A → option B) l k :
  mapM f l = Some k → ∀ y, y ∈ k ↔ ∃ x, x ∈ l ∧ f x = Some y.
Proof.
  intros Hm%mapM_Some y. split.
  - intros [j Hj]%list_elem_of_lookup.
    destruct (Forall2_lookup_r _ _ _ _ _ Hm Hj) as (x & Hx & Hxy).
    exists x. split; [by eapply list_elem_of_lookup_2|done].
  - intros (x & [j Hj]%list_elem_of_lookup & Hxy).
    destruct (Forall2_lookup_l _ _ _ _ _ Hm Hj) as (y' & Hy & Hxy').
    assert (y' = y) as -> by congruence. by eapply list_elem_of_lookup_2.
Qed.

Lemma latest_attained d l : latest d l = d ∨ latest d l ∈ l.
Proof.
  induction l as [|x l IH]; simpl; [by left|].
  destruct (Z.max_spec x (latest d l)) as [[_ Hm]|[_ Hm]]; rewrite Hm.
  - destruct IH as [IH|IH]; [by left|]. right. by right.
  - right. left.
Qed.

(** The dependencies of a task of the queue that name a task of the array
    have all been processed. *)
Lemma ready_deps_done h0 ts project s i l task d :
  wf h0 ts s → topo project ts s → i ∈ queue s →
  taskMap s !! i = Some l → heap s !! l = Some task →
  d ∈ depsOf task → is_Some (taskMap s !! d) → d ∈ doneIds s.
Proof.
  intros Hwf Htopo Hq Hl Htask Hd Hkey.
  destruct (wf_taskMap _ _ _ Hwf _ _ Hl) as (Hge & c & Hc & Hid).
  assert (c = task) as -> by congruence.
  destruct (wf_clone _ _ _ Hwf _ _ Hge Htask) as (t0 & Ht0 & Hst).
  pose proof (sameStatic_tid _ _ Hst) as Hid0.
  assert (pending (taskMap s) (doneIds s) t0 = 0) as Hp.
  { apply (topo_ready _ _ _ Htopo t0 Ht0). apply elem_of_app. left. congruence. }
  apply (proj1 (pending_zero _ _ _) Hp).
  unfold presentDeps. apply list_elem_of_filter. split; [done|].
  by rewrite <-(sameStatic_depsOf _ _ Hst).
Qed.

Lemma floor_closed h0 ts project s i l task floor :
  wf h0 ts s → topo project ts s → i ∈ queue s →
  taskMap s !! i = Some l → heap s !! l = Some task →
  dependencyEarliestStart project (taskMap s) (heap s) task = Some floor →
  floorOf project (outs s) task = Some floor.
Proof.
  intros Hwf Htopo Hq Hl Htask Hfloor. unfold floorOf.
  assert (is_Some (mapM endDate (filter (λ a, tid a ∈ depsOf task) (outs s))))
    as [ends Hends].
  { apply mapM_is_Some, Forall_forall. intros a [Hd Ha]%list_elem_of_filter.
    destruct (floor_ge_dep _ _ _ _ _ (tid a) a Hfloor Hd) as (e & He & _);
      [by eapply out_getTask|]. unfold compose. eauto. }
  rewrite Hends. simpl. f_equal.
  pose proof (floor_ge_start _ _ _ _ _ Hfloor) as Hge.
  destruct (latest_ge (pStartDate project) ends) as [Lge Lall].
  apply Z.le_antisymm.
  - destruct (latest_attained (pStartDate project) ends) as [E|E];
      [by rewrite E|].
    apply (mapM_elem _ _ _ Hends) in E as (a & Ha & E).
    apply list_elem_of_filter in Ha as [Hd Ha].
    destruct (floor_ge_dep _ _ _ _ _ (tid a) a Hfloor Hd) as (e & He & Hle);
      [by eapply out_getTask|]. congruence.
  - destruct (fold_depStep_attained _ _ _ _ _ Hfloor)
      as [->|(d & cd & Hd & Hcd & E)]; [done|].
    apply Lall, (mapM_elem _ _ _ Hends). exists cd. split; [|done].
    apply list_elem_of_filter.
    assert (is_Some (taskMap s !! d)) as Hkey.
    { unfold getTask in Hcd. destruct (taskMap s !! d); [eauto|done]. }
    pose proof (ready_deps_done _ _ _ _ _ _ _ _ Hwf Htopo Hq Hl Htask Hd Hkey)
      as Hdone.
    apply done_out in Hdone as (a & Ha & Hida).
    pose proof (out_getTask _ _ _ _ Hwf Ha) as Hga. rewrite Hida in Hga.
    assert (a = cd) as -> by congruence. split; [by rewrite Hida|done].
Qed.

Lemma justified_step h0 ts project users av0 s s' :
  wf h0 ts s → topo project ts s →
  justified project av0 s → step project users s s' → justified project av0 s'.
Proof.
  intros Hwf Htopo [HA HB] Hstep.
  destruct (step_booking _ _ _ _ _ _ Hwf Hstep)
    as (i & rest & l & task & start & assigned & Hq & Hl & Htask & Hlt
        & _ & Hheap & Hopt & floor & Hfloor & Hcase).
  pose proof (fresh_loc _ _ _ _ _ _ _ Hwf Htopo Hq Hl) as Hfresh.
  assert (i ∈ queue s) as Hiq by (rewrite Hq; left).
  assert (outs s' = outs s ++ [scheduled task start assigned]) as Houts.
  { unfold outs. rewrite Hheap, Hopt, derefs_snoc, derefs_insert_fresh by done.
    by rewrite list_lookup_insert_eq by done. }
  assert (tid task = i) as Hid.
  { destruct (wf_taskMap _ _ _ Hwf _ _ Hl) as (_ & c & Hc & Hi). congruence. }
  assert (i ∉ doneIds s) as Hnd.
  { pose proof (topo_nodup _ _ _ Htopo) as Hn. rewrite Hq in Hn. simpl in Hn.
    apply NoDup_cons in Hn as [Hn _]. intros Hin. apply Hn, elem_of_app. by right. }
  assert (∀ c, c ∈ outs s → i ∉ depsOf c) as Hnodep.
  { intros c Hc Hin. apply list_elem_of_lookup in Hc as Hc'. destruct Hc' as [j Hj].
    destruct (out_source _ _ _ _ Hwf Hc) as (t & Ht & Hstc).
    destruct (topo_order _ _ _ Htopo j t Ht) with (d := i) as (k & _ & Hk).
    - unfold doneIds. fold (outs s). rewrite list_lookup_fmap, Hj. simpl.
      by rewrite (sameStatic_tid _ _ Hstc).
    - unfold presentDeps. apply list_elem_of_filter. split; [by rewrite Hl|].
      by rewrite <-(sameStatic_depsOf _ _ Hstc).
    - apply Hnd. by eapply list_elem_of_lookup_2. }
  assert (i ∉ depsOf task) as Hself.
  { intros Hin. apply Hnd.
    eapply (ready_deps_done h0 ts project s i l task i); eauto. }
  assert (∀ c, i ∉ depsOf c →
            floorOf project (outs s') c = floorOf project (outs s) c) as Hfl.
  { intros c Hc. unfold floorOf.
    rewrite Houts, filter_app, filter_cons_False, filter_nil, app_nil_r; [done|].
    simpl. by rewrite Hid. }
  pose proof (floor_closed _ _ _ _ _ _ _ _ Hwf Htopo Hiq Hl Htask Hfloor)
    as Hclosed.
  assert (∀ k t, outs s !! k = Some t → outs s' !! k = Some t) as Hkeep.
  { intros k t Hk. rewrite Houts. by apply lookup_app_l_Some. }
  split.
  - intros a e Ha.
    assert (userAvailability s !! a = Some e →
            av0 !! a = Some e
            ∨ ∃ k t, outs s' !! k = Some t ∧ assignedTo t = Some a
                     ∧ endDate t = Some e)
      as Hold.
    { intros Ha'. destruct (HA a e Ha') as [?|(k & t & Hk & ? & ?)]; [by left|].
      right. exists k, t. split; [by apply Hkeep|done]. }
    destruct Hcase as [(b & eb & Hb & Hbne & -> & Hs & Heb & Hav)|(Hf & -> & -> & Hav)];
      rewrite Hav in Ha; [|by apply Hold].
    destruct (decide (a = b)) as [->|Hab].
    + rewrite lookup_insert_eq in Ha. injection Ha as <-. right.
      exists (length (outs s)), (scheduled task start (Some b)).
      rewrite Houts. split; [|done].
      by rewrite lookup_app_r, Nat.sub_diag by done.
    + rewrite lookup_insert_ne in Ha by done. by apply Hold.
  - intros j c Hj. rewrite Houts in Hj.
    destruct (decide (j < length (outs s))%nat) as [Hjlt|Hjge].
    + rewrite lookup_app_l in Hj by done.
      destruct (HB j c Hj) as (fl & H0 & H1 & H2 & H3). exists fl.
      rewrite Hfl by (apply Hnodep; by eapply list_elem_of_lookup_2).
      split; [done|]. split; [done|]. split; [done|].
      destruct H3 as [?|[?|(k & t & Hk & Hkt & ? & ?)]];
        [by left|by right; left|].
      right; right. exists k, t. split; [done|]. split; [by apply Hkeep|done].
    + assert (j = length (outs s)) as ->.
      { apply lookup_lt_Some in Hj. rewrite length_app in Hj. simpl in Hj. lia. }
      rewrite lookup_app_r, Nat.sub_diag in Hj by done. injection Hj as <-.
      exists floor. rewrite Hfl by done.
      change (floorOf project (outs s) (scheduled task start assigned))
        with (floorOf project (outs s) task).
      split; [done|].
      pose proof (floor_ge_start _ _ _ _ _ Hfloor) as Hge.
      destruct Hcase as [(b & eb & Hb & Hbne & -> & Hs & Heb & Hav)|(Hf & -> & -> & Hav)];
        simpl.
      * rewrite maxDate_max in Hs.
        split; [lia|]. split; [by rewrite bool_decide_eq_false_2|].
        destruct (userAvailability s !! b) as [e|] eqn:He; simpl in Hs.
        -- destruct (Z.max_spec floor e)
             as [[_ E]|[_ E]]; rewrite E in Hs; [|by left].
           destruct (HA b e He) as [H0|(k & t & Hk & Hkt & Hke)].
           ++ right; left. exists b. by rewrite Hs.
           ++ right; right. exists k, t. split; [by eapply lookup_lt_Some|].
              split; [by apply Hkeep|]. split; [done|]. by rewrite Hs.
        -- left. lia.
      * split; [lia|]. split; [done|]. by left.
Qed.

Lemma justified_reachable today project h0 pts users others s0 s :
  NoDup (tid <$> derefs h0 pts) →
  initState today project h0 pts users others = Ok s0 →
  reachable today project h0 pts users others s →
  justified project (userAvailability s0) s.
Proof.
  intros Hnd Hs0. revert s. apply reachable_ind.
  - intros av Hav. rewrite Hs0 in Hav. injection Hav as ->.
    destruct (init_unfold h0 pts av) as (_ & _ & _ & _ & _ & Hopt & _).
    split; [by left|]. intros j c. unfold outs. by rewrite Hopt.
  - intros s s' Hr Hstep IH.
    eapply justified_step; eauto using wf_reachable, topo_reachable.
Qed.

(** X11. For tasks with pairwise distinct ids the schedule that the call
    returns is left-justified.  The returned tasks that a returned task
    lists as dependencies have end dates, as [addDays] computes them from
    their start dates and durations; take the floor of the task to be the
    latest of the project's start date and of these end dates.  Every
    returned task starts on or after its floor; a task that is returned
    without assignee starts exactly at its floor; and every task starts
    either at its floor, or at the date from which its assignee, a user of
    the roster, was free when the loop started (the latest of the current
    date and of the end dates of that user's tasks in other projects), or
    at the end date of an earlier task of [optimizedTasks] with the same
    assignee. *)
Theorem earliest_start today project h0 projectTasks allUsers
    existingGlobalTasks r h' :
  NoDup (tid <$> derefs h0 projectTasks) →
  scheduleProject today project h0 projectTasks allUsers existingGlobalTasks
  = Ok (r, h') →
  ∀ j c, derefs h' (optimizedTasks r) !! j = Some c →
    let out := derefs h' (optimizedTasks r) in
    ∃ floor,
      floorOf project out c = Some floor
      ∧ floor ≤ startDate c
      ∧ (truthy (assignedTo c) = false → startDate c = floor)
      ∧ (startDate c = floor
         ∨ (∃ u ends, u ∈ allUsers ∧ uid u ≠ EmptyString
                 ∧ assignedTo c = Some (uid u)
                 ∧ commitments project (derefs h0 existingGlobalTasks) (uid u)
                   = Some ends
                 ∧ startDate c = latest today ends)
         ∨ (∃ i t, (i < j)%nat ∧ out !! i = Some t
                   ∧ assignedTo t = assignedTo c
                   ∧ endDate t = Some (startDate c))).
Proof.
  intros Hnd (s & Hr & Hq & -> & ->)%scheduleProject_final. simpl.
  intros j c Hj. pose proof Hr as (s0 & Hs0 & _).
  destruct (justified_reachable _ _ _ _ _ _ _ _ Hnd Hs0 Hr) as [_ HB].
  destruct (HB j c Hj) as (floor & H0 & H1 & H2 & H3). exists floor.
  split; [done|]. split; [done|]. split; [done|].
  destruct H3 as [?|[(a & Ha & Hne & Hav)|?]]; [by left| |by right; right].
  right; left.
  destruct (init_avail_Some _ _ _ _ _ _ _ _ _ Hs0 Hav Hne)
    as (u & ends & Hu & -> & Hends & E).
  exists u, ends. done.
Qed.

(** ** Order of two elements of a list *)

Lemma before_sublist {A} (l : list A) a b : before l a b ↔ [a; b] `sublist_of` l.
Proof.
  split.
  - intros (i & j & Hi & Hj & Hij).
    rewrite <-(take_drop_middle l i a Hi). apply sublist_inserts_l, sublist_skip.
    apply singleton_sublist_l. apply (list_elem_of_lookup_2 _ (j - S i)%nat).
    rewrite lookup_drop. by replace (S i + (j - S i))%nat with j by lia.
  - induction l as [|x l IH]; [by inversion 1|].
    intros [H|(l' & E & H)]%sublist_cons_r.
    + destruct (IH H) as (i & j & Hi & Hj & Hij). exists (S i), (S j).
      split; [done|]. split; [done|]. lia.
    + injection E as <- <-. apply singleton_sublist_l in H.
      apply list_elem_of_lookup in H as [j Hj]. exists 0%nat, (S j).
      split; [done|]. split; [done|]. lia.
Qed.

Lemma before_mono {A} (l1 l2 : list A) a b :
  l1 `sublist_of` l2 → before l1 a b → before l2 a b.
Proof. rewrite !before_sublist. intros H1 H2. by etrans. Qed.

Lemma before_app {A} (l k : list A) a b :
  before (l ++ k) a b ↔ before l a b ∨ before k a b ∨ (a ∈ l ∧ b ∈ k).
Proof.
  rewrite !before_sublist, sublist_app_r. split.
  - intros (l1 & l2 & E & H1 & H2).
    destruct l1 as [|a' [|b' l1]]; simpl in E.
    + subst l2. by right; left.
    + injection E as <- <-. right; right.
      by rewrite <-!singleton_sublist_l.
    + injection E as <- <- E. symmetry in E. apply app_eq_nil in E as [-> ->].
      by left.
  - intros [H|[H|[Ha Hb]]].
    + exists [a; b], []. split; [done|]. split; [done|apply sublist_nil_l].
    + exists [], [a; b]. split; [done|]. split; [apply sublist_nil_l|done].
    + exists [a], [b]. by rewrite !singleton_sublist_l.
Qed.

Lemma before_elem_of_r {A} (l : list A) a b : before l a b → b ∈ l.
Proof. intros (i & j & _ & Hj & _). by eapply list_elem_of_lookup_2. Qed.

Lemma before_ne {A} (l : list A) a b : NoDup l → before l a b → a ≠ b.
Proof. intros Hnd H ->. by apply (before_irrefl l b). Qed.

Lemma before_asym {A} (l : list A) a b :
  NoDup l → before l a b → ¬ before l b a.
Proof.
  intros Hnd H1 H2. apply (before_irrefl l a Hnd). by apply (before_trans l a b a).
Qed.

Lemma before_total {A} (l : list A) a b :
  a ∈ l → b ∈ l → a ≠ b → before l a b ∨ before l b a.
Proof.
  intros [i Hi]%list_elem_of_lookup [j Hj]%list_elem_of_lookup Hne.
  destruct (Nat.lt_trichotomy i j) as [?|[->|?]].
  - left. by exists i, j.
  - congruence.
  - right. by exists j, i.
Qed.

Lemma before_filter {A} (P : A → Prop) `{!∀ x, Decision (P x)} (l : list A) a b :
  before l a b → P a → P b → before (filter P l) a b.
Proof.
  rewrite !before_sublist. intros Hs Ha Hb.
  induction l as [|x l IH]; [by inversion Hs|].
  apply sublist_cons_r in Hs as [H'|(l' & E & H')].
  - rewrite filter_cons. destruct (decide (P x)); [apply sublist_cons|]; by apply IH.
  - injection E as <- <-. rewrite filter_cons_True by done. apply sublist_skip.
    apply singleton_sublist_l, list_elem_of_filter. split; [done|].
    by apply singleton_sublist_l.
Qed.

Lemma before_filter_inv {A} (P : A → Prop) `{!∀ x, Decision (P x)} (l : list A) a b :
  before (filter P l) a b → before l a b.
Proof. apply before_mono, sublist_filter. Qed.

Lemma before_head {A} (h : A) rest y : NoDup (h :: rest) → ¬ before (h :: rest) y h.
Proof.
  intros Hnd (i & j & Hi & Hj & Hij).
  assert (j = 0%nat) as -> by (by apply (NoDup_lookup (h :: rest) j 0%nat h)).
  lia.
Qed.

Lemma before_tail {A} (h : A) rest y x :
  before (h :: rest) y x → y ≠ h → before rest y x.
Proof.
  intros H Hne. apply (before_app [h] rest) in H as [H|[H|[H _]]]; [|done|].
  - apply before_elem_of_l in H. by apply list_elem_of_singleton in H.
  - by apply list_elem_of_singleton in H.
Qed.

Lemma sorted_before {A} (R : A → A → Prop) l a b :
  StronglySorted R l → before l a b → R a b.
Proof.
  induction 1 as [|x l Hs IH Hx]; intros H.
  - by apply before_elem_of_l, elem_of_nil in H.
  - apply (before_app [x] l) in H as [H|[H|[Ha Hb]]].
    + apply before_sublist, sublist_length in H. simpl in H. lia.
    + by apply IH.
    + apply list_elem_of_singleton in Ha as ->. rewrite Forall_forall in Hx. auto.
Qed.

(** Two duplicate-free lists with the same elements, both in the order of a
    third, are equal. *)
Lemma ordered_unique {A} `{!EqDecision A} (o l1 l2 : list A) :
  NoDup o → NoDup l1 → NoDup l2 → (∀ x, x ∈ l1 ↔ x ∈ l2) →
  (∀ a b, before l1 a b → before o a b) →
  (∀ a b, before l2 a b → before o a b) → l1 = l2.
Proof.
  intros Ho. revert l2. induction l1 as [|a l1 IH]; intros l2 Hn1 Hn2 Hel H1 H2.
  - destruct l2 as [|b l2]; [done|].
    assert (b ∈ []) as Hb by (apply Hel; left). by apply elem_of_nil in Hb.
  - destruct l2 as [|b l2].
    { assert (a ∈ []) as Ha by (apply Hel; left). by apply elem_of_nil in Ha. }
    apply NoDup_cons in Hn1 as [Ha1 Hn1]. apply NoDup_cons in Hn2 as [Hb2 Hn2].
    assert (a = b) as <-.
    { destruct (decide (a = b)) as [|Hne]; [done|].
      assert (a ∈ l2) as Ha2.
      { assert (a ∈ b :: l2) as H by (apply Hel; left).
        apply elem_of_cons in H as [?|?]; done. }
      assert (b ∈ l1) as Hb1.
      { assert (b ∈ a :: l1) as H by (apply Hel; left).
        apply elem_of_cons in H as [?|?]; [congruence|done]. }
      assert (before o a b) as Hab.
      { apply H1, (before_app [a] l1). right; right. split; [left|done]. }
      assert (before o b a) as Hba.
      { apply H2, (before_app [b] l2). right; right. split; [left|done]. }
      by destruct (before_asym o a b Ho Hab). }
    f_equal. apply IH; [done|done| | |].
    + intros x. split; intros Hx.
      * assert (x ∈ a :: l2) as H by (apply Hel; by right).
        apply elem_of_cons in H as [->|?]; done.
      * assert (x ∈ a :: l1) as H by (apply Hel; by right).
        apply elem_of_cons in H as [->|?]; done.
    + intros x y Hxy. apply H1, (before_app [a] l1). by right; left.
    + intros x y Hxy. apply H2, (before_app [a] l2). by right; left.
Qed.

(** The stable sort keeps the order of two elements with the same key, and
    puts a smaller key first. *)
Lemma before_sortBy_inv {A} (key : A → Z) (cmp : A → A → Z) l y x :
  (∀ a b, cmp a b = key a - key b) →
  before (sortBy cmp l) y x → key y = key x → before l y x.
Proof.
  intros Hk H E.
  apply (before_filter (λ a, key a = key x)) in H; [|done..].
  rewrite (sortBy_class key cmp Hk) in H. by apply before_filter_inv in H.
Qed.

Lemma before_sortBy {A} (key : A → Z) (cmp : A → A → Z) l y x :
  (∀ a b, cmp a b = key a - key b) → NoDup l → y ∈ l → x ∈ l → y ≠ x →
  key y < key x ∨ (key y = key x ∧ before l y x) →
  before (sortBy cmp l) y x.
Proof.
  intros Hk Hnd Hy Hx Hne Hcase.
  destruct (before_total (sortBy cmp l) y x) as [H|H]; [by apply elem_of_sortBy..|done|done|].
  pose proof (sorted_before _ _ _ _ (sortBy_sorted key cmp Hk l) H) as Hle.
  unfold keyLe in Hle. destruct Hcase as [?|[E Hb]]; [lia|].
  apply (before_sortBy_inv key cmp l x y Hk) in H; [|done].
  by destruct (before_asym l y x Hnd Hb).
Qed.

(** ** The order in which the loop takes the tasks *)

Lemma wcmp_key ts a b : wcmp ts a b = wkey ts a - wkey ts b.
Proof. unfold wcmp, wkey. lia. Qed.

Lemma sameStatic_priority t0 t : sameStatic t0 t → priority t = priority t0.
Proof. by intros ->. Qed.

Lemma taskOf_None ts x : x ∉ tid <$> ts → taskOf ts x = None.
Proof.
  intros Hx. unfold taskOf.
  assert (filter (λ t, tid t = x) ts = []) as ->; [|done].
  destruct (filter _ ts) as [|t l] eqn:E; [done|].
  assert (t ∈ filter (λ t, tid t = x) ts) as Ht by (rewrite E; left).
  apply list_elem_of_filter in Ht as [<- Ht]. destruct Hx.
  apply list_elem_of_fmap. eauto.
Qed.

Lemma taskOf_NoDup ts t : NoDup (tid <$> ts) → t ∈ ts → taskOf ts (tid t) = Some t.
Proof.
  unfold taskOf. induction ts as [|a ts IH]; intros Hnd Ht.
  - by apply elem_of_nil in Ht.
  - rewrite fmap_cons in Hnd. apply NoDup_cons in Hnd as [Ha Hnd].
    rewrite filter_cons. apply elem_of_cons in Ht as [->|Ht].
    + rewrite decide_True by done.
      pose proof (taskOf_None ts (tid a) Ha) as Hn. unfold taskOf in Hn.
      destruct (filter _ ts) as [|b l] eqn:E; [done|].
      by rewrite last_cons in Hn |- *; destruct (last l).
    + rewrite decide_False; [by apply IH|].
      intros E. apply Ha. rewrite E. apply list_elem_of_fmap. eauto.
Qed.

Lemma weightOf_static h0 ts s x :
  wf h0 ts s → NoDup (tid <$> ts) →
  weightOf (taskMap s) (heap s) x = weightIn ts x.
Proof.
  intros Hwf Hnd. unfold weightOf, weightIn.
  destruct (decide (x ∈ tid <$> ts)) as [Hx|Hx].
  - apply list_elem_of_fmap in Hx as (t & -> & Ht).
    destruct (wf_clone_of _ _ _ t Hwf Hnd Ht) as (l & c & Hl & Hc & Hst).
    unfold getTask. rewrite Hl, Hc, (taskOf_NoDup ts t Hnd Ht). simpl.
    by rewrite (sameStatic_priority _ _ Hst).
  - rewrite (taskOf_None ts x Hx). unfold getTask.
    destruct (taskMap s !! x) as [l|] eqn:Hl; [|done].
    destruct (wf_key_task _ _ _ _ _ Hwf Hl) as (t & Ht & <-).
    destruct Hx. apply list_elem_of_fmap. eauto.
Qed.

Lemma sortQueue_static h0 ts s q :
  wf h0 ts s → NoDup (tid <$> ts) →
  sortQueue (taskMap s) (heap s) q = sortBy (wcmp ts) q.
Proof.
  intros Hwf Hnd. apply sortBy_ext. intros a b. unfold queueCmp, wcmp.
  by rewrite !(weightOf_static h0 ts s).
Qed.

Lemma queue_sorted_static h0 ts project s :
  wf h0 ts s → NoDup (tid <$> ts) → topo project ts s →
  StronglySorted (keyLe (wkey ts)) (queue s).
Proof.
  intros Hwf Hnd Htopo.
  eapply StronglySorted_keyLe_ext; [|exact (topo_sorted _ _ _ Htopo)].
  intros x. unfold queueKey, wkey. by rewrite (weightOf_static h0 ts s).
Qed.

(** The queue after an iteration: what was left of it, followed by the
    tasks that the iteration released, in the order of the array, and
    sorted again. *)
Lemma step_queue h0 ts project users s s' i rest :
  NoDup (tid <$> ts) → wf h0 ts s → topo project ts s →
  step project users s s' → queue s = i :: rest →
  ∃ R, queue s' = sortBy (wcmp ts) (rest ++ R) ∧ R `sublist_of` tid <$> ts.
Proof.
  intros Hnd Hwf Htopo Hstep Hq.
  pose proof (wf_step _ _ _ _ _ _ Hwf Hstep) as Hwf'.
  destruct (step_fields _ _ _ _ Hstep)
    as (i' & rest' & l & task & start & assigned & Hq' & Hl & Htask & Hstart
        & Hheap & Htm & Hout & Hdq & Hopt).
  rewrite Hq in Hq'. injection Hq' as <- <-.
  assert (default [] (outgoingEdges s !! i) = outOf (taskMap s) ts i) as Houts.
  { by rewrite (wf_outgoing _ _ _ Hwf), Hl. }
  rewrite Houts in Hdq.
  destruct (release_outOf (taskMap s) (heap s') ts i (incomingDegree s) rest Hnd)
    as (_ & _ & D3).
  rewrite <-Hdq in D3. simpl in D3.
  assert (StronglySorted (keyLe (queueKey (taskMap s) (heap s'))) rest) as Hrest.
  { eapply (StronglySorted_keyLe_ext (queueKey (taskMap s) (heap s))).
    - intros x. unfold queueKey. by rewrite Hheap, (weightOf_insert _ _ _ task).
    - pose proof (topo_sorted _ _ _ Htopo) as Hs. rewrite Hq in Hs.
      by apply StronglySorted_inv in Hs as [? _]. }
  rewrite pushAll_sorted in D3 by done.
  exists (tid <$> filter (releasedBy (taskMap s) (incomingDegree s) i) ts).
  split.
  - rewrite D3, <-Htm. by apply (sortQueue_static h0).
  - apply fmap_sublist, sublist_filter.
Qed.

Lemma step_outs h0 ts project users s s' i rest :
  wf h0 ts s → topo project ts s → step project users s s' →
  queue s = i :: rest →
  ∃ l task floor bk,
    taskMap s !! i = Some l ∧ heap s !! l = Some task ∧ tid task = i
    ∧ dependencyEarliestStart project (taskMap s) (heap s) task = Some floor
    ∧ bookUser project (userAvailability s) task floor
        (chooseUser users (userAvailability s) task floor).1 = Some bk
    ∧ outs s' = outs s ++ [scheduled task bk.1.1 bk.2]
    ∧ userAvailability s' = bk.1.2
    ∧ conflictLog s'
      = conflictLog s ++ (chooseUser users (userAvailability s) task floor).2
    ∧ taskMap s' = taskMap s
    ∧ ∀ j, j ≠ i →
        getTask (taskMap s') (heap s') j = getTask (taskMap s) (heap s) j.
Proof.
  intros Hwf Htopo Hstep Hq.
  destruct (step_inv _ _ _ _ Hstep) as (i' & rest' & l & task & floor & bk & Hq' & Hl & Htask & Hfloor & Hbk & ->).
  rewrite Hq in Hq'. injection Hq' as <- <-.
  pose proof (fresh_loc _ _ _ _ _ _ _ Hwf Htopo Hq Hl) as Hfresh.
  exists l, task, floor, bk. split; [done|]. split; [done|]. split.
  { destruct (wf_taskMap _ _ _ Hwf _ _ Hl) as (_ & c & Hc & Hi). congruence. }
  split; [done|]. split; [done|].
  simpl. split; [|split; [done|split; [done|split; [done|]]]].
  - unfold outs. simpl. rewrite derefs_snoc, derefs_insert_fresh by done.
    by rewrite list_lookup_insert_eq by (by eapply lookup_lt_Some).
  - intros j Hj. rewrite (getTask_insert _ _ _ task) by done.
    rewrite decide_False; [done|]. intros Hjl. apply Hj.
    by apply (wf_taskMap_inj h0 ts s j i l).
Qed.

Lemma queue_done_step h0 ts project users s s' x :
  NoDup (tid <$> ts) → wf h0 ts s → topo project ts s →
  step project users s s' →
  x ∈ queue s ++ doneIds s → x ∈ queue s' ++ doneIds s'.
Proof.
  intros Hnd Hwf Htopo Hstep Hx.
  destruct Hstep as (i & rest & Hq & Hp).
  assert (step project users s s') as Hstep by (by exists i, rest).
  destruct (step_queue _ _ _ _ _ _ _ _ Hnd Hwf Htopo Hstep Hq) as (R & Hq' & _).
  rewrite (step_doneIds _ _ _ _ _ _ i rest Hwf Hstep Hq), Hq', !elem_of_app,
    elem_of_sortBy, elem_of_app, list_elem_of_singleton.
  rewrite Hq, elem_of_app, elem_of_cons in Hx. tauto.
Qed.

Lemma queue_done_final h0 ts project users s sf x :
  NoDup (tid <$> ts) → wf h0 ts s → topo project ts s →
  rtc (step project users) s sf → queue sf = [] →
  x ∈ queue s ++ doneIds s → x ∈ doneIds sf.
Proof.
  intros Hnd Hwf Htopo Hrtc. revert Hwf Htopo.
  induction Hrtc as [s|s s1 s2 Hstep _ IH]; intros Hwf Htopo Hq Hx.
  - by rewrite Hq in Hx.
  - apply IH; [by eapply wf_step|by eapply topo_step|done|].
    by eapply queue_done_step.
Qed.

Lemma precedes_step h0 ts project users s s' y x :
  NoDup (tid <$> ts) → wf h0 ts s → topo project ts s →
  weightIn ts x ≤ weightIn ts y → y ≠ x →
  precedes s y x → step project users s s' → precedes s' y x.
Proof.
  intros Hnd Hwf Htopo Hw Hne Hp Hstep.
  pose proof (wf_step _ _ _ _ _ _ Hwf Hstep) as Hwf'.
  pose proof (topo_step _ _ _ _ _ _ Hnd Hwf Htopo Hstep) as Htopo'.
  destruct Hstep as (i & rest & Hq & Hproc).
  assert (step project users s s') as Hstep by (by exists i, rest).
  pose proof (step_doneIds _ _ _ _ _ _ i rest Hwf Hstep Hq) as Hdone.
  destruct (step_queue _ _ _ _ _ _ _ _ Hnd Hwf Htopo Hstep Hq) as (R & Hq' & _).
  pose proof (topo_nodup _ _ _ Htopo) as Hn. rewrite Hq in Hn.
  apply NoDup_app in Hn as (Hnq & Hdisj & _).
  pose proof (topo_nodup _ _ _ Htopo') as Hn'.
  apply NoDup_app in Hn' as (Hnq' & _ & _).
  rewrite Hq' in Hnq'. apply (proj1 (NoDup_sortBy (wcmp ts) _)) in Hnq'.
  destruct Hp as [[Hy Hx]|(Hy & Hx & Hb)].
  - left. rewrite Hdone. split; [apply elem_of_app; by left|].
    intros [Hxd|Hxi]%elem_of_app; apply before_app.
    + left. auto.
    + right; right. done.
  - rewrite Hq in Hy, Hb. apply elem_of_cons in Hy as [->|Hy].
    + left. rewrite Hdone. split; [apply elem_of_app; right; left|].
      intros [Hxd|Hxi]%elem_of_app; [done|].
      apply list_elem_of_singleton in Hxi. congruence.
    + right.
      assert (x ≠ i) as Hxi.
      { intros ->. apply (before_head i rest y Hnq). apply Hb. left. }
      assert (y ≠ i) as Hyi.
      { intros ->. by apply NoDup_cons in Hnq as [? _]. }
      split; [rewrite Hq', elem_of_sortBy, elem_of_app; by left|].
      split.
      { rewrite Hdone, elem_of_app, list_elem_of_singleton. tauto. }
      intros Hxq. rewrite Hq' in Hxq |- *. apply elem_of_sortBy in Hxq.
      apply (before_sortBy (wkey ts) (wcmp ts)); [apply wcmp_key|done| |done|done|].
      { apply elem_of_app. by left. }
      unfold wkey.
      destruct (decide (weightIn ts x = weightIn ts y)) as [E|E]; [|left; lia].
      right. split; [lia|]. apply before_app.
      apply elem_of_app in Hxq as [Hxr|HxR].
      * left. apply (before_tail i); [|done]. apply Hb. by right.
      * right; right. done.
Qed.

Lemma precedes_rtc h0 ts project users s s' y x :
  NoDup (tid <$> ts) → wf h0 ts s → topo project ts s →
  weightIn ts x ≤ weightIn ts y → y ≠ x →
  precedes s y x → rtc (step project users) s s' → precedes s' y x.
Proof.
  intros Hnd Hwf Htopo Hw Hne Hp Hrtc. revert Hwf Htopo Hp.
  induction Hrtc as [s|s s1 s2 Hstep _ IH]; intros Hwf Htopo Hp; [done|].
  apply IH; [by eapply wf_step|by eapply topo_step|by eapply precedes_step].
Qed.

(** Tasks that wait in the queue are taken in the order of the queue, and
    before a task of no greater weight that is not in the queue yet. *)
Lemma queue_order_final h0 ts project users s sf y x :
  NoDup (tid <$> ts) → wf h0 ts s → topo project ts s →
  rtc (step project users) s sf → queue sf = [] →
  before (queue s) y x → before (doneIds sf) y x.
Proof.
  intros Hnd Hwf Htopo Hrtc Hqf Hb.
  pose proof (topo_nodup _ _ _ Htopo) as Hn.
  apply NoDup_app in Hn as (Hnq & Hdisj & _).
  pose proof (before_elem_of_l _ _ _ Hb) as Hy.
  pose proof (before_elem_of_r _ _ _ Hb) as Hx.
  pose proof (sorted_before _ _ _ _ (queue_sorted_static _ _ _ _ Hwf Hnd Htopo) Hb)
    as Hle. unfold keyLe, wkey in Hle.
  assert (precedes sf y x) as [[_ H]|(H & _)].
  { eapply precedes_rtc; eauto; [lia|by eapply before_ne|].
    right. split; [done|]. split; [by apply Hdisj|done]. }
  - apply H. eapply queue_done_final; eauto. apply elem_of_app. by left.
  - rewrite Hqf in H. by apply elem_of_nil in H.
Qed.

Lemma arrival_order_final h0 ts project users s sf y x :
  NoDup (tid <$> ts) → wf h0 ts s → topo project ts s →
  rtc (step project users) s sf → queue sf = [] →
  y ∈ queue s → x ∈ doneIds sf → x ∉ queue s → x ∉ doneIds s →
  weightIn ts x ≤ weightIn ts y → before (doneIds sf) y x.
Proof.
  intros Hnd Hwf Htopo Hrtc Hqf Hy Hx Hxq Hxd Hw.
  assert (precedes sf y x) as [[_ H]|(H & _)].
  { eapply precedes_rtc; eauto; [by intros ->|].
    right. done. }
  - by apply H.
  - rewrite Hqf in H. by apply elem_of_nil in H.
Qed.

(** ** The call on a schedule that a first call returned *)

Lemma StronglySorted_keyLe_ext_in {A} (f g : A → Z) l :
  (∀ x, x ∈ l → f x = g x) → StronglySorted (keyLe f) l → StronglySorted (keyLe g) l.
Proof.
  intros E Hs. induction Hs as [|x l Hs IH Hx]; [constructor|].
  constructor.
  - apply IH. intros y Hy. apply E. by right.
  - rewrite Forall_forall in Hx |- *. intros y Hy. unfold keyLe.
    rewrite <-(E x), <-(E y); [by apply Hx|by right|left].
Qed.

Lemma wf_keys h0 ts s x : wf h0 ts s → is_Some (taskMap s !! x) ↔ x ∈ tid <$> ts.
Proof.
  intros Hwf. split.
  - intros [l Hl]. destruct (wf_key_task _ _ _ _ _ Hwf Hl) as (t & Ht & <-).
    apply list_elem_of_fmap. eauto.
  - intros (t & -> & Ht)%list_elem_of_fmap. by apply (wf_known _ _ _ Hwf).
Qed.

Lemma derefs_frame (h0 h : Heap) refs :
  take (length h0) h = h0 → Forall (λ l, (l < length h0)%nat) refs →
  derefs h refs = derefs h0 refs.
Proof.
  intros Hf Hv. unfold derefs. induction Hv as [|l refs Hl _ IH]; csimpl; [done|].
  assert (h !! l = h0 !! l) as ->; [|by rewrite IH].
  rewrite <-(lookup_take_lt h (length h0) l) by done. by rewrite Hf.
Qed.

Lemma bookUser_truthy project av task task' floor b :
  truthy b = true → duration task' = duration task →
  bookUser project av task' floor b = bookUser project av task floor b.
Proof.
  intros Ht Hd. unfold bookUser. destruct b as [u|]; [|done].
  by rewrite Ht, Hd.
Qed.

Lemma bookUser_falsy project av task floor b :
  truthy b = false →
  bookUser project av task floor b = Some (floor, av, assignedTo task).
Proof.
  intros Ht. unfold bookUser. destruct b as [u|]; [|done]. by rewrite Ht.
Qed.

Lemma chooseUser_stable users av task floor d b :
  (chooseUser users av task floor).1 = Some b →
  chooseUser users av (scheduled task d (Some b)) floor
  = (Some b, (chooseUser users av task floor).2).
Proof.
  unfold chooseUser. cbn [requiredSpecialty assignedTo name scheduled].
  destruct (truthy (requiredSpecialty task)); [|done].
  destruct (candidatesFor users av _) as [|c0 cs]; [done|].
  destruct (existsb (λ c, bool_decide (Some (uid c) = assignedTo task)) (c0 :: cs)
            && (availOf av (default EmptyString (assignedTo task)) <=? floor))
    eqn:Hk; cbn [fst snd].
  - intros E. rewrite E in Hk. by rewrite Hk.
  - intros [= <-]. clear Hk. by case_match.
Qed.

(** The decision taken for a task is the one taken again for the task as
    that decision left it. *)
Lemma decision_idempotent project users av task floor bk :
  let choice := chooseUser users av task floor in
  bookUser project av task floor choice.1 = Some bk →
  let task' := scheduled task bk.1.1 bk.2 in
  (chooseUser users av task' floor).2 = choice.2
  ∧ bookUser project av task' floor (chooseUser users av task' floor).1
    = Some bk.
Proof.
  intros choice Hbk task'.
  destruct (bookUser_cases _ _ _ _ _ _ Hbk)
    as [(b & e & Hb & Hbne & He & E)|[Hf E]].
  - assert (task' = scheduled task bk.1.1 (Some b)) as ->.
    { unfold task'. by rewrite E. }
    rewrite (chooseUser_stable users av task floor _ b Hb). cbn [fst snd].
    split; [done|]. rewrite <-Hbk. fold choice. rewrite Hb.
    apply bookUser_truthy; [|done]. by apply truthy_Some.
  - assert (task' = scheduled task floor (assignedTo task)) as ->.
    { unfold task'. by rewrite E. }
    change (chooseUser users av (scheduled task floor (assignedTo task)) floor)
      with choice.
    split; [done|]. rewrite E. by rewrite bookUser_falsy.
Qed.

Lemma depStep_is_Some tm h ds acc :
  (∀ d cd, d ∈ ds → getTask tm h d = Some cd → is_Some (endDate cd)) →
  is_Some (forEachM (depStep tm h) ds acc).
Proof.
  revert acc. induction ds as [|d ds IH]; intros acc Hall; simpl; [eauto|].
  unfold depStep at 1. destruct (getTask tm h d) as [cd|] eqn:Hcd.
  - destruct (Hall d cd) as [e He]; [left|done|]. unfold endDate in He.
    rewrite He. apply IH. intros d' cd' Hd'. apply Hall. by right.
  - apply IH. intros d' cd' Hd'. apply Hall. by right.
Qed.

(** The floor of a task of the queue is computed whenever the processed
    tasks it depends on have end dates. *)
Lemma floor_defined h0 ts project s i l task :
  wf h0 ts s → topo project ts s → i ∈ queue s →
  taskMap s !! i = Some l → heap s !! l = Some task →
  is_Some (floorOf project (outs s) task) →
  is_Some (dependencyEarliestStart project (taskMap s) (heap s) task).
Proof.
  intros Hwf Htopo Hq Hl Htask [f Hf]. unfold floorOf in Hf.
  destruct (mapM endDate _) as [ends|] eqn:Hends; [|done].
  apply depStep_is_Some. intros d cd Hd Hcd.
  assert (is_Some (taskMap s !! d)) as Hkey.
  { unfold getTask in Hcd. destruct (taskMap s !! d); [eauto|done]. }
  pose proof (ready_deps_done _ _ _ _ _ _ _ _ Hwf Htopo Hq Hl Htask Hd Hkey)
    as Hdone.
  apply done_out in Hdone as (a & Ha & Hida).
  pose proof (out_getTask _ _ _ _ Hwf Ha) as Hga. rewrite Hida in Hga.
  assert (a = cd) as -> by congruence.
  assert (is_Some (mapM endDate (filter (λ a, tid a ∈ depsOf task) (outs s))))
    as Hs by (rewrite Hends; eauto).
  apply mapM_is_Some in Hs. rewrite Forall_forall in Hs. apply (Hs cd).
  apply list_elem_of_filter. by rewrite Hida.
Qed.

(** The loop returns the state that its steps lead to. *)
Lemma processLoop_rtc h0 ts project users fuel s sf :
  wf h0 ts s → (length ts ≤ fuel + length (optimized s))%nat →
  rtc (step project users) s sf → queue sf = [] →
  processLoop fuel project users s = Ok sf.
Proof.
  intros Hwf Hfuel Hrtc. revert fuel Hwf Hfuel.
  induction Hrtc as [s|s s1 sf Hstep _ IH]; intros fuel Hwf Hfuel Hq.
  - destruct fuel; simpl; by rewrite Hq.
  - pose proof Hstep as (i & rest & Hqs & Hp).
    pose proof (wf_measure _ _ _ Hwf) as Hm. rewrite Hqs in Hm. simpl in Hm.
    destruct fuel as [|fuel]; [lia|]. simpl. rewrite Hqs, Hp. simpl.
    apply IH; [by eapply wf_step| |done].
    rewrite (step_optimized_length _ _ _ _ Hstep). lia.
Qed.

Lemma step_det project users s s1 s2 :
  step project users s s1 → step project users s s2 → s1 = s2.
Proof.
  intros (i & rest & Hq & Hp) (i' & rest' & Hq' & Hp').
  rewrite Hq in Hq'. injection Hq' as <- <-. congruence.
Qed.

Lemma final_unique project users a s s' :
  rtc (step project users) a s → rtc (step project users) a s' →
  queue s = [] → queue s' = [] → s = s'.
Proof.
  intros Hrtc. revert s'. induction Hrtc as [a|a b s Hstep _ IH]; intros s' Hrtc' Hq Hq'.
  - symmetry. by eapply rtc_step_stuck.
  - destruct Hrtc' as [a|a b' s' Hstep' Hrtc'].
    + by apply step_queue_nonempty in Hstep.
    + rewrite <-(step_det _ _ _ _ _ Hstep Hstep') in Hrtc'. by apply IH.
Qed.

Lemma rtc_outs h0 ts project users s s' c :
  NoDup (tid <$> ts) → wf h0 ts s → topo project ts s →
  rtc (step project users) s s' → c ∈ outs s → c ∈ outs s'.
Proof.
  intros Hnd Hwf Htopo Hrtc. revert Hwf Htopo.
  induction Hrtc as [s|s s1 s2 Hstep _ IH]; intros Hwf Htopo Hc; [done|].
  apply IH; [by eapply wf_step|by eapply topo_step|].
  destruct Hstep as (i & rest & Hq & Hp).
  assert (step project users s s1) as Hstep by (by exists i, rest).
  destruct (step_outs _ _ _ _ _ _ _ _ Hwf Htopo Hstep Hq)
    as (l & task & floor & bk & _ & _ & _ & _ & _ & Ho & _).
  rewrite Ho. apply elem_of_app. by left.
Qed.

Section reschedule.
Context (today : Z) (project : Project) (users : list User).
Context (h0 : Heap) (pts others : list loc) (sf : State).
Hypothesis Hnd1 : NoDup (tid <$> derefs h0 pts).
Hypothesis Hreach : reachable today project h0 pts users others sf.
Hypothesis Hfinal : queue sf = [].

Lemma final_wf : wf h0 (derefs h0 pts) sf.
Proof. by eapply wf_reachable. Qed.

Lemma final_topo : topo project (derefs h0 pts) sf.
Proof. by eapply topo_reachable. Qed.

Lemma final_NoDup : NoDup (tid <$> outs sf).
Proof.
  pose proof (topo_nodup _ _ _ final_topo) as Hn. by rewrite Hfinal in Hn.
Qed.

Lemma final_source c :
  c ∈ outs sf → ∃ t, t ∈ derefs h0 pts ∧ sameStatic t c.
Proof. apply (out_source h0), final_wf. Qed.

Lemma final_known x : x ∈ doneIds sf → x ∈ tid <$> derefs h0 pts.
Proof. apply (doneIds_known h0), final_wf. Qed.

Lemma final_weight x : x ∈ doneIds sf → weightIn (outs sf) x = weightIn (derefs h0 pts) x.
Proof.
  intros (c & -> & Hc)%list_elem_of_fmap.
  destruct (final_source c Hc) as (t & Ht & Hst).
  unfold weightIn. rewrite (taskOf_NoDup (outs sf) c final_NoDup Hc).
  rewrite (sameStatic_tid _ _ Hst), (taskOf_NoDup _ t Hnd1 Ht). simpl.
  by rewrite (sameStatic_priority _ _ Hst).
Qed.

Lemma final_closed c d :
  c ∈ outs sf → d ∈ depsOf c → d ∈ tid <$> derefs h0 pts → d ∈ doneIds sf.
Proof.
  intros Hc Hd Hin. destruct (final_source c Hc) as (t & Ht & Hst).
  apply (before_elem_of_l (doneIds sf) d (tid c)).
  apply (depEdge_before h0 (derefs h0 pts) project sf); [apply final_wf|apply final_topo| |].
  - exists t. split; [done|]. split; [by rewrite (sameStatic_tid _ _ Hst)|].
    split; [|done]. by rewrite <-(sameStatic_depsOf _ _ Hst).
  - apply list_elem_of_fmap. eauto.
Qed.

Lemma presentDeps_agree s1 s2 t1 t2 :
  wf h0 (derefs h0 pts) s1 → wf (heap sf) (outs sf) s2 →
  t1 ∈ derefs h0 pts → t2 ∈ outs sf → tid t1 = tid t2 →
  presentDeps (taskMap s1) t1 = presentDeps (taskMap s2) t2.
Proof.
  intros Hwf1 Hwf2 Ht1 Ht2 Hid.
  destruct (final_source t2 Ht2) as (t & Ht & Hst).
  assert (t = t1) as ->.
  { apply (NoDup_tid_eq (derefs h0 pts)); [done..|].
    by rewrite <-(sameStatic_tid _ _ Hst). }
  unfold presentDeps. rewrite (sameStatic_depsOf _ _ Hst).
  apply filter_ext_in. intros d Hd.
  rewrite (wf_keys _ _ _ d Hwf1), (wf_keys _ _ _ d Hwf2). split.
  - intros Hin. apply (final_closed t2); [done| |done].
    by rewrite (sameStatic_depsOf _ _ Hst).
  - apply final_known.
Qed.

Lemma pending_agree s1 s2 t1 t2 done :
  wf h0 (derefs h0 pts) s1 → wf (heap sf) (outs sf) s2 →
  t1 ∈ derefs h0 pts → t2 ∈ outs sf → tid t1 = tid t2 →
  pending (taskMap s1) done t1 = pending (taskMap s2) done t2.
Proof.
  intros Hwf1 Hwf2 Ht1 Ht2 Hid. unfold pending.
  by rewrite (presentDeps_agree s1 s2 t1 t2).
Qed.

Lemma queue_agree s1 s2 x :
  wf h0 (derefs h0 pts) s1 → topo project (derefs h0 pts) s1 →
  rtc (step project users) s1 sf →
  wf (heap sf) (outs sf) s2 → topo project (outs sf) s2 →
  doneIds s2 = doneIds s1 →
  x ∈ queue s1 ↔ x ∈ queue s2.
Proof.
  intros Hwf1 Htopo1 Hrtc Hwf2 Htopo2 Hdone.
  pose proof (topo_nodup _ _ _ Htopo1) as Hn1.
  apply NoDup_app in Hn1 as (_ & Hdisj1 & _).
  pose proof (topo_nodup _ _ _ Htopo2) as Hn2.
  apply NoDup_app in Hn2 as (_ & Hdisj2 & _).
  assert (∀ t1 t2, t1 ∈ derefs h0 pts → t2 ∈ outs sf → tid t1 = tid t2 →
            tid t1 ∈ queue s1 ++ doneIds s1 ↔ tid t2 ∈ queue s2 ++ doneIds s2) as Hiff.
  { intros t1 t2 Ht1 Ht2 Hid.
    rewrite <-(topo_ready _ _ _ Htopo1 t1 Ht1), <-(topo_ready _ _ _ Htopo2 t2 Ht2).
    by rewrite Hdone, (pending_agree s1 s2 t1 t2). }
  assert (x ∈ doneIds sf → x ∈ queue s1 ↔ x ∈ queue s2) as Hcase.
  { intros (t2 & -> & Ht2)%list_elem_of_fmap.
    destruct (final_source t2 Ht2) as (t1 & Ht1 & Hst).
    pose proof (sameStatic_tid _ _ Hst) as Hid. symmetry in Hid.
    specialize (Hiff t1 t2 Ht1 Ht2 Hid). rewrite Hid in Hiff.
    rewrite !elem_of_app in Hiff. split; intros Hx.
    - destruct (proj1 Hiff (or_introl Hx)) as [?|Hd]; [done|].
      rewrite Hdone in Hd. by destruct (Hdisj1 _ Hx).
    - destruct (proj2 Hiff (or_introl Hx)) as [?|Hd]; [done|].
      rewrite <-Hdone in Hd. by destruct (Hdisj2 _ Hx). }
  split; intros Hx.
  - apply Hcase; [|done].
    eapply (queue_done_final h0); eauto. apply elem_of_app. by left.
  - apply Hcase; [|done].
    apply (wf_keys _ _ _ x Hwf2). by apply (wf_queue _ _ _ Hwf2).
Qed.

(** The two queues are equal when the tasks of one weight are, in the
    second, in the order in which the first call took them. *)
Lemma queue_eq s1 s2 :
  wf h0 (derefs h0 pts) s1 → topo project (derefs h0 pts) s1 →
  rtc (step project users) s1 sf →
  wf (heap sf) (outs sf) s2 → topo project (outs sf) s2 →
  doneIds s2 = doneIds s1 →
  (∀ y x, before (queue s2) y x → weightIn (outs sf) y = weightIn (outs sf) x →
          before (doneIds sf) y x) →
  queue s2 = queue s1.
Proof.
  intros Hwf1 Htopo1 Hrtc Hwf2 Htopo2 Hdone Hcls.
  pose proof (queue_agree s1 s2) as Hag.
  assert (∀ x, x ∈ queue s2 → x ∈ doneIds sf) as Hin2.
  { intros x Hx. apply (wf_keys _ _ _ x Hwf2). by apply (wf_queue _ _ _ Hwf2). }
  pose proof (topo_nodup _ _ _ Htopo1) as Hn1. apply NoDup_app in Hn1 as (Hn1 & _).
  pose proof (topo_nodup _ _ _ Htopo2) as Hn2. apply NoDup_app in Hn2 as (Hn2 & _).
  apply (sorted_classes_eq (wkey (derefs h0 pts))).
  - apply (StronglySorted_keyLe_ext_in (wkey (outs sf))).
    + intros x Hx. unfold wkey. by rewrite final_weight by auto.
    + apply (queue_sorted_static (heap sf) _ project); [done|apply final_NoDup|done].
  - by apply (queue_sorted_static h0 _ project).
  - intros c. apply (ordered_unique (doneIds sf)).
    + apply final_NoDup.
    + by apply NoDup_filter.
    + by apply NoDup_filter.
    + intros x. rewrite !list_elem_of_filter. by rewrite (Hag x).
    + intros a b Hab.
      pose proof (before_elem_of_l _ _ _ Hab) as [Ha Haq]%list_elem_of_filter.
      pose proof (before_elem_of_r _ _ _ Hab) as [Hb Hbq]%list_elem_of_filter.
      apply before_filter_inv in Hab. apply Hcls; [done|].
      rewrite !final_weight by auto. unfold wkey in Ha, Hb. lia.
    + intros a b Hab. apply before_filter_inv in Hab.
      by apply (queue_order_final h0 (derefs h0 pts) project users s1).
Qed.

Hypothesis Hothers : Forall (λ l, (l < length h0)%nat) others.

Lemma others_frame : derefs (heap sf) others = derefs h0 others.
Proof. apply derefs_frame; [apply (wf_frame _ _ _ final_wf)|done]. Qed.

(** The second call reaches the loop, with the availability map of the
    first. *)
Lemma init_again av :
  initState today project h0 pts users others = Ok (loopEntry h0 pts av) →
  initState today project (heap sf) (optimized sf) users others
  = Ok (loopEntry (heap sf) (optimized sf) av).
Proof.
  intros ?%init_avail. apply initState_Ok. exists av. split; [|done].
  by rewrite others_frame.
Qed.

Lemma sim_init av :
  rtc (step project users) (loopEntry h0 pts av) sf →
  sim sf (loopEntry h0 pts av) (loopEntry (heap sf) (optimized sf) av).
Proof.
  intros Hrtc.
  pose proof (wf_init h0 pts av) as Hwf1.
  pose proof (topo_init project h0 pts av Hnd1) as Htopo1.
  pose proof (wf_init (heap sf) (optimized sf) av) as Hwf2.
  pose proof (topo_init project (heap sf) (optimized sf) av final_NoDup)
    as Htopo2.
  destruct (init_unfold h0 pts av)
    as (_ & _ & _ & _ & _ & Hopt1 & Hlog1 & Hav1).
  destruct (init_unfold (heap sf) (optimized sf) av)
    as (Hh2 & Htm2 & _ & _ & Hq2 & Hopt2 & Hlog2 & Hav2).
  split.
  - apply queue_eq; [done..| |].
    + unfold doneIds. by rewrite Hopt1, Hopt2.
    + intros y x Hb Hw. rewrite Hq2, <-Hh2, <-Htm2 in Hb.
      rewrite (sortQueue_static (heap sf) (outs sf)) in Hb by (done || apply final_NoDup).
      apply (before_sortBy_inv (wkey (outs sf)) _ _ _ _ (wcmp_key _)) in Hb;
        [|unfold wkey; lia].
      by apply before_filter_inv in Hb.
  - unfold outs. by rewrite Hopt1, Hopt2.
  - by rewrite Hav1, Hav2.
  - by rewrite Hlog1, Hlog2.
  - intros i (c & -> & Hc)%list_elem_of_fmap _.
    pose proof (init_getTask (heap sf) (optimized sf) av (tid c)) as Hg.
    cbv zeta in Hg. rewrite Hg.
    change (derefs (heap sf) (optimized sf)) with (outs sf).
    rewrite (taskOf_NoDup _ c final_NoDup Hc). symmetry.
    apply (out_getTask h0 (derefs h0 pts)); [apply final_wf|done].
Qed.

Lemma sim_step s1 s1' s2 :
  wf h0 (derefs h0 pts) s1 → topo project (derefs h0 pts) s1 →
  wf (heap sf) (outs sf) s2 → topo project (outs sf) s2 →
  sim sf s1 s2 → step project users s1 s1' → rtc (step project users) s1' sf →
  ∃ s2', step project users s2 s2' ∧ sim sf s1' s2'.
Proof.
  intros Hwf1 Htopo1 Hwf2 Htopo2 [Sq So Sa Sl Si] Hstep1 Hrtc'.
  pose proof final_NoDup as Hnd2.
  pose proof (wf_step _ _ _ _ _ _ Hwf1 Hstep1) as Hwf1'.
  pose proof (topo_step _ _ _ _ _ _ Hnd1 Hwf1 Htopo1 Hstep1) as Htopo1'.
  assert (rtc (step project users) s1 sf) as Hrtc by (by eapply rtc_l).
  destruct Hstep1 as (i & rest & Hq1 & Hp1).
  assert (step project users s1 s1') as Hstep1 by (by exists i, rest).
  assert (queue s2 = i :: rest) as Hq2 by congruence.
  destruct (step_outs _ _ _ _ _ _ _ _ Hwf1 Htopo1 Hstep1 Hq1)
    as (l1 & task1 & floor1 & bk1 & Hl1 & Ht1 & Hid1 & Hf1 & Hb1 & Ho1 & Ha1
        & Hg1 & Htm1 & Hget1).
  pose proof (step_doneIds _ _ _ _ _ _ i rest Hwf1 Hstep1 Hq1) as Hdone1.
  assert (doneIds s2 = doneIds s1) as Hdone by (unfold doneIds; by fold (outs s1) (outs s2); rewrite So).
  pose proof (topo_nodup _ _ _ Htopo1) as Hn1. rewrite Hq1 in Hn1.
  apply NoDup_app in Hn1 as (Hnq1 & Hdisj1 & _).
  assert (i ∈ doneIds sf) as Hif.
  { apply (queue_done_final h0 (derefs h0 pts) project users s1'); [done..|].
    rewrite Hdone1, !elem_of_app, list_elem_of_singleton. tauto. }
  assert (i ∉ doneIds s1) as Hi1 by (apply Hdisj1; left).
  (* the task that the second call takes is the one the first call made *)
  destruct (processTask_defined _ _ project users s2 i rest Hwf2 Hq2)
    as (l2 & task2 & Hl2 & Ht2 & Hp2).
  assert (task2 = scheduled task1 bk1.1.1 bk1.2) as Etask.
  { assert (getTask (taskMap sf) (heap sf) i = Some (scheduled task1 bk1.1.1 bk1.2))
      as Hgf.
    { rewrite <-Hid1.
      apply (out_getTask h0 (derefs h0 pts) sf (scheduled task1 bk1.1.1 bk1.2));
        [apply final_wf|].
      apply (rtc_outs h0 (derefs h0 pts) project users s1'); [done..|].
      rewrite Ho1. apply elem_of_app. right. left. }
    rewrite <-(Si i Hif Hi1) in Hgf. unfold getTask in Hgf.
    rewrite Hl2, Ht2 in Hgf. by injection Hgf. }
  assert (dependencyEarliestStart project (taskMap s2) (heap s2) task2
          = Some floor1) as Efloor.
  { pose proof (floor_closed _ _ _ _ i l1 task1 floor1 Hwf1 Htopo1) as Hc1.
    rewrite Hq1 in Hc1. specialize (Hc1 ltac:(left) Hl1 Ht1 Hf1).
    assert (floorOf project (outs s2) task2 = Some floor1) as Hc2
      by (by rewrite So, Etask).
    destruct (floor_defined _ _ project s2 i l2 task2 Hwf2 Htopo2) as [f2 Hf2];
      [rewrite Hq2; left|done|done|by rewrite Hc2|].
    pose proof (floor_closed _ _ _ _ i l2 task2 f2 Hwf2 Htopo2) as Hc2'.
    rewrite Hq2 in Hc2'. specialize (Hc2' ltac:(left) Hl2 Ht2 Hf2). congruence. }
  destruct (decision_idempotent project users (userAvailability s1) task1 floor1
              bk1 Hb1) as [Ec Eb].
  rewrite <-Etask, <-Sa in Ec, Eb.
  destruct Hp2 as [[s2' Hp2]|[_ [Hn|(f & Hf & Hn)]]]; [|congruence..].
  assert (step project users s2 s2') as Hstep2 by (by exists i, rest).
  exists s2'. split; [done|].
  pose proof (wf_step _ _ _ _ _ _ Hwf2 Hstep2) as Hwf2'.
  pose proof (topo_step _ _ _ _ _ _ Hnd2 Hwf2 Htopo2 Hstep2) as Htopo2'.
  destruct (step_outs _ _ _ _ _ _ _ _ Hwf2 Htopo2 Hstep2 Hq2)
    as (l2' & task2' & floor2 & bk2 & Hl2' & Ht2' & Hid2 & Hf2 & Hb2 & Ho2 & Ha2
        & Hg2 & Htm2 & Hget2).
  assert (l2' = l2) as -> by congruence.
  assert (task2' = task2) as -> by congruence.
  assert (floor2 = floor1) as -> by congruence.
  assert (bk2 = bk1) as -> by congruence.
  pose proof (step_doneIds _ _ _ _ _ _ i rest Hwf2 Hstep2 Hq2) as Hdone2.
  rewrite Ec in Hg2. rewrite Etask in Ho2.
  assert (outs s2' = outs s1') as So'.
  { by rewrite Ho2, Ho1, So. }
  split.
  - (* the queues *)
    apply queue_eq; [done..| |].
    { unfold doneIds. by fold (outs s1') (outs s2'); rewrite So'. }
    destruct (step_queue _ _ _ _ _ _ _ _ Hnd2 Hwf2 Htopo2 Hstep2 Hq2)
      as (R & Hq2' & HR).
    pose proof (topo_nodup _ _ _ Htopo2') as Hn2.
    apply NoDup_app in Hn2 as (Hnq2 & Hdisj2 & _).
    assert (NoDup (rest ++ R)) as HnR.
    { rewrite Hq2' in Hnq2. by apply (proj1 (NoDup_sortBy (wcmp (outs sf)) _)). }
    apply NoDup_app in HnR as (_ & HdisjR & _).
    intros y x Hb Hw. rewrite Hq2' in Hb.
    apply (before_sortBy_inv (wkey (outs sf)) _ _ _ _ (wcmp_key _)) in Hb;
      [|unfold wkey; lia].
    apply before_app in Hb as [Hb|[Hb|[Hy Hx]]].
    + apply (queue_order_final h0 (derefs h0 pts) project users s1); [done..|].
      rewrite Hq1. apply (before_app [i] rest). by right; left.
    + by apply (before_mono R).
    + assert (x ∈ queue s2') as Hxq.
      { rewrite Hq2', elem_of_sortBy, elem_of_app. by right. }
      assert (x ∈ doneIds sf) as Hxf by (by apply (elem_of_sublist R)).
      assert (y ∈ doneIds sf) as Hyf.
      { apply (queue_done_final h0 (derefs h0 pts) project users s1); [done..|].
        rewrite Hq1, elem_of_app, elem_of_cons. tauto. }
      apply (arrival_order_final h0 (derefs h0 pts) project users s1);
        [done..| |done| | |].
      * rewrite Hq1. by right.
      * rewrite Hq1. intros [->|Hxr]%elem_of_cons.
        -- apply (Hdisj2 i Hxq). rewrite Hdone2, elem_of_app, list_elem_of_singleton.
           tauto.
        -- by apply (HdisjR x Hxr).
      * intros Hxd. apply (Hdisj2 x Hxq).
        rewrite Hdone2, Hdone, elem_of_app. tauto.
      * rewrite <-!final_weight by done. lia.
  - done.
  - by rewrite Ha2, Ha1.
  - by rewrite Hg2, Hg1, Sl, Sa.
  - intros j Hjf Hj1. rewrite Hdone1, elem_of_app, list_elem_of_singleton in Hj1.
    rewrite Hget2 by tauto. apply Si; tauto.
Qed.

Lemma sim_run s1 :
  rtc (step project users) s1 sf →
  wf h0 (derefs h0 pts) s1 → topo project (derefs h0 pts) s1 →
  ∀ s2, wf (heap sf) (outs sf) s2 → topo project (outs sf) s2 → sim sf s1 s2 →
  ∃ s2f, rtc (step project users) s2 s2f ∧ queue s2f = []
         ∧ outs s2f = outs sf ∧ conflictLog s2f = conflictLog sf.
Proof.
  intros Hrtc. pattern s1. revert s1 Hrtc. apply rtc_ind_l.
  - intros _ _ s2 _ _ [Sq So Sa Sl _]. exists s2.
    split; [done|]. split; [congruence|done].
  - intros x y Hstep Hrtc IH Hwf1 Htopo1 s2 Hwf2 Htopo2 Hsim.
    destruct (sim_step x y s2 Hwf1 Htopo1 Hwf2 Htopo2 Hsim Hstep Hrtc)
      as (s2' & Hstep2 & Hsim').
    destruct (IH (wf_step _ _ _ _ _ _ Hwf1 Hstep)
                 (topo_step _ _ _ _ _ _ Hnd1 Hwf1 Htopo1 Hstep) s2'
                 (wf_step _ _ _ _ _ _ Hwf2 Hstep2)
                 (topo_step _ _ _ _ _ _ final_NoDup Hwf2 Htopo2 Hstep2) Hsim')
      as (s2f & Hrtc2 & Hrest).
    exists s2f. split; [by eapply rtc_l|done].
Qed.
End reschedule.

(** X12. Rescheduling a schedule changes nothing.  For tasks with pairwise
    distinct ids, a second call on the [optimizedTasks] of a first call, in
    the store that the first call left, with the same project, roster,
    tasks of the other projects and current date, returns the same tasks,
    with the same start dates and assignees and in the same order, and the
    same [conflicts]. *)
Theorem reschedule_fixed_point today project h0 projectTasks allUsers
    existingGlobalTasks r h' :
  NoDup (tid <$> derefs h0 projectTasks) →
  Forall (λ l, (l < length h0)%nat) existingGlobalTasks →
  scheduleProject today project h0 projectTasks allUsers existingGlobalTasks
  = Ok (r, h') →
  ∃ r2 h2,
    scheduleProject today project h' (optimizedTasks r) allUsers
      existingGlobalTasks = Ok (r2, h2)
    ∧ derefs h2 (optimizedTasks r2) = derefs h' (optimizedTasks r)
    ∧ conflicts r2 = conflicts r.
Proof.
  intros Hnd Hothers Hs.
  apply scheduleProject_final in Hs as (sf & Hreach & Hfinal & -> & ->). simpl.
  pose proof Hreach as (s0 & Hs0 & Hrtc).
  pose proof Hs0 as (av & _ & ->)%initState_Ok.
  pose proof (final_NoDup today project allUsers h0 projectTasks
                existingGlobalTasks sf Hnd Hreach Hfinal) as Hnd2.
  destruct (sim_run today project allUsers h0 projectTasks existingGlobalTasks
              sf Hnd Hreach Hfinal
              (loopEntry h0 projectTasks av)
              Hrtc (wf_init _ _ _) (topo_init _ _ _ _ Hnd)
              (loopEntry (heap sf) (optimized sf) av)
              (wf_init _ _ _) (topo_init _ _ _ _ Hnd2)
              (sim_init today project allUsers h0 projectTasks existingGlobalTasks
                 sf Hnd Hreach Hfinal av Hrtc))
    as (s2f & Hrtc2 & Hq2 & Ho2 & Hl2).
  exists (mkResult (optimized s2f) (conflictLog s2f) ∅), (heap s2f).
  split; [|split; [exact Ho2|exact Hl2]].
  unfold scheduleProject, run.
  rewrite (init_again today project allUsers h0 projectTasks existingGlobalTasks
             sf Hreach Hothers av Hs0). simpl.
  rewrite (processLoop_rtc (heap sf) (outs sf) project allUsers _ _ s2f);
    [done|apply wf_init| |done|done].
  pose proof (derefs_length (heap sf) (optimized sf)). unfold outs. simpl. lia.
Qed.

(** ** Which tasks are returned, and in which order *)

Section descent_to.
Context {A : Type} `{!EqDecision A} (R : A → A → Prop).

(** An endless descent in a finite graph closes a cycle from which the
    starting point is reached. *)
Lemma descent_cycle_to (univ : list A) (U : A → Prop) :
  (∀ x, U x → x ∈ univ) →
  (∀ x, U x → ∃ y, U y ∧ R y x) →
  ∀ x, U x → ∃ z, tc R z z ∧ rtc R z x.
Proof.
  intros Hfin Hpred x Hx.
  assert (∀ n : nat, ∃ c, length c = S n ∧ path R c ∧ Forall U c
                          ∧ Forall (λ w, rtc R w x) c) as Hchain.
  { induction n as [|n (c & Hlen & Hp & HU & Hx')].
    - exists [x]. repeat split; [constructor|by constructor|by constructor].
    - destruct c as [|y0 c]; [done|].
      apply Forall_cons in HU as [Hy0 HU].
      pose proof (Forall_inv Hx') as Hy0x.
      destruct (Hpred y0 Hy0) as (y & Hy & Hyy0).
      exists (y :: y0 :: c). split; [simpl in *; lia|].
      split; [by constructor|]. split; [by repeat constructor|].
      constructor; [by eapply rtc_l|done]. }
  destruct (Hchain (length univ)) as (c & Hlen & Hp & HU & Hx').
  destruct (not_NoDup_split c) as (z & c1 & c2 & c3 & ->).
  { intros Hnd. assert (length c ≤ length univ)%nat; [|lia].
    apply submseteq_length, NoDup_submseteq; [done|].
    intros y Hy. apply Hfin. rewrite Forall_forall in HU. by apply HU. }
  exists z. split.
  - apply (path_reaches R z (c2 ++ z :: c3)).
    + by apply path_app_r in Hp.
    + apply elem_of_app. right. left.
  - rewrite Forall_forall in Hx'. apply Hx', elem_of_app. right. left.
Qed.
End descent_to.

Lemma not_done_cycle h0 ts project s t :
  NoDup (tid <$> ts) → wf h0 ts s → topo project ts s → queue s = [] →
  t ∈ ts → tid t ∉ doneIds s →
  ∃ z, tc (depEdge ts) z z ∧ rtc (depEdge ts) z (tid t).
Proof.
  intros Hnd Hwf Htopo Hq Ht0 Hnot.
  apply (descent_cycle_to (depEdge ts) (tid <$> ts)
           (λ x, x ∈ tid <$> ts ∧ x ∉ doneIds s)).
  - by intros x [? _].
  - intros x [(t' & -> & Ht)%list_elem_of_fmap Hx].
    assert (pending (taskMap s) (doneIds s) t' ≠ 0) as Hp.
    { intros Hp. apply Hx. apply (topo_ready _ _ _ Htopo t' Ht) in Hp.
      by rewrite Hq in Hp. }
    rewrite pending_zero in Hp.
    assert (Exists (λ d, d ∉ doneIds s) (presentDeps (taskMap s) t')) as Hex.
    { apply not_Forall_Exists; [apply _|]. rewrite Forall_forall.
      intros Hall. apply Hp. intros d Hd. specialize (Hall d Hd).
      by destruct (decide (d ∈ doneIds s)). }
    apply Exists_exists in Hex as (d & Hd & Hdn).
    apply (presentDeps_spec h0 ts s) in Hd as [Hd Hdin]; [|done].
    exists d. split; [done|]. by exists t'.
  - split; [|done]. apply list_elem_of_fmap. eauto.
Qed.

(** X13. Which tasks are returned when the call returns, and in which
    order, for tasks with pairwise distinct ids.  A task is in
    [optimizedTasks] exactly when no task on a dependency cycle is the task
    itself or one of its direct or indirect dependencies.  [optimizedTasks]
    is in dependency order: a task that is returned comes after each of its
    direct and indirect dependencies that are tasks of the input, and these
    are returned too. *)
Theorem returned_tasks today project h0 projectTasks allUsers
    existingGlobalTasks r h' :
  NoDup (tid <$> derefs h0 projectTasks) →
  scheduleProject today project h0 projectTasks allUsers existingGlobalTasks
  = Ok (r, h') →
  (∀ t, t ∈ derefs h0 projectTasks →
     tid t ∈ tid <$> derefs h' (optimizedTasks r)
     ↔ ¬ ∃ z, tc (depEdge (derefs h0 projectTasks)) z z
              ∧ rtc (depEdge (derefs h0 projectTasks)) z (tid t))
  ∧ (∀ a b, tc (depEdge (derefs h0 projectTasks)) a b →
       b ∈ tid <$> derefs h' (optimizedTasks r) →
       before (tid <$> derefs h' (optimizedTasks r)) a b).
Proof.
  intros Hnd (s & Hr & Hq & -> & ->)%scheduleProject_final. simpl.
  pose proof (wf_reachable _ _ _ _ _ _ _ Hr) as Hwf.
  pose proof (topo_reachable _ _ _ _ _ _ _ Hnd Hr) as Htopo.
  change (tid <$> derefs (heap s) (optimized s)) with (doneIds s).
  assert (NoDup (doneIds s)) as Hnd'.
  { pose proof (topo_nodup _ _ _ Htopo) as Hn.
    by apply NoDup_app in Hn as (_ & _ & ?). }
  split.
  - intros t Ht. split.
    + intros Hin (z & Hz & [->|Hzt]%rtc_tc).
      * apply (before_irrefl (doneIds s) (tid t) Hnd').
        by apply (tc_depEdge_before h0 (derefs h0 projectTasks) project).
      * pose proof (tc_depEdge_before h0 (derefs h0 projectTasks) project s _ _ Hwf Htopo Hzt Hin) as Hb.
        apply (before_irrefl (doneIds s) z Hnd').
        apply (tc_depEdge_before h0 (derefs h0 projectTasks) project); [done..|].
        by eapply before_elem_of_l.
    + intros Hno. destruct (decide (tid t ∈ doneIds s)) as [|Hnot]; [done|].
      destruct Hno. by apply (not_done_cycle h0 (derefs h0 projectTasks) project s).
  - intros a b Hab Hb. by apply (tc_depEdge_before h0 (derefs h0 projectTasks) project).
Qed.

(** ** The caller *)

Lemma derefs_filter (h : Heap) (P : Task → bool) refs :
  derefs h (List.filter (taskHolds h P) refs)
  = filter (λ t, P t = true) (derefs h refs).
Proof.
  unfold derefs. induction refs as [|l refs IH]; [done|].
  cbn [List.filter]. unfold taskHolds at 1.
  destruct (h !! l) as [t|] eqn:Hl; csimpl; rewrite ?Hl; csimpl; [|done].
  rewrite filter_cons. destruct (P t) eqn:Hp.
  - rewrite decide_True by done. csimpl. by rewrite Hl, IH.
  - rewrite decide_False by done. done.
Qed.

Lemma currentProject_Some projects sel cp :
  currentProject projects sel = Some cp → cp ∈ projects ∧ pid cp = sel.
Proof.
  intros [Hin Hb]%find_some. split; [by apply list_elem_of_In|].
  by apply bool_decide_eq_true in Hb.
Qed.

(** X14. The call that [handleAutoSchedule] makes.  When a project has the
    selected id, the handler calls the engine if the user confirms, and
    makes no call otherwise.  The engine runs on the project that has the
    selected id; every task it is asked to schedule belongs to that project;
    and, when the call reaches the loop, the date from which a user of the
    roster (with an id that is not empty) is free is the latest of the
    current date and of the end dates, as [addDays] computes them, of all
    the tasks of the application state that are assigned to that user and
    belong to another project: the caller's filter and the engine's own
    test on the project id select the same tasks. *)
Theorem auto_schedule_call today h projects tasks users selectedProjectId
    confirmed project :
  currentProject projects selectedProjectId = Some project →
  let raw := rawProjectTasks h tasks selectedProjectId in
  let others := otherTasks h tasks project in
  handleAutoSchedule today h projects tasks users selectedProjectId confirmed
  = (if confirmed then Some (scheduleProject today project h raw users others)
     else None)
  ∧ pid project = selectedProjectId
  ∧ (∀ t, t ∈ derefs h raw → projectId t = pid project)
  ∧ (∀ t, t ∈ derefs h others → projectId t ≠ pid project)
  ∧ ∀ s u, initState today project h raw users others = Ok s →
      u ∈ users → uid u ≠ EmptyString →
      ∃ ends,
        mapM endDate (filter (λ t, projectId t ≠ selectedProjectId
                                   ∧ assignedTo t = Some (uid u))
                        (derefs h tasks)) = Some ends
        ∧ userAvailability s !! uid u = Some (latest today ends).
Proof.
  intros Hcp raw others.
  destruct (currentProject_Some _ _ _ Hcp) as [_ Hpid].
  split; [unfold handleAutoSchedule; by rewrite Hcp|]. split; [done|].
  assert (derefs h raw = filter (λ t, projectId t = selectedProjectId) (derefs h tasks))
    as Hraw.
  { unfold raw, rawProjectTasks. rewrite derefs_filter.
    apply list_filter_iff. intros t. by rewrite bool_decide_eq_true. }
  assert (derefs h others = filter (λ t, projectId t ≠ pid project) (derefs h tasks))
    as Hoth.
  { unfold others, otherTasks. rewrite derefs_filter.
    apply list_filter_iff. intros t. by rewrite bool_decide_eq_true. }
  split; [|split].
  - intros t. rewrite Hraw, list_elem_of_filter. intros [? _]. congruence.
  - intros t. rewrite Hoth, list_elem_of_filter. by intros [? _].
  - intros s u Hs Hu Hne.
    destruct (init_avail_roster _ _ _ _ _ _ _ u Hs Hu Hne) as (ends & Hends & Hav).
    exists ends. split; [|done]. rewrite <-Hends. unfold commitments.
    f_equal. rewrite Hoth, Hpid.
    rewrite list_filter_filter. apply list_filter_iff. intros t. tauto.
Qed.

(** ** Dates in range: the call returns *)

Lemma addDays_ranged lo b D d x :
  boundedOffset → 0 ≤ D →
  -100000000 ≤ lo - (D + 2) → b + (D + 2) ≤ 100000000 →
  lo ≤ d ≤ b → within D x →
  ∃ e, addDays d x = Some e ∧ lo - (D + 2) ≤ e ≤ b + (D + 2).
Proof.
  intros Hb HD Hlo Hhi Hd Hx. destruct x as [n|]; [|done]. simpl in Hx.
  destruct (addDays_bounded d n Hb) as (e & He & Hr); [lia..|].
  exists e. split; [done|lia].
Qed.

Lemma levelTask_ranged project lo b D t av :
  boundedOffset → 0 ≤ D →
  -100000000 ≤ lo - (D + 2) → b + (D + 2) ≤ 100000000 →
  lo ≤ startDate t ≤ b → within D (duration t) →
  (∀ a e, av !! a = Some e → lo - (D + 2) ≤ e ≤ b + (D + 2)) →
  ∃ av', levelTask project av t = Some av'
         ∧ ∀ a e, av' !! a = Some e → lo - (D + 2) ≤ e ≤ b + (D + 2).
Proof.
  intros Hb HD Hlo Hhi Hs Hd Hav. unfold levelTask.
  destruct (assignedTo t) as [u|]; [|eauto].
  destruct (bool_decide _ && _); [|eauto].
  destruct (av !! u) as [cur|] eqn:Hcur; [|eauto].
  destruct (addDays_ranged lo b D (startDate t) (duration t)) as (e & -> & He);
    [done..|].
  eexists. split; [done|]. intros a e' Ha.
  destruct (decide (a = u)) as [->|Hne].
  - rewrite lookup_insert_eq in Ha. injection Ha as <-. rewrite maxDate_max.
    specialize (Hav u cur Hcur). lia.
  - rewrite lookup_insert_ne in Ha by done. by eapply Hav.
Qed.

Lemma level_ranged project lo b D ts av :
  boundedOffset → 0 ≤ D →
  -100000000 ≤ lo - (D + 2) → b + (D + 2) ≤ 100000000 →
  (∀ t, t ∈ ts → lo ≤ startDate t ≤ b ∧ within D (duration t)) →
  (∀ a e, av !! a = Some e → lo - (D + 2) ≤ e ≤ b + (D + 2)) →
  ∃ av', forEachM (levelTask project) ts av = Some av'
         ∧ ∀ a e, av' !! a = Some e → lo - (D + 2) ≤ e ≤ b + (D + 2).
Proof.
  intros Hb HD Hlo Hhi. revert av.
  induction ts as [|t ts IH]; intros av Hts Hav; simpl; [eauto|].
  destruct (Hts t) as [Hs Hd]; [left|].
  destruct (levelTask_ranged project lo b D t av) as (av1 & -> & Hav1);
    [done..|].
  apply IH; [|done]. intros t' Ht'. apply Hts. by right.
Qed.

Lemma floor_ranged project lo b D h0 ts s task :
  boundedOffset → 0 ≤ D →
  -100000000 ≤ lo - (D + 2) → b + (D + 2) ≤ 100000000 →
  wf h0 ts s → ranged lo b D h0 s → lo ≤ pStartDate project ≤ b →
  ∃ floor,
    dependencyEarliestStart project (taskMap s) (heap s) task = Some floor
    ∧ lo ≤ floor ≤ b + (D + 2).
Proof.
  intros Hb HD Hlo Hhi Hwf [Hr _] Hp. unfold dependencyEarliestStart.
  assert (lo ≤ pStartDate project ≤ b + (D + 2)) as Hacc by lia.
  revert Hacc. generalize (pStartDate project) as acc. clear Hp.
  induction (depsOf task) as [|d ds IH]; intros acc Hacc; simpl; [eauto|].
  unfold depStep at 1. unfold getTask.
  destruct (taskMap s !! d) as [l|] eqn:Hl; [|by apply IH].
  destruct (wf_taskMap _ _ _ Hwf _ _ Hl) as (Hge & cd & Hcd & _).
  rewrite Hcd. destruct (Hr l cd Hge Hcd) as [Hs Hd].
  destruct (addDays_ranged lo b D (startDate cd) (duration cd)) as (e & -> & He);
    [done..|].
  apply IH. rewrite maxDate_max. lia.
Qed.

Lemma bookUser_ranged project lo b D av task floor best :
  boundedOffset → 0 ≤ D →
  -100000000 ≤ lo - (D + 2) → b + 2 * (D + 2) ≤ 100000000 →
  lo ≤ pStartDate project ≤ b → within D (duration task) →
  lo ≤ floor ≤ b + (D + 2) →
  (∀ a e, av !! a = Some e → lo - (D + 2) ≤ e ≤ b + (D + 2)) →
  ∃ bk, bookUser project av task floor best = Some bk
        ∧ lo ≤ bk.1.1 ≤ b + 2 * (D + 2)
        ∧ ∀ a e, bk.1.2 !! a = Some e → lo - (D + 2) ≤ e ≤ b + 3 * (D + 2).
Proof.
  intros Hb HD Hlo Hhi Hp Hd Hf Hav. unfold bookUser.
  assert (∀ a e, av !! a = Some e → lo - (D + 2) ≤ e ≤ b + 3 * (D + 2)) as Hav'.
  { intros a e Ha. specialize (Hav a e Ha). lia. }
  destruct best as [u|]; [|eexists; split; [done|]; simpl; split; [lia|done]].
  destruct (truthy (Some u));
    [|eexists; split; [done|]; simpl; split; [lia|done]].
  set (start := maxDate floor (default (pStartDate project) (av !! u))).
  assert (lo ≤ start ≤ b + (D + 2)) as Hs.
  { unfold start. rewrite maxDate_max.
    destruct (av !! u) as [e|] eqn:He; simpl; [specialize (Hav u e He)|]; lia. }
  destruct (addDays_ranged lo (b + (D + 2)) D start (duration task))
    as (e & -> & He); [done..|lia|done|done|].
  eexists. split; [done|]. simpl. split; [lia|].
  intros a e' Ha. destruct (decide (a = u)) as [->|Hne].
  - rewrite lookup_insert_eq in Ha. injection Ha as <-. lia.
  - rewrite lookup_insert_ne in Ha by done. by eapply Hav'.
Qed.

Lemma processTask_ranged project users lo b D h0 ts s i rest :
  boundedOffset → 0 ≤ D →
  -100000000 ≤ lo - (D + 2) → b + 2 * (D + 2) ≤ 100000000 →
  lo ≤ pStartDate project ≤ b →
  wf h0 ts s → ranged lo b D h0 s → queue s = i :: rest →
  ∃ s', processTask project users s i rest = Ok s'
        ∧ ranged lo (b + 2 * (D + 2)) D h0 s'.
Proof.
  intros Hb HD Hlo Hhi Hp Hwf Hr Hq.
  destruct (processTask_defined _ _ project users s i rest Hwf Hq)
    as (l & task & Hl & Htask & Hcases).
  destruct (wf_taskMap _ _ _ Hwf _ _ Hl) as (Hge & _).
  destruct (floor_ranged project lo b D h0 ts s task) as (floor & Hfloor & Hf);
    [done|done|done|lia|done|done|done|].
  pose proof Hr as [Hr1 Hr2]. destruct (Hr1 l task Hge Htask) as [_ Hd].
  destruct (bookUser_ranged project lo b D (userAvailability s) task floor
              (chooseUser users (userAvailability s) task floor).1)
    as (bk & Hbk & Hs & Hav); [done..|].
  destruct Hcases as [[s' Hs']|[_ [?|(f & ? & ?)]]]; [|congruence..].
  exists s'. split; [done|].
  apply processTask_inv in Hs'
    as (l' & task' & floor' & bk' & Hl' & Htask' & Hfloor' & Hbk' & ->).
  assert (l' = l) as -> by congruence.
  assert (task' = task) as -> by congruence.
  assert (floor' = floor) as -> by congruence.
  assert (bk' = bk) as -> by congruence.
  split; simpl.
  - intros l0 t Hl0. destruct (decide (l0 = l)) as [->|Hne].
    + rewrite list_lookup_insert_eq by (by eapply lookup_lt_Some).
      intros [= <-]. simpl. split; [lia|done].
    + rewrite list_lookup_insert_ne by done. intros Ht.
      destruct (Hr1 l0 t Hl0 Ht). split; [lia|done].
  - intros a e Ha. specialize (Hav a e Ha). lia.
Qed.

Lemma processLoop_ranged project users lo D h0 ts fuel :
  boundedOffset → 0 ≤ D → -100000000 ≤ lo - (D + 2) →
  ∀ m b s,
    wf h0 ts s → ranged lo b D h0 s → lo ≤ pStartDate project ≤ b →
    (length (optimized s) + m = length ts)%nat → (m ≤ fuel)%nat →
    b + 2 * Z.of_nat m * (D + 2) ≤ 100000000 →
    ∃ s', processLoop fuel project users s = Ok s'.
Proof.
  intros Hb HD Hlo.
  induction fuel as [|fuel IH]; intros m b s Hwf Hr Hp Hm Hfuel Hhi.
  - destruct (queue s) as [|i rest] eqn:Hq; simpl; rewrite Hq; [eauto|].
    pose proof (wf_measure _ _ _ Hwf) as Hw. rewrite Hq in Hw. simpl in Hw. lia.
  - destruct (queue s) as [|i rest] eqn:Hq; simpl; rewrite Hq; [eauto|].
    pose proof (wf_measure _ _ _ Hwf) as Hw. rewrite Hq in Hw. simpl in Hw.
    destruct m as [|m]; [lia|].
    assert (0 ≤ Z.of_nat m * (D + 2)) as Hnn by (apply Z.mul_nonneg_nonneg; lia).
    rewrite Nat2Z.inj_succ in Hhi.
    destruct (processTask_ranged project users lo b D h0 ts s i rest)
      as (s1 & Hs1 & Hr1); [done|done|done|lia|done|done|done|done|].
    rewrite Hs1. simpl.
    assert (step project users s s1) as Hstep by (by exists i, rest).
    apply (IH m (b + 2 * (D + 2))); [by eapply wf_step|done|lia| |lia|lia].
    rewrite (step_optimized_length _ _ _ _ Hstep). lia.
Qed.

(** A call on dates and durations in range returns, in a zone whose
    offsets are of one day at most. *)
Lemma returns_in_range lo hi D today project h0 pts users others :
  boundedOffset →
  datesInRange lo hi D today project (derefs h0 pts) (derefs h0 others) →
  ∃ r h', scheduleProject today project h0 pts users others = Ok (r, h').
Proof.
  intros Hb (HD & Hlo & Hhi & Htoday & Hp & Hts).
  set (ts := derefs h0 pts) in *.
  assert (0 ≤ Z.of_nat (length ts) * (D + 2)) as Hnn
    by (apply Z.mul_nonneg_nonneg; lia).
  destruct (level_ranged project lo hi D (derefs h0 others)
              (fold_left (seedUser today) users ∅)) as (av & Hav & Hrange);
    [done..|lia| | |].
  { intros t Ht. apply Hts, elem_of_app. by right. }
  { intros a e. rewrite seed_lookup. case_decide; [|done]. intros [= <-]. lia. }
  assert (initState today project h0 pts users others = Ok (loopEntry h0 pts av))
    as Hinit by (apply initState_Ok; eauto).
  destruct (processLoop_ranged project users lo D h0 ts (length pts) Hb HD Hlo
              (length ts) hi (loopEntry h0 pts av)) as [s Hs].
  - apply wf_init.
  - destruct (init_unfold h0 pts av) as (Hh & _ & _ & _ & _ & _ & _ & Hav').
    split.
    + intros l t Hl. rewrite Hh, lookup_app_r by done. intros Ht.
      apply Hts, elem_of_app. left. by eapply list_elem_of_lookup_2.
    + rewrite Hav'. done.
  - done.
  - by destruct (init_unfold h0 pts av) as (_ & _ & _ & _ & _ & -> & _).
  - apply derefs_length.
  - lia.
  - exists (mkResult (optimized s) (conflictLog s) ∅), (heap s).
    unfold scheduleProject, run. rewrite Hinit. simpl. by rewrite Hs.
Qed.

(** ** C3: completeness on acyclic inputs *)

(** C3, as amended. Take an acyclic input of N tasks whose ids are pairwise
    distinct.  The call ends, and it returns when the dates and the
    durations are in range, in a zone whose offsets are of one day at most.
    When it returns, [optimizedTasks] has exactly N entries and their ids
    are the ids of the input tasks, each exactly once.  Nothing is assumed
    about dependency ids that are not ids of the input: they neither block
    a task nor make the call fail. *)
Theorem completeness today project h0 projectTasks allUsers existingGlobalTasks :
  NoDup (tid <$> derefs h0 projectTasks) →
  acyclic (derefs h0 projectTasks) →
  scheduleProject today project h0 projectTasks allUsers existingGlobalTasks
  ≠ OutOfFuel
  ∧ (boundedOffset →
     ∀ lo hi D,
       datesInRange lo hi D today project (derefs h0 projectTasks)
         (derefs h0 existingGlobalTasks) →
       ∃ r h',
         scheduleProject today project h0 projectTasks allUsers
           existingGlobalTasks = Ok (r, h'))
  ∧ ∀ r h',
      scheduleProject today project h0 projectTasks allUsers existingGlobalTasks
      = Ok (r, h') →
      length (optimizedTasks r) = length (derefs h0 projectTasks)
      ∧ NoDup (tid <$> derefs h' (optimizedTasks r))
      ∧ tid <$> derefs h' (optimizedTasks r) ≡ₚ tid <$> derefs h0 projectTasks.
Proof.
  intros Hnd Hacyc. split; [apply scheduleProject_fuel|].
  split; [intros Hb lo hi D; by apply returns_in_range|].
  intros r h' (s & Hr & Hq & -> & ->)%scheduleProject_final. simpl.
  pose proof (wf_reachable _ _ _ _ _ _ _ Hr) as Hwf.
  pose proof (topo_reachable _ _ _ _ _ _ _ Hnd Hr) as Htopo.
  assert (NoDup (doneIds s)) as Hnd'.
  { pose proof (topo_nodup _ _ _ Htopo) as Hn.
    by apply NoDup_app in Hn as (_ & _ & ?). }
  assert (doneIds s ≡ₚ tid <$> derefs h0 projectTasks) as Hperm.
  { apply NoDup_Permutation; [done..|]. intros i. split.
    - by apply (doneIds_known h0).
    - intros (t & -> & Ht)%list_elem_of_fmap.
      by apply (acyclic_all_done h0 (derefs h0 projectTasks) project s). }
  split; [|by split].
  rewrite <-(optimized_valid _ _ _ Hwf).
  apply Permutation_length in Hperm. unfold doneIds in Hperm.
  by rewrite !length_fmap in Hperm.
Qed.

(** ** C6: failure semantics *)


End proofs.

(** * The properties on the scenarios *)

(** ** The two zones *)



Lemma utc_bounded : @boundedOffset utc.
Proof. intros x. simpl. unfold msPerDay. lia. Qed.

Lemma madrid_bounded : @boundedOffset madrid.
Proof.
  intros x. simpl. unfold msPerDay.
  destruct (x <? _), (x <? _); lia.
Qed.

(** In Madrid a day is lost when two days are added to the eve of the
    change to summer time: 2024-03-30 plus two days is 2024-03-31. *)
Lemma madrid_spring : @addDays madrid 19812 2 = Some 19813.
Proof. reflexivity. Qed.

Lemma madrid_not_fixed : ¬ @fixedOffset madrid.
Proof. intros H. specialize (H 0 (19814 * msPerDay)). done. Qed.


(** In Windhoek a date does move to an earlier one: on the day on which
    summer time ended in 2017, midnight UTC is 01:00 local time for the second
    time, which is read back as the first: 2017-04-02 plus no day is
    2017-04-01. *)
Lemma windhoek_autumn : @addDays windhoek 17258 0 = Some 17257.
Proof. reflexivity. Qed.

Lemma windhoek_bounded : @boundedOffset windhoek.
Proof.
  intros x. simpl. unfold msPerDay.
  destruct (x <? _), (x <? _); lia.
Qed.

Lemma windhoek_not_forward : ¬ @forward windhoek.
Proof.
  intros H. specialize (H 17258 0 17257). vm_compute in H.
  by destruct (H ltac:(discriminate) eq_refl).
Qed.

(** ** The dates of [addDays] *)

(** X15. What [addDays] returns.  It returns a date only for a number of
    days and a date in the range of 100,000,000 days on either side of
    1970-01-01, and the date it returns is in that range; it raises
    otherwise.  In a zone of constant offset it returns the date plus the
    days exactly when both the date and that sum are in range.  In a zone
    whose offsets are of one day at most it returns, for a date in range
    and a sum that is in range by two days, a date that is two days away
    from the sum at most.  The result is not the sum in every zone: in
    Madrid, 2024-03-30 plus two days is 2024-03-31, and in Windhoek
    2017-04-02 plus no day is 2017-04-01. *)
Theorem addDays_dates :
  (∀ (zone : TimeZone) d days e,
     @addDays zone d days = Some e →
     ∃ n, days = Finite n ∧ -100000000 ≤ d ≤ 100000000
          ∧ -100000000 ≤ e ≤ 100000000)
  ∧ (∀ zone : TimeZone, @fixedOffset zone →
     ∀ d n,
       @addDays zone d (Finite n)
       = if decide (-100000000 ≤ d ≤ 100000000
                    ∧ -100000000 ≤ d + n ≤ 100000000)
         then Some (d + n) else None)
  ∧ (∀ zone : TimeZone, @boundedOffset zone →
     ∀ d n, -100000000 ≤ d ≤ 100000000 → -99999998 ≤ d + n ≤ 99999998 →
       ∃ e, @addDays zone d (Finite n) = Some e ∧ d + n - 2 ≤ e ≤ d + n + 2)
  ∧ @addDays madrid 19812 2 = Some 19813
  ∧ @addDays windhoek 17258 0 = Some 17257.
Proof.
  split; [|split; [|split; [|split]]].
  - intros zone d days e (n & -> & Hd & Hu & ->)%addDays_Some. cbv zeta in Hu.
    exists n. split; [done|].
    unfold maxTime, msPerDay in *. split; [lia|]. split.
    + apply Z.div_le_lower_bound; lia.
    + apply Z.div_le_upper_bound; lia.
  - intros zone Hfix d n. case_decide as Hr.
    + apply addDays_Some. exists n. split; [done|]. cbv zeta.
      rewrite (Hfix (d * msPerDay)).
      replace (_ - _) with ((d + n) * msPerDay) by lia.
      rewrite Z.div_mul by done. unfold maxTime, msPerDay. lia.
    + destruct (addDays d (Finite n)) as [e|] eqn:He; [|done].
      destruct Hr.
      apply addDays_Some in He as (n' & [= <-] & Hd & Hu & _). cbv zeta in Hu.
      rewrite (Hfix (d * msPerDay)) in Hu.
      replace (_ - _) with ((d + n) * msPerDay) in Hu by lia.
      unfold maxTime, msPerDay in *. lia.
  - intros zone Hb d n Hd Hn. by apply addDays_bounded.
  - exact madrid_spring.
  - exact windhoek_autumn.
Qed.

(** ** C1 *)

Lemma relay_acyclic : acyclic (derefs Scenario.relay Scenario.chainRefs).
Proof. apply (ranked_acyclic _ Scenario.chainRank). compute_done. Qed.







(** ** C3 *)

Ltac in_range :=
  unfold datesInRange; do 5 (split; [compute_done|]);
  apply Forall_forall; compute_done.

Lemma store_acyclic : acyclic (derefs Scenario.store Scenario.refs).
Proof. apply (ranked_acyclic _ Scenario.rank). compute_done. Qed.

(** In UTC, on the scenario of the specification, in which T2 lists an id
    that is no task of the project. *)
Lemma completeness_witness :
  let ts := derefs Scenario.store Scenario.refs in
  NoDup (tid <$> ts)
  ∧ acyclic ts
  ∧ @boundedOffset utc
  ∧ datesInRange 0 7 3 0 Scenario.P ts []
  ∧ @scheduleProject utc 0 Scenario.P Scenario.store Scenario.refs
      [Scenario.U1; Scenario.U2] [] ≠ OutOfFuel
  ∧ (@boundedOffset utc →
     ∀ lo hi D,
       datesInRange lo hi D 0 Scenario.P ts (derefs Scenario.store []) →
       ∃ r h',
         @scheduleProject utc 0 Scenario.P Scenario.store Scenario.refs
           [Scenario.U1; Scenario.U2] [] = Ok (r, h'))
  ∧ ∀ r h',
      @scheduleProject utc 0 Scenario.P Scenario.store Scenario.refs
        [Scenario.U1; Scenario.U2] [] = Ok (r, h') →
      length (optimizedTasks r) = length ts
      ∧ NoDup (tid <$> derefs h' (optimizedTasks r))
      ∧ tid <$> derefs h' (optimizedTasks r) ≡ₚ tid <$> ts.
Proof.
  assert (NoDup (tid <$> derefs Scenario.store Scenario.refs)) as Hnd
    by compute_done.
  intros ts. split; [exact Hnd|]. split; [exact store_acyclic|].
  split; [exact utc_bounded|]. split; [in_range|].
  exact (@completeness utc 0 Scenario.P Scenario.store Scenario.refs
           [Scenario.U1; Scenario.U2] [] Hnd store_acyclic).
Defined.

Lemma fork_acyclic : acyclic (derefs Scenario.fork Scenario.chainRefs).
Proof.
  apply (ranked_acyclic _ (λ i, if bool_decide (i = "A"%string) then 0 else 1)%nat).
  compute_done.
Qed.

Lemma blank_acyclic : acyclic (derefs Scenario.blank [0; 1]%nat).
Proof.
  apply (ranked_acyclic _ (λ i, if bool_decide (i = "N"%string) then 0 else 1)%nat).
  compute_done.
Qed.

Lemma long_acyclic : acyclic (derefs Scenario.long [0; 1]%nat).
Proof.
  apply (ranked_acyclic _ (λ i, if bool_decide (i = "L"%string) then 0 else 1)%nat).
  compute_done.
Qed.

(** C3, as worded, fails in three ways, in UTC.  When two of three tasks
    have the same id, the one clone that stands for that id is returned
    once: two tasks for three.  When a task has a duration that is not a
    number, or one of so many days that its end is out of the range of
    dates, and another task depends on it, the call raises. *)
Lemma completeness_counterexample :
  ¬ @claim_completeness utc 0 Scenario.P Scenario.fork Scenario.chainRefs [] []
  ∧ ¬ @claim_completeness utc 0 Scenario.P Scenario.blank [0; 1]%nat [] []
  ∧ ¬ @claim_completeness utc 0 Scenario.P Scenario.long [0; 1]%nat [] [].
Proof.
  unfold claim_completeness. split; [|split]; intros H.
  - destruct (H fork_acyclic) as (r & h' & E & Hlen & _).
    vm_compute in E. injection E as <- <-. by vm_compute in Hlen.
  - destruct (H blank_acyclic) as (r & h' & E & _). by vm_compute in E.
  - destruct (H long_acyclic) as (r & h' & E & _). by vm_compute in E.
Qed.

(** ** C6 *)



(** ** C7 *)

(** In UTC, on the scenario of the specification. *)
Lemma caller_objects_untouched_witness :
  ∃ r h',
    @scheduleProject utc 0 Scenario.P Scenario.store Scenario.refs
      [Scenario.U1; Scenario.U2] [] = Ok (r, h')
    ∧ take (length Scenario.store) h' = Scenario.store
    ∧ (∀ s, @reachable utc 0 Scenario.P Scenario.store Scenario.refs
              [Scenario.U1; Scenario.U2] [] s →
            take (length Scenario.store) (heap s) = Scenario.store)
    ∧ Forall (λ l, (length Scenario.store ≤ l)%nat
                   ∧ ∃ t0 c, t0 ∈ derefs Scenario.store Scenario.refs
                             ∧ h' !! l = Some c ∧ sameStatic t0 c)
             (optimizedTasks r).
Proof.
  eassert (@scheduleProject utc 0 Scenario.P Scenario.store Scenario.refs
             [Scenario.U1; Scenario.U2] [] = Ok (_, _)) as E
    by (vm_compute; reflexivity).
  eexists _, _. split; [exact E|].
  exact (@caller_objects_untouched utc 0 Scenario.P Scenario.store Scenario.refs
           [Scenario.U1; Scenario.U2] [] _ _ E).
Defined.

(** ** Staffing conflicts *)

(** In UTC, on the scenario of the specification with a roster without
    electrician. *)
Lemma conflict_correctness_witness :
  ∃ r h',
    @scheduleProject utc 0 Scenario.P Scenario.store Scenario.refs
      [Scenario.U2] [] = Ok (r, h')
    ∧ conflicts r = [conflictMessage "Electrician" "Wiring"]
    ∧ conflicts r
      = flat_map (conflictOf [Scenario.U2]) (derefs h' (optimizedTasks r))
    ∧ (∀ s s',
         @reachable utc 0 Scenario.P Scenario.store Scenario.refs
           [Scenario.U2] [] s →
         @step utc Scenario.P [Scenario.U2] s s' →
         ∃ l c, optimized s' = optimized s ++ [l] ∧ heap s' !! l = Some c
                ∧ conflictLog s' = conflictLog s ++ conflictOf [Scenario.U2] c)
    ∧ ∀ c x, c ∈ derefs h' (optimizedTasks r) →
        requiredSpecialty c = Some x → x ≠ EmptyString →
        ((∀ u, u ∈ [Scenario.U2] → ¬ (x ∈ specialties u ∨ role u = x)) →
         conflictOf [Scenario.U2] c = [conflictMessage x (name c)]
         ∧ mentions (conflictMessage x (name c)) (name c)
         ∧ mentions (conflictMessage x (name c)) x
         ∧ ∃ t0, t0 ∈ derefs Scenario.store Scenario.refs
                 ∧ c = scheduled t0 (startDate c) (assignedTo t0))
        ∧ ((∃ u, u ∈ [Scenario.U2] ∧ (x ∈ specialties u ∨ role u = x)) →
           conflictOf [Scenario.U2] c = []).
Proof.
  eassert (@scheduleProject utc 0 Scenario.P Scenario.store Scenario.refs
             [Scenario.U2] [] = Ok (_, _)) as E by (vm_compute; reflexivity).
  eexists _, _. split; [exact E|]. split; [by vm_compute|].
  exact (@conflict_correctness utc 0 Scenario.P Scenario.store Scenario.refs
           [Scenario.U2] [] _ _ E).
Defined.

(** ** The assignment rule *)

Lemma wiring_reachable users :
  @reachable utc 0 Scenario.P Scenario.wiring Scenario.wiringRefs users []
    (Scenario.wiringInit users).
Proof. exists (Scenario.wiringInit users). split; [done|apply rtc_refl]. Qed.

Lemma wiring_step users :
  @step utc Scenario.P users (Scenario.wiringInit users)
    (Scenario.wiringNext users).
Proof.
  exists "W1"%string, ["W2"%string]. split; [by vm_compute|].
  unfold Scenario.wiringNext.
  destruct (@processTask_ranged utc Scenario.P users 0 0 2 Scenario.wiring
              (derefs Scenario.wiring Scenario.wiringRefs)
              (Scenario.wiringInit users) "W1" ["W2"%string])
    as (s' & -> & _); try done.
  - apply wf_init.
  - split.
    + intros l t Hl.
      destruct (init_unfold Scenario.wiring Scenario.wiringRefs
                  (fold_left (seedUser 0) users ∅)) as (Hh & _).
      unfold Scenario.wiringInit. rewrite Hh, lookup_app_r by done.
      intros Ht%list_elem_of_lookup_2. revert t Ht. apply Forall_forall.
      compute_done.
    + intros a e. unfold Scenario.wiringInit.
      destruct (init_unfold Scenario.wiring Scenario.wiringRefs
                  (fold_left (seedUser 0) users ∅))
        as (_ & _ & _ & _ & _ & _ & _ & ->).
      rewrite seed_lookup. case_decide; [|done]. intros [= <-]. lia.
Qed.

(** In UTC, on the first wiring job with U1, an electrician, as roster. *)
Lemma assignment_rule_witness :
  let users := [Scenario.U1] in
  let s := Scenario.wiringInit users in
  let s' := Scenario.wiringNext users in
  let task' := scheduled Scenario.W1 0 (Some "U1"%string) in
  @reachable utc 0 Scenario.P Scenario.wiring Scenario.wiringRefs users [] s
  ∧ @step utc Scenario.P users s s'
  ∧ queue s = ["W1"; "W2"]%string
  ∧ taskMap s !! "W1"%string = Some 2%nat
  ∧ heap s !! 2%nat = Some Scenario.W1
  ∧ requiredSpecialty Scenario.W1 = Some "Electrician"%string
  ∧ "Electrician"%string ≠ EmptyString
  ∧ candidatesFor users (userAvailability s) "Electrician" = [Scenario.U1]
  ∧ heap s' !! 2%nat = Some task'
  ∧ ∃ floor,
      @dependencyEarliestStart utc Scenario.P (taskMap s) (heap s) Scenario.W1
      = Some floor
      ∧ (keepsCurrent users (userAvailability s) Scenario.W1 floor "Electrician" →
         assignedTo task' = assignedTo Scenario.W1)
      ∧ (¬ keepsCurrent users (userAvailability s) Scenario.W1 floor "Electrician" →
         (uid Scenario.U1 ≠ EmptyString → assignedTo task' = Some (uid Scenario.U1))
         ∧ (uid Scenario.U1 = EmptyString →
            assignedTo task' = assignedTo Scenario.W1))
      ∧ ∃ pre post,
          capable users "Electrician" = pre ++ Scenario.U1 :: post
          ∧ Forall (λ u, availOf (userAvailability s) (uid Scenario.U1)
                         < availOf (userAvailability s) (uid u)) pre
          ∧ Forall (λ u, availOf (userAvailability s) (uid Scenario.U1)
                         ≤ availOf (userAvailability s) (uid u)) post.
Proof.
  intros users s s' task'.
  pose proof (wiring_reachable users) as H1.
  pose proof (wiring_step users) as H2.
  assert (queue s = ["W1"; "W2"]%string) as H3 by (by vm_compute).
  assert (taskMap s !! "W1"%string = Some 2%nat) as H4 by (by vm_compute).
  assert (heap s !! 2%nat = Some Scenario.W1) as H5 by (by vm_compute).
  assert (requiredSpecialty Scenario.W1 = Some "Electrician"%string) as H6 by done.
  assert ("Electrician"%string ≠ EmptyString) as H7 by done.
  assert (candidatesFor users (userAvailability s) "Electrician" = [Scenario.U1])
    as H8 by (by vm_compute).
  assert (heap s' !! 2%nat = Some task') as H9 by (by vm_compute).
  do 9 (split; [assumption|]).
  exact (@assignment_rule utc 0 Scenario.P Scenario.wiring Scenario.wiringRefs
           users [] s s' "W1"%string ["W2"%string] 2%nat Scenario.W1
           "Electrician"%string Scenario.U1 [] task' H1 H2 H3 H4 H5 H6 H7 H8 H9).
Defined.

(** The condition on the id is needed: the rule without it fails when the
    first candidate has the empty string as id: the wiring job W1, assigned
    to bob, is not assigned to that candidate but stays with bob. *)
Lemma assignment_rule_counterexample :
  ¬ @claim_assignment_rule utc 0 Scenario.P Scenario.wiring Scenario.wiringRefs
      [Scenario.Ghost] [].
Proof.
  intros H.
  destruct (H (Scenario.wiringInit [Scenario.Ghost])
              (Scenario.wiringNext [Scenario.Ghost])
              (wiring_reachable _) (wiring_step _)
              "W1"%string ["W2"%string] 2%nat Scenario.W1 "Electrician"%string
              Scenario.Ghost [] (scheduled Scenario.W1 0 (Some "bob"%string))
              ltac:(by vm_compute) ltac:(by vm_compute) ltac:(by vm_compute)
              ltac:(by vm_compute) ltac:(by vm_compute) ltac:(by vm_compute)
              ltac:(by vm_compute) 0 ltac:(by vm_compute))
    as [_ Hother].
  assert (assignedTo (scheduled Scenario.W1 0 (Some "bob"%string))
          = Some (uid Scenario.Ghost)) as E; [|done].
  apply Hother. intros [(c & Hc & Hid) _].
  apply elem_of_capable in Hc as [Hc _].
  apply list_elem_of_singleton in Hc as ->. done.
Qed.

(** ** A user's tasks do not overlap *)


(** The condition on the roster is needed: the tasks of one assignee overlap
    when the only electrician of the roster has the empty string as id: the
    two wiring jobs, two days each, stay with bob and both start on the
    project's start date. *)
Lemma no_overlap_counterexample :
  ¬ @claim_no_overlap utc 0 Scenario.P Scenario.wiring Scenario.wiringRefs
      [Scenario.Ghost] [].
Proof.
  intros H.
  eassert (@scheduleProject utc 0 Scenario.P Scenario.wiring Scenario.wiringRefs
             [Scenario.Ghost] [] = Ok (_, _)) as E by (vm_compute; reflexivity).
  assert (∀ t, t ∈ derefs Scenario.wiring Scenario.wiringRefs →
               atLeast 1 (duration t))
    as Hdur by (apply Forall_forall; compute_done).
  destruct (H Hdur _ _ E 2%nat 3%nat
              (scheduled Scenario.W1 0 (Some "bob"%string))
              (scheduled Scenario.W2 0 (Some "bob"%string)) "bob"%string)
    as [(e & He & Hle)|(e & He & Hle)]; try done; try compute_done;
    vm_compute in He; injection He as <-; by vm_compute in Hle.
Qed.

(** ** Assignees that are not in the roster *)

(** In UTC, on the first wiring job, assigned to bob, with a roster that has
    neither bob nor an electrician. *)
Lemma unknown_assignee_witness :
  let users := [Scenario.U2] in
  let s := Scenario.wiringInit users in
  let s' := Scenario.wiringNext users in
  @reachable utc 0 Scenario.P Scenario.wiring Scenario.wiringRefs users [] s
  ∧ @step utc Scenario.P users s s'
  ∧ queue s = ["W1"; "W2"]%string
  ∧ taskMap s !! "W1"%string = Some 2%nat
  ∧ heap s !! 2%nat = Some Scenario.W1
  ∧ "bob"%string ≠ EmptyString
  ∧ ("bob"%string ∉ uid <$> users)
  ∧ ∃ floor,
      @dependencyEarliestStart utc Scenario.P (taskMap s) (heap s) Scenario.W1
      = Some floor
      ∧ let best := (chooseUser users (userAvailability s) Scenario.W1 floor).1 in
        (best = Some "bob"%string → "bob"%string ∉ uid <$> users →
         assignedTo Scenario.W1 = Some "bob"%string
         ∧ ∃ task' e, heap s' !! 2%nat = Some task'
             ∧ optimized s' = optimized s ++ [2%nat]
             ∧ assignedTo task' = Some "bob"%string
             ∧ startDate task'
               = maxDate floor
                   (default (pStartDate Scenario.P)
                      (userAvailability s !! "bob"%string))
             ∧ (userAvailability s !! "bob"%string = None →
                startDate task' = floor)
             ∧ (∀ e0, userAvailability s !! "bob"%string = Some e0 →
                      e0 ≤ startDate task')
             ∧ @endDate utc task' = Some e
             ∧ userAvailability s' !! "bob"%string = Some e)
        ∧ (best ≠ Some "bob"%string →
           userAvailability s' !! "bob"%string
           = userAvailability s !! "bob"%string).
Proof.
  intros users s s'.
  pose proof (wiring_reachable users) as H1.
  pose proof (wiring_step users) as H2.
  assert (queue s = ["W1"; "W2"]%string) as H3 by (by vm_compute).
  assert (taskMap s !! "W1"%string = Some 2%nat) as H4 by (by vm_compute).
  assert (heap s !! 2%nat = Some Scenario.W1) as H5 by (by vm_compute).
  assert ("bob"%string ≠ EmptyString) as H6 by done.
  assert ("bob"%string ∉ (uid <$> users)) as H8 by compute_done.
  do 7 (split; [assumption|]).
  destruct (@unknown_assignee utc 0 Scenario.P Scenario.wiring
              Scenario.wiringRefs users []) as (_ & H).
  exact (H s s' "W1"%string ["W2"%string] 2%nat Scenario.W1 "bob"%string
           H1 H2 H3 H4 H5 H6).
Defined.

(** ** The date of the call *)

(** The schedule depends on the date of the call: a task of a user of the
    roster starts no earlier than the current date, so that a call made ten
    days later returns another schedule. *)
Lemma deterministic_counterexample :
  ¬ @claim_deterministic utc Scenario.P Scenario.wiring Scenario.wiringRefs
      [Scenario.U1] [].
Proof.
  intros H. specialize (H 0 10). vm_compute in H. discriminate H.
Qed.

(** ** Resource leveling *)

(** In UTC, with U1 busy in another project until day 14. *)
Lemma resource_leveling_witness :
  ∃ s,
    @initState utc 5 Scenario.P Leveling.store Leveling.refs Leveling.users
      Leveling.others = Ok s
    ∧ userAvailability s !! "U1"%string = Some 14
    ∧ if decide ("U1"%string ∈ uid <$> Leveling.users) then
        if decide ("U1"%string = EmptyString)
        then userAvailability s !! "U1"%string = Some 5
        else ∃ ends,
               @commitments utc Scenario.P
                 (derefs Leveling.store Leveling.others) "U1" = Some ends
               ∧ userAvailability s !! "U1"%string = Some (latest 5 ends)
      else userAvailability s !! "U1"%string = None.
Proof.
  eassert (@initState utc 5 Scenario.P Leveling.store Leveling.refs
             Leveling.users Leveling.others = Ok _) as E
    by (vm_compute; reflexivity).
  eexists. split; [exact E|]. split; [by vm_compute|].
  exact (@resource_leveling utc 5 Scenario.P Leveling.store Leveling.refs
           Leveling.users Leveling.others _ "U1"%string E).
Defined.

(** ** Start dates and next-free dates *)


(** ** Where an assignee comes from *)

Lemma assignee_provenance_witness :
  ∃ r h',
    @scheduleProject utc 0 Scenario.P Scenario.store Scenario.refs
      [Scenario.U1; Scenario.U2] [] = Ok (r, h')
    ∧ ∀ c, c ∈ derefs h' (optimizedTasks r) →
        ∃ t0, t0 ∈ derefs Scenario.store Scenario.refs ∧ sameStatic t0 c
              ∧ assigneeFrom [Scenario.U1; Scenario.U2] t0 c
              ∧ (truthy (requiredSpecialty t0) = false →
                 assignedTo c = assignedTo t0).
Proof.
  eassert (@scheduleProject utc 0 Scenario.P Scenario.store Scenario.refs
             [Scenario.U1; Scenario.U2] [] = Ok (_, _)) as E
    by (vm_compute; reflexivity).
  eexists _, _. split; [exact E|].
  exact (@assignee_provenance utc 0 Scenario.P Scenario.store Scenario.refs
           [Scenario.U1; Scenario.U2] [] _ _ E).
Defined.

(** ** Earliest start *)

Lemma earliest_start_witness :
  NoDup (tid <$> derefs Leveling.store Leveling.refs)
  ∧ ∃ r h',
    @scheduleProject utc 5 Scenario.P Leveling.store Leveling.refs
      Leveling.users Leveling.others = Ok (r, h')
    ∧ ∀ j c, derefs h' (optimizedTasks r) !! j = Some c →
        let out := derefs h' (optimizedTasks r) in
        ∃ floor,
          @floorOf utc Scenario.P out c = Some floor
          ∧ floor ≤ startDate c
          ∧ (truthy (assignedTo c) = false → startDate c = floor)
          ∧ (startDate c = floor
             ∨ (∃ u ends, u ∈ Leveling.users ∧ uid u ≠ EmptyString
                     ∧ assignedTo c = Some (uid u)
                     ∧ @commitments utc Scenario.P
                         (derefs Leveling.store Leveling.others) (uid u)
                       = Some ends
                     ∧ startDate c = latest 5 ends)
             ∨ (∃ i t, (i < j)%nat ∧ out !! i = Some t
                       ∧ assignedTo t = assignedTo c
                       ∧ @endDate utc t = Some (startDate c))).
Proof.
  assert (NoDup (tid <$> derefs Leveling.store Leveling.refs)) as H1
    by compute_done.
  split; [exact H1|].
  eassert (@scheduleProject utc 5 Scenario.P Leveling.store Leveling.refs
             Leveling.users Leveling.others = Ok (_, _)) as E
    by (vm_compute; reflexivity).
  eexists _, _. split; [exact E|].
  exact (@earliest_start utc 5 Scenario.P Leveling.store Leveling.refs
           Leveling.users Leveling.others _ _ H1 E).
Defined.

(** ** Rescheduling a schedule *)

Lemma reschedule_fixed_point_witness :
  NoDup (tid <$> derefs Leveling.store Leveling.refs)
  ∧ Forall (λ l, (l < length Leveling.store)%nat) Leveling.others
  ∧ ∃ r h',
      @scheduleProject utc 5 Scenario.P Leveling.store Leveling.refs
        Leveling.users Leveling.others = Ok (r, h')
      ∧ ∃ r2 h2,
          @scheduleProject utc 5 Scenario.P h' (optimizedTasks r) Leveling.users
            Leveling.others = Ok (r2, h2)
          ∧ derefs h2 (optimizedTasks r2) = derefs h' (optimizedTasks r)
          ∧ conflicts r2 = conflicts r.
Proof.
  assert (NoDup (tid <$> derefs Leveling.store Leveling.refs)) as H1
    by compute_done.
  assert (Forall (λ l, (l < length Leveling.store)%nat) Leveling.others) as H2
    by compute_done.
  split; [exact H1|]. split; [exact H2|].
  eassert (@scheduleProject utc 5 Scenario.P Leveling.store Leveling.refs
             Leveling.users Leveling.others = Ok (_, _)) as H3
    by (vm_compute; reflexivity).
  eexists _, _. split; [exact H3|].
  exact (@reschedule_fixed_point utc 5 Scenario.P Leveling.store Leveling.refs
           Leveling.users Leveling.others _ _ H1 H2 H3).
Defined.

(** ** Which tasks are returned, and in which order *)

(** In UTC, on a task that nothing blocks and two tasks that wait for each
    other. *)
Lemma returned_tasks_witness :
  let ts := derefs Scenario.loop Scenario.chainRefs in
  NoDup (tid <$> ts)
  ∧ ∃ r h',
    @scheduleProject utc 0 Scenario.P Scenario.loop Scenario.chainRefs [] []
    = Ok (r, h')
    ∧ tid <$> derefs h' (optimizedTasks r) = ["A"%string]
    ∧ (∀ t, t ∈ ts →
         tid t ∈ tid <$> derefs h' (optimizedTasks r)
         ↔ ¬ ∃ z, tc (depEdge ts) z z ∧ rtc (depEdge ts) z (tid t))
    ∧ (∀ a b, tc (depEdge ts) a b →
         b ∈ tid <$> derefs h' (optimizedTasks r) →
         before (tid <$> derefs h' (optimizedTasks r)) a b).
Proof.
  intros ts.
  assert (NoDup (tid <$> ts)) as H1 by compute_done.
  split; [exact H1|].
  eassert (@scheduleProject utc 0 Scenario.P Scenario.loop Scenario.chainRefs
             [] [] = Ok (_, _)) as E by (vm_compute; reflexivity).
  eexists _, _. split; [exact E|]. split; [by vm_compute|].
  exact (@returned_tasks utc 0 Scenario.P Scenario.loop Scenario.chainRefs
           [] [] _ _ H1 E).
Defined.

(** ** The caller *)

(** In UTC, when the user confirms. *)
Lemma auto_schedule_call_witness :
  let raw := rawProjectTasks Leveling.store Portfolio.tasks "P" in
  let others := otherTasks Leveling.store Portfolio.tasks Scenario.P in
  currentProject Portfolio.projects "P" = Some Scenario.P
  ∧ @handleAutoSchedule utc 5 Leveling.store Portfolio.projects Portfolio.tasks
      Leveling.users "P" true
    = Some (@scheduleProject utc 5 Scenario.P Leveling.store raw Leveling.users
              others)
  ∧ @handleAutoSchedule utc 5 Leveling.store Portfolio.projects Portfolio.tasks
      Leveling.users "P" false = None
  ∧ pid Scenario.P = "P"%string
  ∧ (∀ t, t ∈ derefs Leveling.store raw → projectId t = pid Scenario.P)
  ∧ (∀ t, t ∈ derefs Leveling.store others → projectId t ≠ pid Scenario.P)
  ∧ ∀ s u,
      @initState utc 5 Scenario.P Leveling.store raw Leveling.users others
      = Ok s →
      u ∈ Leveling.users → uid u ≠ EmptyString →
      ∃ ends,
        mapM (@endDate utc)
          (filter (λ t, projectId t ≠ "P"%string ∧ assignedTo t = Some (uid u))
             (derefs Leveling.store Portfolio.tasks)) = Some ends
        ∧ userAvailability s !! uid u = Some (latest 5 ends).
Proof.
  intros raw others.
  assert (currentProject Portfolio.projects "P" = Some Scenario.P) as H1
    by reflexivity.
  split; [exact H1|].
  pose proof (@auto_schedule_call utc 5 Leveling.store Portfolio.projects
                Portfolio.tasks Leveling.users "P"%string true Scenario.P H1)
    as (Ht & Hrest).
  pose proof (@auto_schedule_call utc 5 Leveling.store Portfolio.projects
                Portfolio.tasks Leveling.users "P"%string false Scenario.P H1)
    as (Hf & _).
  split; [exact Ht|]. split; [exact Hf|]. exact Hrest.
Defined.
